(** * notion-sdk-js, [src/helpers.ts]: a shallow embedding and its properties

    The helpers are embedded function by function.  JavaScript strings are
    modelled as [string]s whose characters are the code units [0..255]
    (the Latin-1 range); regular-expression literals become terms of the
    type [regex], run by a backtracking matcher that follows the order of
    ECMAScript's matcher (leftmost start, greedy star, left alternative
    first); JSON payloads are [value]s and JavaScript objects are finite maps
    from keys to values; the asynchronous generator of the pagination helper
    is a state machine that is resumed by its consumer. *)

From Stdlib Require Import String Ascii List ZArith Lia Bool.
From stdpp Require Import gmap strings list.

Open Scope string_scope.

(** Appending to a string that starts with a character computes. *)
Arguments String.append !s1 s2 : simpl nomatch.

(** ** JavaScript strings *)

Module JsString.

Definition code (c : ascii) : N := N_of_ascii c.

(** [String.prototype.toLowerCase], on one Latin-1 code unit: [A-Z] and
    the accented capitals U+00C0..U+00DE (but not the sign U+00D7) move up
    by 32; every other code unit below 256 is its own lower case. *)
Definition lower_char (c : ascii) : ascii :=
  let n := code c in
  if ((65 <=? n) && (n <=? 90))%N then ascii_of_N (n + 32)
  else if ((192 <=? n) && (n <=? 222) && negb (n =? 215))%N
       then ascii_of_N (n + 32)
  else c.

Fixpoint toLowerCase (s : string) : string :=
  match s with
  | EmptyString => EmptyString
  | String c s' => String (lower_char c) (toLowerCase s')
  end.

(** White space and line terminators of ECMAScript below 256: TAB, LF, VT,
    FF, CR, SP and NBSP. *)
Definition is_white (c : ascii) : bool :=
  let n := code c in
  ((9 <=? n) && (n <=? 13) || (n =? 32) || (n =? 160))%N.

Fixpoint trimStart (s : string) : string :=
  match s with
  | EmptyString => EmptyString
  | String c s' => if is_white c then trimStart s' else s
  end.

(** [trimEnd] drops the white space that ends the string: a character is
    kept when something after it is kept, or when it is not white. *)
Fixpoint trimEnd (s : string) : string :=
  match s with
  | EmptyString => EmptyString
  | String c s' =>
      match trimEnd s' with
      | EmptyString => if is_white c then EmptyString else String c EmptyString
      | t => String c t
      end
  end.

Definition trim (s : string) : string := trimEnd (trimStart s).

(** [s.slice(from, to)] for [0 <= from <= to]; both ends are clamped to
    the length of [s]. *)
Definition slice (from to : nat) (s : string) : string :=
  substring from (to - from) s.

(** A string is truthy when it is not empty. *)
Definition truthy (s : string) : bool :=
  match s with EmptyString => false | _ => true end.

End JsString.

(** ** Regular expressions

    The patterns of [helpers.ts] use literals, character classes, sequence,
    alternation, a greedy star, bounded repetition, the anchors [^] and [$],
    and at most one capturing group. *)

Module Regex.
Local Open Scope list_scope.

Inductive regex : Type :=
  | Empty
  | Lit (c : ascii)
  | Class (negated : bool) (ranges : list (ascii * ascii))
  | Seq (r1 r2 : regex)
  | Alt (r1 r2 : regex)
  | Star (r : regex)
  | Repeat (n : nat) (r : regex)
  | Group (r : regex)
  | Bos
  | Eos.

(** The matcher's state: the index reached, the input that is left, and
    what group 1 captured. *)
Record mstate : Type := MState {
  pos : nat;
  rest : list ascii;
  cap : option (list ascii)
}.

(** ECMAScript's [Canonicalize] without the [u] flag: the upper case of a
    code unit when that is one code unit, except that a code unit from 128
    on is never mapped below 128.  On Latin-1: [a-z] and U+00E0..U+00FE
    (but not U+00F7) move down by 32, U+00FF becomes U+0178 and U+00B5
    becomes U+039C; the upper case of U+00DF is two code units long, so it
    stays. *)
Definition canonicalize (ignoreCase : bool) (c : ascii) : N :=
  let n := JsString.code c in
  if negb ignoreCase then n
  else if ((97 <=? n) && (n <=? 122))%N then (n - 32)%N
  else if ((224 <=? n) && (n <=? 254) && negb (n =? 247))%N then (n - 32)%N
  else if (n =? 255)%N then 376%N
  else if (n =? 181)%N then 924%N
  else n.

Definition lit_matches (i : bool) (c x : ascii) : bool :=
  (canonicalize i c =? canonicalize i x)%N.

(** Some member of the range has the canonical form of [x]. *)
Definition range_matches (i : bool) (lo hi x : ascii) : bool :=
  existsb (fun n => (canonicalize i (ascii_of_N n) =? canonicalize i x)%N)
          (map (fun k => (JsString.code lo + N.of_nat k)%N)
               (seq 0 (S (N.to_nat (JsString.code hi - JsString.code lo))))).

Definition class_matches (i : bool) (negated : bool)
           (ranges : list (ascii * ascii)) (x : ascii) : bool :=
  xorb negated (existsb (fun r => range_matches i (fst r) (snd r) x) ranges).

Definition advance (st : mstate) (xs : list ascii) : mstate :=
  MState (S (pos st)) xs (cap st).

Definition cont : Type := mstate -> option mstate.

Section Loops.
Variable body : mstate -> cont -> option mstate.

(** [r*], greedy: one more round of [r] is tried first, a round that
    consumes nothing is rejected, and the continuation is tried when no
    further round leads to a match.  Every round consumes a character,
    so the length of the input bounds the number of rounds. *)
Fixpoint star_loop (k : cont) (fuel : nat) (st : mstate) : option mstate :=
  match fuel with
  | O => k st
  | S fuel' =>
      match body st (fun st1 =>
                       if Nat.eqb (pos st1) (pos st) then None
                       else star_loop k fuel' st1) with
      | Some res => Some res
      | None => k st
      end
  end.

(** [r{n}]. *)
Fixpoint repeat_loop (k : cont) (n : nat) (st : mstate) : option mstate :=
  match n with
  | O => k st
  | S n' => body st (fun st1 => repeat_loop k n' st1)
  end.
End Loops.

Fixpoint rmatch (i : bool) (r : regex) (st : mstate) (k : cont)
  : option mstate :=
  match r with
  | Empty => k st
  | Lit c =>
      match rest st with
      | x :: xs => if lit_matches i c x then k (advance st xs) else None
      | [] => None
      end
  | Class negated ranges =>
      match rest st with
      | x :: xs =>
          if class_matches i negated ranges x then k (advance st xs) else None
      | [] => None
      end
  | Seq r1 r2 => rmatch i r1 st (fun st1 => rmatch i r2 st1 k)
  | Alt r1 r2 =>
      match rmatch i r1 st k with
      | Some res => Some res
      | None => rmatch i r2 st k
      end
  | Star r1 => star_loop (rmatch i r1) k (length (rest st)) st
  | Repeat n r1 => repeat_loop (rmatch i r1) k n st
  | Group r1 =>
      rmatch i r1 st (fun st1 =>
        k (MState (pos st1) (rest st1)
                  (Some (firstn (pos st1 - pos st) (rest st)))))
  | Bos => if Nat.eqb (pos st) 0 then k st else None
  | Eos => match rest st with [] => k st | _ => None end
  end.

(** [RegExp.prototype.exec] from [lastIndex = 0]: the first start index,
    from the left, at which the pattern matches. *)
Fixpoint exec_from (i : bool) (r : regex) (p : nat) (s : list ascii)
  : option mstate :=
  match rmatch i r (MState p s None) Some with
  | Some res => Some res
  | None =>
      match s with
      | [] => None
      | _ :: s' => exec_from i r (S p) s'
      end
  end.

Definition exec (i : bool) (r : regex) (s : string) : option mstate :=
  exec_from i r 0 (list_ascii_of_string s).

(** [re.test(s)]. *)
Definition test (i : bool) (r : regex) (s : string) : bool :=
  match exec i r s with Some _ => true | None => false end.

(** [m[1]] of [m = s.match(re)], for a match [m]: the text of group 1,
    [undefined] (here [None]) when the group took no part. *)
Definition group1 (m : mstate) : option string :=
  option_map string_of_list_ascii (cap m).

(** *** What a match is

    The relation [matches i r st st'] says that [r] can take the matcher
    from [st] to [st'], without saying which of several ways the
    backtracking matcher takes first. *)

Inductive rounds (R : mstate -> mstate -> Prop) : mstate -> mstate -> Prop :=
  | rounds_nil st : rounds R st st
  | rounds_cons st st1 st2 :
      R st st1 -> pos st1 <> pos st -> rounds R st1 st2 -> rounds R st st2.

Fixpoint times (R : mstate -> mstate -> Prop) (n : nat) (st st2 : mstate)
  : Prop :=
  match n with
  | O => st2 = st
  | S n' => exists st1, R st st1 /\ times R n' st1 st2
  end.

Fixpoint matches (i : bool) (r : regex) (st st2 : mstate) : Prop :=
  match r with
  | Empty => st2 = st
  | Lit c =>
      exists x xs, rest st = x :: xs /\ lit_matches i c x = true
                   /\ st2 = advance st xs
  | Class negated ranges =>
      exists x xs, rest st = x :: xs
                   /\ class_matches i negated ranges x = true
                   /\ st2 = advance st xs
  | Seq r1 r2 => exists st1, matches i r1 st st1 /\ matches i r2 st1 st2
  | Alt r1 r2 => matches i r1 st st2 \/ matches i r2 st st2
  | Star r1 => rounds (matches i r1) st st2
  | Repeat n r1 => times (matches i r1) n st st2
  | Group r1 =>
      exists st1, matches i r1 st st1
                  /\ st2 = MState (pos st1) (rest st1)
                                  (Some (firstn (pos st1 - pos st) (rest st)))
  | Bos => pos st = 0 /\ st2 = st
  | Eos => rest st = [] /\ st2 = st
  end.

(** [st2] is reached from [st] by consuming the characters [u]. *)
Definition consumed (u : list ascii) (st st2 : mstate) : Prop :=
  rest st = u ++ rest st2 /\ pos st2 = pos st + length u.

End Regex.

(** ** Identifiers: [extractNotionId], [formatUuid] and their relatives *)

Module Ids.
Import JsString Regex.

(** Sequence of several patterns, and a word of literal characters. *)
Definition cat (rs : list regex) : regex := fold_right Seq Empty rs.

Definition word (w : string) : regex := cat (map Lit (list_ascii_of_string w)).

(** [[0-9a-f]] *)
Definition hex_ranges : list (ascii * ascii) := [("0", "9"); ("a", "f")]%char.

Definition hex : regex := Class false hex_ranges.

(** [[/?#]] and [[^/?#]] *)
Definition delim_ranges : list (ascii * ascii) :=
  [("/", "/"); ("?", "?"); ("#", "#")]%char.

(** [/^[0-9a-f]{8}-[0-9a-f]{4}-[0-9a-f]{4}-[0-9a-f]{4}-[0-9a-f]{12}$/i] *)
Definition uuidRegex : regex :=
  cat [Bos; Repeat 8 hex; Lit "-"; Repeat 4 hex; Lit "-"; Repeat 4 hex;
       Lit "-"; Repeat 4 hex; Lit "-"; Repeat 12 hex; Eos]%char.

(** [/^[0-9a-f]{32}$/i] *)
Definition compactUuidRegex : regex := cat [Bos; Repeat 32 hex; Eos].

(** [/\/[^/?#]*-([0-9a-f]{32})(?:[/?#]|$)/i] *)
Definition pathRegex : regex :=
  cat [Lit "/"; Star (Class true delim_ranges); Lit "-";
       Group (Repeat 32 hex); Alt (Class false delim_ranges) Eos]%char.

(** [/[?&](?:p|page_id|database_id)=([0-9a-f]{32})/i] *)
Definition queryRegex : regex :=
  cat [Class false [("?", "?"); ("&", "&")]%char;
       Alt (word "p") (Alt (word "page_id") (word "database_id"));
       Lit "="%char; Group (Repeat 32 hex)].

(** [/([0-9a-f]{32})/i] *)
Definition anyRegex : regex := Group (Repeat 32 hex).

(** [/#(?:block-)?([0-9a-f]{32})/i]; the optional group is the
    alternative "with it, else without it". *)
Definition blockRegex : regex :=
  cat [Lit "#"%char; Alt (word "block-") Empty; Group (Repeat 32 hex)].

Definition formatUuid (compactId : string) : string :=
  let clean := toLowerCase compactId in
  slice 0 8 clean ++ "-" ++ slice 8 12 clean ++ "-" ++ slice 12 16 clean
    ++ "-" ++ slice 16 20 clean ++ "-" ++ slice 20 32 clean.

(** [m && m[1]] for [m = s.match(re)]: the text of group 1 when there is a
    match and the group is a non-empty string. *)
Definition matched_group (i : bool) (r : regex) (s : string) : option string :=
  match exec i r s with
  | Some m =>
      match group1 m with
      | Some g => if truthy g then Some g else None
      | None => None
      end
  | None => None
  end.

(** The argument is a string by its type; [!urlOrId] then holds of the
    empty string only.  [None] is [null]. *)
Definition extractNotionId (urlOrId : string) : option string :=
  if negb (truthy urlOrId) then None
  else
    let trimmed := trim urlOrId in
    if test true uuidRegex trimmed then Some (toLowerCase trimmed)
    else if test true compactUuidRegex trimmed then Some (formatUuid trimmed)
    else
      match matched_group true pathRegex trimmed with
      | Some g => Some (formatUuid g)
      | None =>
          match matched_group true queryRegex trimmed with
          | Some g => Some (formatUuid g)
          | None =>
              match matched_group true anyRegex trimmed with
              | Some g => Some (formatUuid g)
              | None => None
              end
          end
      end.

Definition extractDatabaseId (databaseUrl : string) : option string :=
  extractNotionId databaseUrl.

Definition extractPageId (pageUrl : string) : option string :=
  extractNotionId pageUrl.

Definition extractBlockId (urlWithBlock : string) : option string :=
  if negb (truthy urlWithBlock) then None
  else
    match matched_group true blockRegex urlWithBlock with
    | Some g => Some (formatUuid g)
    | None => None
    end.

(** The canonical pattern of the specification: the hyphenated groups
    8-4-4-4-12 of lower-case hexadecimal digits, i.e. [uuidRegex] without
    the flag [i]. *)
Definition canonical (s : string) : bool := test false uuidRegex s.

(** Deleting the hyphens of a string. *)
Fixpoint strip_hyphens (s : string) : string :=
  match s with
  | EmptyString => EmptyString
  | String c s' =>
      if Ascii.eqb c "-" then strip_hyphens s' else String c (strip_hyphens s')
  end.

(** A hexadecimal digit, in either letter case. *)
Definition is_hex (c : ascii) : bool :=
  let n := code c in
  ((48 <=? n) && (n <=? 57) || (65 <=? n) && (n <=? 70)
   || (97 <=? n) && (n <=? 102))%N.

(** The characters that end a path segment: [/], [?] and [#]. *)
Definition is_delim (c : ascii) : bool :=
  let n := code c in ((n =? 47) || (n =? 63) || (n =? 35))%N.

Fixpoint all_chars (p : ascii -> bool) (s : string) : bool :=
  match s with
  | EmptyString => true
  | String c s' => p c && all_chars p s'
  end.

(** The characters of the five groups 8-4-4-4-12, hyphens between them,
    every other character satisfying [p]. *)
Definition uuid_list (p : ascii -> bool) (l : list ascii) : Prop :=
  exists a b c d e,
    l = (a ++ "-" :: b ++ "-" :: c ++ "-" :: d ++ "-" :: e)%list%char
    /\ length a = 8 /\ length b = 4 /\ length c = 4 /\ length d = 4
    /\ length e = 12
    /\ forallb p (a ++ b ++ c ++ d ++ e)%list = true.

(** Exactly 32 hexadecimal characters, in any letter case. *)
Definition hex32 (s : string) : Prop :=
  String.length s = 32 /\ all_chars is_hex s = true.

(** What follows a path segment: [/], [?] or [#], or nothing but white
    space up to the end of the input (the input is trimmed before it is
    searched). *)
Definition segment_ends (s : string) : Prop :=
  trimEnd s = ""
  \/ match s with
     | EmptyString => False
     | String c _ => is_delim c = true
     end.

(** [s] has, from index [n] on, a path segment [/<slug>-<id>] whose last
    32 characters are the hexadecimal [id]. *)
Definition path_id_at (s : string) (n : nat) (id : string) : Prop :=
  exists pre slug rest,
    s = pre ++ "/" ++ slug ++ "-" ++ id ++ rest
    /\ String.length pre = n
    /\ all_chars (fun c => negb (is_delim c)) slug = true
    /\ hex32 id
    /\ segment_ends rest.

(** [id] is the identifier of the first such segment of [s]. *)
Definition first_path_id (s : string) (id : string) : Prop :=
  exists n, path_id_at s n id
            /\ forall m id', m < n -> ~ path_id_at s m id'.

(** [s] has no such segment at all. *)
Definition no_path_id (s : string) : Prop :=
  forall n id, ~ path_id_at s n id.

(** [s] has a query parameter [p], [page_id] or [database_id] (in any
    letter case, as the flag [i] has it) whose value starts with the 32
    hexadecimal characters [id]; the parameter starts at index [n]. *)
Definition query_id_at (s : string) (n : nat) (id : string) : Prop :=
  exists pre sep name rest,
    s = pre ++ String sep (name ++ "=" ++ id ++ rest)
    /\ String.length pre = n
    /\ (sep = "?" \/ sep = "&")%char
    /\ (toLowerCase name = "p" \/ toLowerCase name = "page_id"
        \/ toLowerCase name = "database_id")
    /\ hex32 id.

(** [id] is the value of the first such parameter of [s]. *)
Definition first_query_id (s : string) (id : string) : Prop :=
  exists n, query_id_at s n id
            /\ forall m id', m < n -> ~ query_id_at s m id'.

(** A literal that the flag [i] lets match exactly the characters with
    its lower case. *)
Definition plain_lit (c : ascii) : bool :=
  Ascii.eqb (lower_char c) c && negb (code c =? 255)%N
  && negb (code c =? 181)%N.

End Ids.

(** ** Shapes of texts, for the lemmas on the patterns

    These predicates speak of lists of characters, the form in which the
    matcher sees a string. *)

Module IdShapes.
Import JsString Regex Ids.
Local Open Scope list_scope.

Abbreviation chars := list_ascii_of_string.
Abbreviation str := string_of_list_ascii.
Abbreviation hexc i := (class_matches i false hex_ranges).
Abbreviation nodelim := (fun c : ascii => negb (is_delim c)).

Ltac each_char c :=
  destruct c as [[ | ] [ | ] [ | ] [ | ] [ | ] [ | ] [ | ] [ | ]].

(** Every character. *)
Definition all_ascii : list ascii := map ascii_of_nat (seq 0 256).

(** The 32 characters [l], cut into the groups 8-4-4-4-12 with hyphens
    between them. *)
Definition grouped (l : list ascii) : list ascii :=
  (firstn 8 l ++ "-" :: firstn 4 (skipn 8 l) ++ "-" :: firstn 4 (skipn 12 l)
     ++ "-" :: firstn 4 (skipn 16 l) ++ "-" :: firstn 12 (skipn 20 l))%char.

(** The input is over, or goes on with [/], [?] or [#]. *)
Definition ends_here (r : list ascii) : Prop :=
  match r with [] => True | d :: _ => is_delim d = true end.

Definition hex32_list (u : list ascii) : Prop :=
  length u = 32 /\ forallb is_hex u = true.

(** The names that [queryRegex] accepts, in any letter case. *)
Definition query_name (name : list ascii) : Prop :=
  map lower_char name = chars "p" \/ map lower_char name = chars "page_id"
  \/ map lower_char name = chars "database_id".

End IdShapes.

(** ** JSON values and JavaScript objects *)

Module Json.

(** What the transport hands over after parsing JSON, and [undefined],
    the result of reading a field that is not there.  Numbers are
    payloads that the helpers pass on without looking into them. *)
#[warnings="-register-all"]
Inductive value : Type :=
  | VUndefined
  | VNull
  | VBool (b : bool)
  | VNum (n : Z)
  | VStr (s : string)
  | VArr (items : list value)
  | VObj (fields : gmap string value).

(** A JavaScript object with string keys. *)
Abbreviation obj := (gmap string value).

Definition truthy (v : value) : bool :=
  match v with
  | VUndefined | VNull => false
  | VBool b => b
  | VNum n => negb (n =? 0)%Z
  | VStr s => JsString.truthy s
  | VArr _ | VObj _ => true
  end.

(** [o.key] on an object: the field, or [undefined]. *)
Definition get (o : obj) (key : string) : value :=
  match o !! key with Some v => v | None => VUndefined end.

(** ["key" in o].  The keys asked for by the helpers ([type], [url],
    [created_by], the names of the property kinds) are not members of
    [Object.prototype], so the own fields decide. *)
Definition has (key : string) (o : obj) : bool :=
  match o !! key with Some _ => true | None => false end.

(** [v === "s"] for a string literal. *)
Definition is_str (v : value) (s : string) : bool :=
  match v with VStr s' => String.eqb s' s | _ => false end.

(** The number written by a string of decimal digits. *)
Fixpoint digits_value (acc : nat) (s : string) : option nat :=
  match s with
  | EmptyString => Some acc
  | String c s' =>
      let n := nat_of_ascii c in
      if (48 <=? n)%nat && (n <=? 57)%nat
      then digits_value (10 * acc + (n - 48)) s'
      else None
  end.

(** A key is an index when it is the canonical decimal form of a
    number: ["0"], or digits that do not start with ["0"]. *)
Definition array_index (key : string) : option nat :=
  match key with
  | EmptyString => None
  | String "0" EmptyString => Some 0%nat
  | String "0" _ => None
  | _ => digits_value 0 key
  end.

(** [v.key] and [v[key]] on a value that is not [null] or [undefined].
    Of an object it is the field.  An array has its elements under
    their indices and its [length]; a string has its characters and its
    [length]; numbers and booleans have no fields.  Inherited members
    (the methods of the prototypes) are functions, which have none of
    the fields that the helpers go on to read ([type], [name],
    [plain_text]): they are read as [undefined], which leads the
    helpers to the same result. *)
Definition member (v : value) (key : string) : value :=
  match v with
  | VObj o => get o key
  | VArr items =>
      if String.eqb key "length" then VNum (Z.of_nat (List.length items))
      else match array_index key with
           | Some i => nth i items VUndefined
           | None => VUndefined
           end
  | VStr s =>
      if String.eqb key "length" then VNum (Z.of_nat (String.length s))
      else match array_index key with
           | Some i =>
               match String.get i s with
               | Some c => VStr (String c EmptyString)
               | None => VUndefined
               end
           | None => VUndefined
           end
  | _ => VUndefined
  end.


Definition nullish (v : value) : bool :=
  match v with VUndefined | VNull => true | _ => false end.

End Json.

(** ** Fullness predicates: [isFullBlock] and its relatives

    An [ObjectResponse] is an object; its declared type gives it at least
    the fields [object] and [id]. *)

Module Shapes.
Import Json.

Definition isFullBlock (response : obj) : bool :=
  is_str (get response "object") "block" && has "type" response.

Definition isFullPage (response : obj) : bool :=
  is_str (get response "object") "page" && has "url" response.

Definition isFullDataSource (response : obj) : bool :=
  is_str (get response "object") "data_source".

Definition isFullDatabase (response : obj) : bool :=
  is_str (get response "object") "database".

Definition isFullPageOrDataSource (response : obj) : bool :=
  if is_str (get response "object") "data_source"
  then isFullDataSource response
  else isFullPage response.

Definition isFullUser (response : obj) : bool := has "type" response.

Definition isFullComment (response : obj) : bool := has "created_by" response.

End Shapes.

(** ** Rich text: [richTextToPlainText] and [richTextToMarkdown] *)

Module RichText.

Record Annotations : Type := {
  bold : bool;
  italic : bool;
  strikethrough : bool;
  underline : bool;
  code : bool;
  color : string
}.

Record Link : Type := { url : string }.

(** The field [text] of a span of type ["text"]; [link] is [null] or a
    link. *)
Record TextContent : Type := { content : string; link : option Link }.

(** [RichTextItemResponse].  The fields that the helpers guard
    ([plain_text || ""], [if (item.annotations)], [item.text?.link]) are
    options: [None] is an absent field. *)
Record RichTextItem : Type := {
  type : string;
  plain_text : option string;
  annotations : option Annotations;
  text : option TextContent;
  href : option string
}.

(** The argument [richText]: an array by its type, or [undefined] or
    [null]; [ArgOther t] is any other value, of truthiness [t], which
    the guard of the helpers also answers. *)
Inductive arg (A : Type) : Type :=
  | ArgUndefined
  | ArgNull
  | ArgOther (truthy : bool)
  | ArgArray (items : list A).
Arguments ArgUndefined {A}.
Arguments ArgNull {A}.
Arguments ArgOther {A} truthy.
Arguments ArgArray {A} items.

Definition arg_truthy {A} (a : arg A) : bool :=
  match a with
  | ArgUndefined | ArgNull => false
  | ArgOther t => t
  | ArgArray _ => true
  end.

Definition isArray {A} (a : arg A) : bool :=
  match a with ArgArray _ => true | _ => false end.

Definition elements {A} (a : arg A) : list A :=
  match a with ArgArray items => items | _ => [] end.

(** [s || ""] for a field that is a string or absent. *)
Definition or_empty (s : option string) : string :=
  match s with
  | Some s' => if JsString.truthy s' then s' else ""
  | None => ""
  end.

(** [strings.join("")] *)
Definition join (strings : list string) : string := String.concat "" strings.

Definition richTextToPlainText (richText : arg RichTextItem) : string :=
  if negb (arg_truthy richText) || negb (isArray richText) then ""
  else join (map (fun item => or_empty (plain_text item)) (elements richText)).

(** [item.text?.link]: the link of a span, when it has the field [text]
    and the link is not [null]. *)
Definition link_of (item : RichTextItem) : option Link :=
  match text item with Some t => link t | None => None end.

(** The function that [richTextToMarkdown] maps over the array. *)
Definition markdown_of_item (item : RichTextItem) : string :=
  let text := or_empty (plain_text item) in
  if String.eqb (type item) "equation" then "$" ++ text ++ "$"
  else if String.eqb (type item) "mention" then text
  else
    let text :=
      match annotations item with
      | Some a =>
          let text := if bold a then "**" ++ text ++ "**" else text in
          let text := if italic a then "*" ++ text ++ "*" else text in
          let text := if strikethrough a then "~~" ++ text ++ "~~" else text in
          let text := if underline a then "<u>" ++ text ++ "</u>" else text in
          let text := if code a then "`" ++ text ++ "`" else text in
          text
      | None => text
      end in
    let text :=
      match String.eqb (type item) "text", link_of item with
      | true, Some l => "[" ++ text ++ "](" ++ url l ++ ")"
      | _, _ => text
      end in
    text.

Definition richTextToMarkdown (richText : arg RichTextItem) : string :=
  if negb (arg_truthy richText) || negb (isArray richText) then ""
  else join (map markdown_of_item (elements richText)).

(** *** The rendering of one span, in the words of the specification

    Start from [plain_text]; wrap for bold, italic, strikethrough and
    underline, in this order, each when its flag is set; then wrap for
    code; then, for a span of type ["text"] with a link, wrap as a
    link. *)

Definition flag (f : Annotations -> bool) (item : RichTextItem) : bool :=
  match annotations item with Some a => f a | None => false end.

Definition wrap (on : bool) (before after : string) (s : string) : string :=
  if on then before ++ s ++ after else s.

Definition spec_annotated (item : RichTextItem) : string :=
  fold_left (fun s w => wrap (fst w) (fst (snd w)) (snd (snd w)) s)
    [(flag bold item, ("**", "**"));
     (flag italic item, ("*", "*"));
     (flag strikethrough item, ("~~", "~~"));
     (flag underline item, ("<u>", "</u>"))]
    (or_empty (plain_text item)).

Definition spec_coded (item : RichTextItem) : string :=
  wrap (flag code item) "`" "`" (spec_annotated item).

Definition spec_linked (item : RichTextItem) : string :=
  match link_of item with
  | Some l =>
      if String.eqb (type item) "text"
      then "[" ++ spec_coded item ++ "](" ++ url l ++ ")"
      else spec_coded item
  | None => spec_coded item
  end.

(** A span of type ["text"] without formatting: no flag is set and there
    is no link. *)
Definition plain_span (item : RichTextItem) : Prop :=
  type item = "text"
  /\ flag bold item = false /\ flag italic item = false
  /\ flag strikethrough item = false /\ flag underline item = false
  /\ flag code item = false
  /\ link_of item = None.

End RichText.

(** ** Page properties: [getPageProperty] *)

Module Pages.
Import Json Shapes RichText.

(** A call returns a value or throws a [TypeError]. *)
Inductive outcome : Type :=
  | Return (v : value)
  | Throw.

(** *** Reading a JSON value at its declared type

    [property.title] has the type [Array<RichTextItemResponse>]; the
    functions below read a value at that type.  A field whose value is
    not of its declared type is read as an absent field; [is_span]
    below says when an item has its text at the declared type, and the
    statements about [richTextToPlainText] on a payload are made for
    arrays of such items. *)


Definition as_string (v : value) : option string :=
  match v with VStr s => Some s | _ => None end.

Definition as_annotations (v : value) : option Annotations :=
  match v with
  | VObj o =>
      Some {| bold := truthy (get o "bold");
              italic := truthy (get o "italic");
              strikethrough := truthy (get o "strikethrough");
              underline := truthy (get o "underline");
              code := truthy (get o "code");
              color := default "" (as_string (get o "color")) |}
  | _ => None
  end.

Definition as_link (v : value) : option Link :=
  match v with
  | VObj o => Some {| url := default "" (as_string (get o "url")) |}
  | _ => None
  end.

Definition as_text (v : value) : option TextContent :=
  match v with
  | VObj o =>
      Some {| content := default "" (as_string (get o "content"));
              link := as_link (get o "link") |}
  | _ => None
  end.

Definition as_item (v : value) : RichTextItem :=
  {| type := default "" (as_string (member v "type"));
     plain_text := as_string (member v "plain_text");
     annotations := as_annotations (member v "annotations");
     text := as_text (member v "text");
     href := as_string (member v "href") |}.

Definition as_rich_text (v : value) : arg RichTextItem :=
  match v with
  | VUndefined => ArgUndefined
  | VNull => ArgNull
  | VArr items => ArgArray (map as_item items)
  | _ => ArgOther (truthy v)
  end.

(** *** The branches of the [switch] *)

(** ["tag" in property ? property.tag : null] *)
Definition raw (tag : string) (property : obj) : outcome :=
  if has tag property then Return (get property tag) else Return VNull.

(** An item of a rich text payload whose [plain_text] is a string, or
    is missing. *)
Definition is_span (item : value) : bool :=
  match item with
  | VObj o =>
      match get o "plain_text" with
      | VUndefined | VNull | VStr _ => true
      | _ => false
      end
  | _ => false
  end.

(** [item.plain_text || ""] of such an item. *)
Definition span_text (item : value) : string :=
  match member item "plain_text" with VStr s => s | _ => "" end.

(** [richTextToPlainText(v)] on a payload [v].  What is not an array
    gives [""]; in an array, [item.plain_text] is a [TypeError] when an
    item is [null] or [undefined]. *)
Definition plain_text_of (v : value) : outcome :=
  match v with
  | VArr items =>
      if existsb nullish items then Throw
      else Return (VStr (richTextToPlainText (as_rich_text v)))
  | _ => Return (VStr (richTextToPlainText (as_rich_text v)))
  end.

(** ["tag" in property ? richTextToPlainText(property.tag) : null] *)
Definition plain (tag : string) (property : obj) : outcome :=
  if has tag property then plain_text_of (get property tag)
  else Return VNull.


(** [v?.name] *)
Definition optional_name (v : value) : value :=
  if nullish v then VUndefined else member v "name".

(** ["tag" in property ? property.tag?.name : null] *)
Definition option_name (tag : string) (property : obj) : outcome :=
  if has tag property then Return (optional_name (get property tag))
  else Return VNull.

(** [v.map(item => item.name)]: a [TypeError] when [v] is not an array
    (it has no method [map]) or when an item is [null] or [undefined]. *)
Definition map_name (v : value) : outcome :=
  match v with
  | VArr items =>
      if existsb nullish items then Throw
      else Return (VArr (map (fun item => member item "name") items))
  | _ => Throw
  end.

(** ["multi_select" in property ? property.multi_select.map(...) : null] *)
Definition option_names (tag : string) (property : obj) : outcome :=
  if has tag property then map_name (get property tag) else Return VNull.

(** [switch (property.type) { ... }] for an object [property] whose
    field [type] is the string [tag]. *)
Definition dispatch (tag : string) (property : obj) : outcome :=
  if String.eqb tag "title" then plain "title" property
  else if String.eqb tag "rich_text" then plain "rich_text" property
  else if String.eqb tag "number" then raw "number" property
  else if String.eqb tag "select" then option_name "select" property
  else if String.eqb tag "multi_select" then option_names "multi_select" property
  else if String.eqb tag "date" then raw "date" property
  else if String.eqb tag "people" then raw "people" property
  else if String.eqb tag "files" then raw "files" property
  else if String.eqb tag "checkbox" then raw "checkbox" property
  else if String.eqb tag "url" then raw "url" property
  else if String.eqb tag "email" then raw "email" property
  else if String.eqb tag "phone_number" then raw "phone_number" property
  else if String.eqb tag "formula" then raw "formula" property
  else if String.eqb tag "relation" then raw "relation" property
  else if String.eqb tag "rollup" then raw "rollup" property
  else if String.eqb tag "created_time" then raw "created_time" property
  else if String.eqb tag "created_by" then raw "created_by" property
  else if String.eqb tag "last_edited_time" then raw "last_edited_time" property
  else if String.eqb tag "last_edited_by" then raw "last_edited_by" property
  else if String.eqb tag "status" then option_name "status" property
  else if String.eqb tag "unique_id" then raw "unique_id" property
  else if String.eqb tag "verification" then raw "verification" property
  else if String.eqb tag "button" then raw "button" property
  else Return VNull.

(** [page.properties] is a record by its type; of a value that is not an
    object, [member] reads [undefined].  A property that is not an object
    or whose [type] is not a string meets no [case] and takes the
    [default] branch. *)
Definition getPageProperty (page : obj) (propertyName : string) : outcome :=
  if negb (isFullPage page) || negb (truthy (get page "properties"))
  then Return VNull
  else
    let property := member (get page "properties") propertyName in
    if negb (truthy property) then Return VNull
    else
      match property with
      | VObj fields =>
          match get fields "type" with
          | VStr tag => dispatch tag fields
          | _ => Return VNull
          end
      | _ => Return VNull
      end.

(** The kinds whose payload is returned as it is. *)
Definition raw_kinds : list string :=
  ["number"; "date"; "people"; "files"; "checkbox"; "url"; "email";
   "phone_number"; "formula"; "relation"; "rollup"; "created_time";
   "created_by"; "last_edited_time"; "last_edited_by"; "unique_id";
   "verification"; "button"].

(** The kinds that the [switch] has a [case] for. *)
Definition known_kinds : list string :=
  ["title"; "rich_text"; "select"; "status"; "multi_select"] ++ raw_kinds.

End Pages.

(** ** Pagination: [iteratePaginatedAPI] and [collectPaginatedAPI] *)

Module Pagination.
Import Json.
Local Open Scope list_scope.

Record PaginatedList (Item : Type) : Type := {
  results : list Item;
  next_cursor : value;
  has_more : bool
}.
Arguments results {Item}.
Arguments next_cursor {Item}.
Arguments has_more {Item}.

(** What a call of [next()] on the iterator settles to. *)
Inductive iter_result (Item Err : Type) : Type :=
  | IterValue (x : Item)
  | IterDone
  | IterThrow (e : Err).
Arguments IterValue {Item Err} x.
Arguments IterDone {Item Err}.
Arguments IterThrow {Item Err} e.

(** One piece of work of the generator between two points at which it
    can be observed. *)
Inductive step (Item Err : Type) : Type :=
  | Internal
  | Yields (x : Item)
  | Returns
  | Throws (e : Err).
Arguments Internal {Item Err}.
Arguments Yields {Item Err} x.
Arguments Returns {Item Err}.
Arguments Throws {Item Err} e.

Section Generator.
Context {Item Err World : Type}.

(** [listFn] is any asynchronous function: called in a state of the
    world, it changes the world and is fulfilled with a page or
    rejected with an error. *)
Variable listFn :
  obj -> World -> (Err + PaginatedList Item) * World.

(** The frame of a suspended generator: its argument [firstPageArgs],
    and where it stands. *)
Inductive gen_state : Type :=
  | AtCall (firstPageArgs : obj) (nextCursor : value)
    (** at the top of the loop body, [nextCursor] being set *)
  | AtYield (firstPageArgs : obj) (response : PaginatedList Item)
            (pending : list Item)
    (** inside [yield* response.results], [pending] still to come *)
  | Finished.

(** [iteratePaginatedAPI(listFn, firstPageArgs)]: the generator, not
    yet resumed; [nextCursor] is [firstPageArgs.start_cursor]. *)
Definition iteratePaginatedAPI (firstPageArgs : obj) : gen_state :=
  AtCall firstPageArgs (get firstPageArgs "start_cursor").

Definition gen_step (g : gen_state) (w : World)
  : step Item Err * gen_state * World :=
  match g with
  | AtCall firstPageArgs nextCursor =>
      match listFn (<["start_cursor" := nextCursor]> firstPageArgs) w with
      | (inr response, w') =>
          (Internal, AtYield firstPageArgs response (results response), w')
      | (inl e, w') => (Throws e, Finished, w')
      end
  | AtYield firstPageArgs response (x :: pending) =>
      (Yields x, AtYield firstPageArgs response pending, w)
  | AtYield firstPageArgs response [] =>
      let nextCursor := next_cursor response in
      if truthy nextCursor
      then (Internal, AtCall firstPageArgs nextCursor, w)
      else (Returns, Finished, w)
  | Finished => (Returns, Finished, w)
  end.

(** [next()]: the generator runs until it yields, returns or throws.
    [None] when [fuel] steps do not get it there. *)
Fixpoint gen_next (fuel : nat) (g : gen_state) (w : World)
  : option (iter_result Item Err * gen_state * World) :=
  match fuel with
  | O => None
  | S fuel' =>
      match gen_step g w with
      | (Internal, g', w') => gen_next fuel' g' w'
      | (Yields x, g', w') => Some (IterValue x, g', w')
      | (Returns, g', w') => Some (IterDone, g', w')
      | (Throws e, g', w') => Some (IterThrow e, g', w')
      end
  end.

(** [for await (const item of g) results.push(item)], then
    [return results]; a rejection of [next()] rejects the whole. *)
Fixpoint collect_loop (fuel : nat) (g : gen_state) (w : World)
         (results : list Item) : option ((Err + list Item) * World) :=
  match fuel with
  | O => None
  | S fuel' =>
      match gen_next fuel g w with
      | Some (IterValue item, g', w') =>
          collect_loop fuel' g' w' (results ++ [item])
      | Some (IterDone, _, w') => Some (inr results, w')
      | Some (IterThrow e, _, w') => Some (inl e, w')
      | None => None
      end
  end.

Definition collectPaginatedAPI (fuel : nat) (firstPageArgs : obj)
           (w : World) : option ((Err + list Item) * World) :=
  collect_loop fuel (iteratePaginatedAPI firstPageArgs) w [].

(** A consumer of the lazy iterator that calls [next()] until the
    iterator is done or throws, and notes every result in order. *)
Fixpoint drain (fuel : nat) (g : gen_state) (w : World)
  : option (list (iter_result Item Err) * World) :=
  match fuel with
  | O => None
  | S fuel' =>
      match gen_next fuel g w with
      | Some (IterValue item, g', w') =>
          match drain fuel' g' w' with
          | Some (seen, w'') => Some (IterValue item :: seen, w'')
          | None => None
          end
      | Some (r, _, w') => Some ([r], w')
      | None => None
      end
  end.

(** The configuration after [n] steps. *)
Fixpoint run (n : nat) (g : gen_state) (w : World) : gen_state * World :=
  match n with
  | O => (g, w)
  | S n' => let '(_, g', w') := gen_step g w in run n' g' w'
  end.

(** The [firstPageArgs] that a frame holds. *)
Definition frame_args (g : gen_state) : option obj :=
  match g with
  | AtCall a _ | AtYield a _ _ => Some a
  | Finished => None
  end.
End Generator.

(** *** Test doubles *)

Section Doubles.
Context {Item Err World : Type}.

(** A call that was made: its argument and how it settled. *)
Definition call : Type := obj * (Err + PaginatedList Item).

(** [listFn] with a record of its calls, as a mock function keeps it. *)
Definition spy (listFn : obj -> World -> (Err + PaginatedList Item) * World)
  : obj -> World * list call -> (Err + PaginatedList Item) * (World * list call) :=
  fun args '(w, calls) =>
    let '(r, w') := listFn args w in (r, (w', calls ++ [(args, r)])).

(** A scripted [listFn]: every call takes the next response of the
    script; [after] is what it settles to when the script is used up. *)
Definition scripted (after : Err + PaginatedList Item)
  : obj -> list (Err + PaginatedList Item)
    -> (Err + PaginatedList Item) * list (Err + PaginatedList Item) :=
  fun _ script =>
    match script with
    | r :: script' => (r, script')
    | [] => (after, [])
    end.

(** The calls of a run are chained: each argument is [firstPageArgs]
    with [start_cursor] set to the cursor at hand, which is
    [next_cursor] of the response before. *)
Fixpoint chained (firstPageArgs : obj) (cursor : value) (calls : list call)
  : Prop :=
  match calls with
  | [] => True
  | (args, r) :: calls' =>
      args = <["start_cursor" := cursor]> firstPageArgs
      /\ match r with
         | inr response => chained firstPageArgs (next_cursor response) calls'
         | inl _ => calls' = []
         end
  end.
(** The calls are chained, all of them were fulfilled, and the cursor
    at hand after them is [cursor']. *)
Fixpoint open_chain (firstPageArgs : obj) (cursor : value)
         (calls : list call) (cursor' : value) : Prop :=
  match calls with
  | [] => cursor' = cursor
  | (args, r) :: calls' =>
      args = <["start_cursor" := cursor]> firstPageArgs
      /\ match r with
         | inr response =>
             open_chain firstPageArgs (next_cursor response) calls' cursor'
         | inl _ => False
         end
  end.

(** The calls that visit the pages [pages] in order, from [cursor]. *)
Fixpoint calls_of (firstPageArgs : obj) (cursor : value)
         (pages : list (PaginatedList Item)) : list call :=
  match pages with
  | [] => []
  | p :: pages' =>
      (<["start_cursor" := cursor]> firstPageArgs, inr p)
        :: calls_of firstPageArgs (next_cursor p) pages'
  end.

(** What holds of a frame of the generator after the calls [calls]:
    it still holds [firstPageArgs], and its cursor continues the chain
    of the calls. *)
Definition frame_ok (firstPageArgs : obj) (cursor : value)
           (g : gen_state (Item := Item)) (calls : list call) : Prop :=
  match g with
  | AtCall a nextCursor =>
      a = firstPageArgs /\ open_chain firstPageArgs cursor calls nextCursor
  | AtYield a response _ =>
      a = firstPageArgs
      /\ open_chain firstPageArgs cursor calls (next_cursor response)
  | Finished => chained firstPageArgs cursor calls
  end.

(** The cursor at hand after the pages [pages]. *)
Definition cursor_after (cursor : value) (pages : list (PaginatedList Item))
  : value :=
  fold_left (fun _ p => next_cursor p) pages cursor.
End Doubles.

(** A computation with fuel gives [r] whenever the fuel is enough. *)
Definition eventually {A} (f : nat -> option A) (r : A) : Prop :=
  exists n, forall fuel, n <= fuel -> f fuel = Some r.

End Pagination.

(** ** Data for the examples *)

Module Examples.
Import Json Pagination RichText.
Local Open Scope list_scope.

Definition id_a : string := "aaaaaaaaaaaaaaaaaaaaaaaaaaaaaaaa".
Definition id_b : string := "bbbbbbbbbbbbbbbbbbbbbbbbbbbbbbbb".

(** Three pages of numbers; the second has no cursor, though it says
    [has_more]. *)
Definition page_1 : PaginatedList nat :=
  {| results := [1; 2]; next_cursor := VStr "c1"; has_more := true |}.
Definition page_2 : PaginatedList nat :=
  {| results := [3]; next_cursor := VNull; has_more := true |}.
Definition page_3 : PaginatedList nat :=
  {| results := [4]; next_cursor := VNull; has_more := false |}.

Definition empty_page : PaginatedList nat :=
  {| results := []; next_cursor := VNull; has_more := false |}.

Definition list_args : obj :=
  <["block_id" := VStr "b1"]> (<["page_size" := VNum 2]> ∅).

Definition used_up : string + PaginatedList nat := inl "script used up".

(** Spans of rich text. *)
Definition no_format : Annotations :=
  {| bold := false; italic := false; strikethrough := false;
     underline := false; code := false; color := "default" |}.

Definition span (t : string) (a : Annotations) (l : option Link)
  : RichTextItem :=
  {| type := "text"; plain_text := Some t; annotations := Some a;
     text := Some {| content := t; link := l |}; href := option_map url l |}.

Definition bold_code_x : RichTextItem :=
  span "x" {| bold := true; italic := false; strikethrough := false;
              underline := false; code := true; color := "default" |} None.

Definition all_flags_link : RichTextItem :=
  span "x" {| bold := true; italic := true; strikethrough := true;
              underline := true; code := true; color := "default" |}
       (Some {| url := "https://example.com" |}).

Definition hello : RichTextItem := span "Hello " no_format None.

Definition no_plain_text : RichTextItem :=
  {| type := "text"; plain_text := None; annotations := Some no_format;
     text := Some {| content := ""; link := None |}; href := None |}.

(** A full page whose property [Status] is a [select] without a
    choice. *)
Definition select_null : obj :=
  <["id" := VStr "status"]>
    (<["type" := VStr "select"]> (<["select" := VNull]> ∅)).

Definition select_null_properties : obj := <["Status" := VObj select_null]> ∅.

Definition select_null_page : obj :=
  <["object" := VStr "page"]>
    (<["id" := VStr "page-id"]>
       (<["url" := VStr "https://notion.so/page-id"]>
          (<["properties" := VObj select_null_properties]> ∅))).

(** A full page with a property of each manner of extraction, and one of a
    kind that the helper does not know. *)
Definition title_payload : value :=
  VArr [VObj (<["type" := VStr "text"]>
                (<["plain_text" := VStr "Test Title"]> ∅))].

Definition name_property : obj :=
  <["type" := VStr "title"]> (<["title" := title_payload]> ∅).

Definition active : obj := <["name" := VStr "Active"]> ∅.

Definition status_property : obj :=
  <["type" := VStr "select"]> (<["select" := VObj active]> ∅).

Definition tags : list obj :=
  [<["name" := VStr "Tag1"]> ∅; <["name" := VStr "Tag2"]> ∅].

Definition tags_property : obj :=
  <["type" := VStr "multi_select"]>
    (<["multi_select" := VArr (map VObj tags)]> ∅).

Definition count_property : obj :=
  <["type" := VStr "number"]> (<["number" := VNum 42]> ∅).

Definition new_property : obj :=
  <["type" := VStr "unsupported_kind"]>
    (<["unsupported_kind" := VNum 1]> ∅).

Definition sample_properties : obj :=
  <["Name" := VObj name_property]>
    (<["Status" := VObj status_property]>
       (<["Tags" := VObj tags_property]>
          (<["Count" := VObj count_property]>
             (<["New" := VObj new_property]> ∅)))).

Definition sample_page : obj :=
  <["object" := VStr "page"]>
    (<["url" := VStr "https://notion.so/page-id"]>
       (<["properties" := VObj sample_properties]> ∅)).

(** A block, full. *)
Definition sample_block : obj :=
  <["object" := VStr "block"]>
    (<["id" := VStr "block-id"]> (<["type" := VStr "paragraph"]> ∅)).

End Examples.

(** * Further helpers

    The rest of [src/helpers.ts]: the validation of identifiers, the
    iterator over the templates of a data source, the predicates on rich
    text items, and the helpers that read the title, the text, the names
    and the values out of pages and blocks. *)

From Stdlib Require DecimalString.

(** ** Identifiers: [isValidNotionId], and shapes for [extractBlockId] *)

Module Validation.
Import JsString Regex Ids Json.

(** [isValidNotionId(id)] for a value of any type: the guard
    [!id || typeof id !== "string"] lets the non-empty strings through
    and nothing else. *)
Definition isValidNotionId (id : value) : bool :=
  match id with
  | VStr s =>
      if negb (JsString.truthy s) then false
      else
        let trimmed := trim s in
        if test true uuidRegex trimmed then true
        else test true compactUuidRegex trimmed
  | _ => false
  end.

(** The five groups 8-4-4-4-12 of hexadecimal digits, in any letter
    case, with hyphens between them. *)
Definition hyphenated (s : string) : Prop :=
  uuid_list is_hex (list_ascii_of_string s).

(** Somewhere in [s] there are 32 hexadecimal characters in a row. *)
Definition has_hex32 (s : string) : Prop :=
  exists pre h post, s = pre ++ h ++ post /\ hex32 h.

(** Every character of the string is white space. *)
Definition blank (s : string) : bool := all_chars is_white s.

(** [s] has, after the text [pre], a fragment [#<id>] or [#block-<id>]
    (in any letter case) whose [id] is 32 hexadecimal characters. *)
Definition block_fragment_after (s pre id : string) : Prop :=
  exists tag rest,
    s = pre ++ "#" ++ tag ++ id ++ rest
    /\ (tag = "" \/ toLowerCase tag = "block-")
    /\ hex32 id.

Definition no_hash (s : string) : bool :=
  all_chars (fun c => negb (Ascii.eqb c "#")) s.

(** The optional [block-] of the pattern, in any letter case, as the
    matcher sees it. *)
Definition block_tag (tag : list ascii) : Prop :=
  tag = nil \/ map lower_char tag = list_ascii_of_string "block-".


(** *** Letter case

    The matcher's state on the input in lower case, and two
    continuations that agree up to letter case. *)

Definition lower_state (st : mstate) : mstate :=
  MState (pos st) (map lower_char (rest st))
         (option_map (map lower_char) (cap st)).

Definition agree (k k' : cont) : Prop :=
  forall st, k' (lower_state st) = option_map lower_state (k st).

End Validation.


(** ** Predicates on rich text items *)

Module RichTextKinds.
Import RichText.

Definition isTextRichTextItemResponse (richText : RichTextItem) : bool :=
  String.eqb (type richText) "text".

Definition isEquationRichTextItemResponse (richText : RichTextItem) : bool :=
  String.eqb (type richText) "equation".

Definition isMentionRichTextItemResponse (richText : RichTextItem) : bool :=
  String.eqb (type richText) "mention".

(** The item with another [plain_text]. *)
Definition with_plain_text (item : RichTextItem) (t : option string)
  : RichTextItem :=
  {| type := type item; plain_text := t; annotations := annotations item;
     text := text item; href := href item |}.

(** A function on strings that puts its argument, as it is, between two
    fixed strings. *)
Definition framing (f : string -> string) : Prop :=
  exists before after, forall x, f x = before ++ x ++ after.


End RichTextKinds.

(** ** Templates of a data source: [iterateDataSourceTemplates] and
    [collectDataSourceTemplates] *)

Module Templates.
Import Json.
Local Open Scope list_scope.

Record ListDataSourceTemplatesResponse (Template : Type) : Type := {
  templates : list Template;
  next_cursor : value;
  has_more : bool
}.
Arguments templates {Template}.
Arguments next_cursor {Template}.
Arguments has_more {Template}.

Section Generator.
Context {Template Err World : Type}.

(** [client.dataSources.listTemplates], the one thing that the helpers
    use of the client. *)
Variable listTemplates :
  obj -> World -> (Err + ListDataSourceTemplatesResponse Template) * World.

(** The frame of the suspended generator. *)
Inductive templates_state : Type :=
  | Calling (args : obj) (nextCursor : value)
    (** at the top of the loop body *)
  | Yielding (args : obj)
             (response : ListDataSourceTemplatesResponse Template)
             (pending : list Template)
    (** inside [yield* response.templates] *)
  | Over.

(** [iterateDataSourceTemplates(client, args)], not yet resumed;
    [nextCursor] is [args.start_cursor]. *)
Definition iterateDataSourceTemplates (args : obj) : templates_state :=
  Calling args (get args "start_cursor").

Definition templates_step (g : templates_state) (w : World)
  : Pagination.step Template Err * templates_state * World :=
  match g with
  | Calling args nextCursor =>
      match listTemplates (<["start_cursor" := nextCursor]> args) w with
      | (inr response, w') =>
          (Pagination.Internal, Yielding args response (templates response),
           w')
      | (inl e, w') => (Pagination.Throws e, Over, w')
      end
  | Yielding args response (x :: pending) =>
      (Pagination.Yields x, Yielding args response pending, w)
  | Yielding args response [] =>
      let nextCursor := next_cursor response in
      if truthy nextCursor
      then (Pagination.Internal, Calling args nextCursor, w)
      else (Pagination.Returns, Over, w)
  | Over => (Pagination.Returns, Over, w)
  end.

(** [next()] *)
Fixpoint templates_next (fuel : nat) (g : templates_state) (w : World)
  : option (Pagination.iter_result Template Err * templates_state * World) :=
  match fuel with
  | O => None
  | S fuel' =>
      match templates_step g w with
      | (Pagination.Internal, g', w') => templates_next fuel' g' w'
      | (Pagination.Yields x, g', w') =>
          Some (Pagination.IterValue x, g', w')
      | (Pagination.Returns, g', w') => Some (Pagination.IterDone, g', w')
      | (Pagination.Throws e, g', w') =>
          Some (Pagination.IterThrow e, g', w')
      end
  end.

(** [for await (const template of g) results.push(template)], then
    [return results]. *)
Fixpoint collect_templates (fuel : nat) (g : templates_state) (w : World)
         (results : list Template) : option ((Err + list Template) * World) :=
  match fuel with
  | O => None
  | S fuel' =>
      match templates_next fuel g w with
      | Some (Pagination.IterValue template, g', w') =>
          collect_templates fuel' g' w' (results ++ [template])
      | Some (Pagination.IterDone, _, w') => Some (inr results, w')
      | Some (Pagination.IterThrow e, _, w') => Some (inl e, w')
      | None => None
      end
  end.

Definition collectDataSourceTemplates (fuel : nat) (args : obj) (w : World)
  : option ((Err + list Template) * World) :=
  collect_templates fuel (iterateDataSourceTemplates args) w [].

(** *** The same, seen as a paginated list

    A response with its [templates] in the place of [results], the
    endpoint as a [listFn], and a frame of this generator as a frame of
    [iteratePaginatedAPI]. *)

Definition as_list (response : ListDataSourceTemplatesResponse Template)
  : Pagination.PaginatedList Template :=
  {| Pagination.results := templates response;
     Pagination.next_cursor := next_cursor response;
     Pagination.has_more := has_more response |}.

Definition as_listFn
  : obj -> World -> (Err + Pagination.PaginatedList Template) * World :=
  fun args w =>
    match listTemplates args w with
    | (inr response, w') => (inr (as_list response), w')
    | (inl e, w') => (inl e, w')
    end.

Definition as_gen (g : templates_state)
  : Pagination.gen_state (Item := Template) :=
  match g with
  | Calling args nextCursor => Pagination.AtCall args nextCursor
  | Yielding args response pending =>
      Pagination.AtYield args (as_list response) pending
  | Over => Pagination.Finished
  end.

Definition as_result
           (r : option (Pagination.iter_result Template Err
                        * templates_state * World))
  : option (Pagination.iter_result Template Err
            * Pagination.gen_state (Item := Template) * World) :=
  match r with
  | Some (x, g, w) => Some (x, as_gen g, w)
  | None => None
  end.
End Generator.

End Templates.

(** ** Consumers of the paginated iterator *)

Module Consumers.
Import Json Pagination.
Local Open Scope list_scope.

Section Consumers.
Context {Item Err World : Type}.
Variable listFn : obj -> World -> (Err + PaginatedList Item) * World.

(** A consumer that calls [next()] [n] times, or until the iterator is
    done or throws, and then leaves the iterator suspended. *)
Fixpoint pull (n fuel : nat) (g : gen_state) (w : World)
  : option (list (iter_result Item Err) * gen_state * World) :=
  match n with
  | O => Some ([], g, w)
  | S n' =>
      match gen_next listFn fuel g w with
      | Some (IterValue item, g', w') =>
          match pull n' fuel g' w' with
          | Some (seen, g'', w'') => Some (IterValue item :: seen, g'', w'')
          | None => None
          end
      | Some (r, g', w') => Some ([r], g', w')
      | None => None
      end
  end.

(** [listFn] is always fulfilled, with a cursor to a next page. *)
Definition endless : Prop :=
  forall args w,
    exists response w',
      listFn args w = (inr response, w')
      /\ truthy (next_cursor response) = true.

(** A frame from which the loop goes on: it is about to call, or it
    yields the results of a response that has a cursor. *)
Definition live (g : gen_state (Item := Item)) : Prop :=
  match g with
  | AtCall _ _ => True
  | AtYield _ response _ => truthy (next_cursor response) = true
  | Finished => False
  end.
End Consumers.


End Consumers.

(** ** Pages and blocks: [getPageTitle], [getBlockPlainText],
    [getPagePropertyNames] and [getPagePropertiesAsObject] *)

Module PageHelpers.
Import Json Shapes RichText Pages.
Local Open Scope list_scope.

(** The key of the index [i]: its decimal numeral. *)
Definition index_key (i : nat) : string :=
  DecimalString.NilEmpty.string_of_uint (Nat.to_uint i).

(** An enumeration of the own keys of every object: each key once. *)
Definition enumerates (own_keys : obj -> list string) : Prop :=
  forall o,
    NoDup (own_keys o) /\ forall k, In k (own_keys o) <-> is_Some (o !! k).

(** A property of a page that [getPageTitle] takes for the title. *)
Definition is_title (property : value) : bool :=
  match property with
  | VObj o => is_str (get o "type") "title" && has "title" o
  | _ => false
  end.

Section Enumeration.

(** JavaScript enumerates the own keys of an object in an order (keys
    that are indices in ascending order, then the others in the order of
    their creation) that a finite map does not record.  The helpers
    that enumerate are embedded over the enumeration [own_keys]. *)
Variable own_keys : obj -> list string.

(** [Object.keys(v)]; [None] is the [TypeError] on [null] and
    [undefined].  An array and a string have their indices for keys,
    numbers and booleans have none. *)
Definition keys (v : value) : option (list string) :=
  match v with
  | VUndefined | VNull => None
  | VObj o => Some (own_keys o)
  | VArr items => Some (map index_key (seq 0 (length items)))
  | VStr s => Some (map index_key (seq 0 (String.length s)))
  | VBool _ | VNum _ => Some []
  end.

(** [Object.values(v)] *)
Definition values (v : value) : option (list value) :=
  match v with
  | VUndefined | VNull => None
  | VObj o => Some (map (get o) (own_keys o))
  | VArr items => Some items
  | VStr s =>
      Some (map (fun c => VStr (String c EmptyString))
                (list_ascii_of_string s))
  | VBool _ | VNum _ => Some []
  end.

(** The loop of [getPageTitle].  [property.type] is a [TypeError] on
    [null] and [undefined]; of a number, a boolean, a string and an
    array it is [undefined], so that [&&] does not go on to
    ["title" in property]. *)
Fixpoint first_title (properties : list value) : outcome :=
  match properties with
  | [] => Return (VStr "")
  | property :: properties' =>
      match property with
      | VUndefined | VNull => Throw
      | VObj o =>
          if is_str (get o "type") "title" && has "title" o
          then plain_text_of (get o "title")
          else first_title properties'
      | _ => first_title properties'
      end
  end.

Definition getPageTitle (page : obj) : outcome :=
  if negb (isFullPage page) then Return (VStr "")
  else
    match values (get page "properties") with
    | Some properties => first_title properties
    | None => Throw
    end.

Definition getPagePropertyNames (page : obj) : outcome :=
  if negb (isFullPage page) || negb (truthy (get page "properties"))
  then Return (VArr [])
  else
    match keys (get page "properties") with
    | Some names => Return (VArr (map VStr names))
    | None => Throw
    end.

(** [result[key] = v] on an object made by [{}]: the key [__proto__]
    is the accessor of [Object.prototype], and assigning to it makes no
    own key.  (The prototype of [result] is not modelled.) *)
Definition assign (result : obj) (key : string) (v : value) : obj :=
  if String.eqb key "__proto__" then result else <[key := v]> result.

(** The loop of [getPagePropertiesAsObject]. *)
Fixpoint assign_all (page : obj) (names : list string) (result : obj)
  : outcome :=
  match names with
  | [] => Return (VObj result)
  | propertyName :: names' =>
      match getPageProperty page propertyName with
      | Return v => assign_all page names' (assign result propertyName v)
      | Throw => Throw
      end
  end.

Definition getPagePropertiesAsObject (page : obj) : outcome :=
  if negb (isFullPage page) || negb (truthy (get page "properties"))
  then Return (VObj ∅)
  else
    match keys (get page "properties") with
    | Some names => assign_all page names ∅
    | None => Throw
    end.
End Enumeration.

(** *** [getBlockPlainText] *)

(** [payload.rich_text], a [TypeError] when the payload is [null] or
    [undefined], and [richTextToPlainText] of it. *)
Definition rich_text_of (payload : value) : outcome :=
  if nullish payload then Throw
  else plain_text_of (member payload "rich_text").

(** ["tag" in block ? richTextToPlainText(block.tag.rich_text) : ""] *)
Definition block_text (tag : string) (block : obj) : outcome :=
  if has tag block then rich_text_of (get block tag)
  else Return (VStr "").

(** [switch (type) { ... }] for the string [tag]. *)
Definition block_dispatch (tag : string) (block : obj) : outcome :=
  if String.eqb tag "paragraph" then block_text "paragraph" block
  else if String.eqb tag "heading_1" then block_text "heading_1" block
  else if String.eqb tag "heading_2" then block_text "heading_2" block
  else if String.eqb tag "heading_3" then block_text "heading_3" block
  else if String.eqb tag "bulleted_list_item"
       then block_text "bulleted_list_item" block
  else if String.eqb tag "numbered_list_item"
       then block_text "numbered_list_item" block
  else if String.eqb tag "toggle" then block_text "toggle" block
  else if String.eqb tag "to_do" then block_text "to_do" block
  else if String.eqb tag "quote" then block_text "quote" block
  else if String.eqb tag "callout" then block_text "callout" block
  else if String.eqb tag "code" then block_text "code" block
  else Return (VStr "").

(** A [type] that is not a string meets no [case]. *)
Definition getBlockPlainText (block : obj) : outcome :=
  if negb (isFullBlock block) then Return (VStr "")
  else
    match get block "type" with
    | VStr tag => block_dispatch tag block
    | _ => Return (VStr "")
    end.

(** The kinds of blocks that [getBlockPlainText] reads a text from. *)
Definition text_kinds : list string :=
  ["paragraph"; "heading_1"; "heading_2"; "heading_3";
   "bulleted_list_item"; "numbered_list_item"; "toggle"; "to_do"; "quote";
   "callout"; "code"].

(** A payload on which [richTextToPlainText] throws: an array with an
    item that is [null] or [undefined]. *)
Definition bad_rich_text (v : value) : bool :=
  match v with VArr items => existsb nullish items | _ => false end.

(** A payload on which [.map(item => item.name)] throws: what is not an
    array, and an array with an item that is [null] or [undefined]. *)
Definition bad_options (v : value) : bool :=
  match v with VArr items => existsb nullish items | _ => true end.

(** The properties on which [getPageProperty] throws, by their type
    tag. *)
Definition throwing (tag : string) (property : obj) : bool :=
  if String.eqb tag "title" || String.eqb tag "rich_text"
  then has tag property && bad_rich_text (get property tag)
  else if String.eqb tag "multi_select"
       then has tag property && bad_options (get property tag)
       else false.

(** A property that the loop of [getPageTitle] passes by. *)
Definition passed_by (property : value) : bool :=
  negb (nullish property) && negb (is_title property).


End PageHelpers.

(** ** Further data for the examples *)

Module MoreExamples.
Import Json Pagination RichText Examples PageHelpers.
Local Open Scope list_scope.

(** An enumeration of the keys of an object, in the order of the map. *)
Definition map_keys (o : obj) : list string := (map_to_list o).*1.

(** A [listFn] whose every page is empty and points to a next page. *)
Definition looping : obj -> unit -> (string + PaginatedList nat) * unit :=
  fun _ w =>
    (inr {| results := []; next_cursor := VStr "again"; has_more := true |},
     w).

(** A paragraph, and a paragraph whose payload is [null]. *)
Definition paragraph_payload : obj :=
  <["rich_text" := title_payload]> (<["color" := VStr "default"]> ∅).

Definition paragraph_block : obj :=
  <["object" := VStr "block"]>
    (<["type" := VStr "paragraph"]>
       (<["paragraph" := VObj paragraph_payload]> ∅)).

Definition null_paragraph_block : obj :=
  <["object" := VStr "block"]>
    (<["type" := VStr "paragraph"]> (<["paragraph" := VNull]> ∅)).

(** A full page without the field [properties]. *)
Definition bare_page : obj :=
  <["object" := VStr "page"]>
    (<["url" := VStr "https://notion.so/page-id"]> ∅).

(** What [getPagePropertiesAsObject] makes of [sample_page]. *)
Definition sample_values : obj :=
  <["Name" := VStr "Test Title"]>
    (<["Status" := VStr "Active"]>
       (<["Tags" := VArr [VStr "Tag1"; VStr "Tag2"]]>
          (<["Count" := VNum 42]> (<["New" := VNull]> ∅)))).

(** An endpoint of templates with one page, which says [has_more]. *)
Definition one_page
  : obj -> unit
    -> (string + Templates.ListDataSourceTemplatesResponse nat) * unit :=
  fun _ w =>
    (inr {| Templates.templates := [1; 2];
            Templates.next_cursor := VNull;
            Templates.has_more := true |}, w).

(** A page whose property [Tags] has lost its payload. *)
Definition broken_tags : obj :=
  <["type" := VStr "multi_select"]> (<["multi_select" := VNull]> ∅).

Definition broken_page : obj :=
  <["object" := VStr "page"]>
    (<["url" := VStr "https://notion.so/page-id"]>
       (<["properties" :=
            VObj (<["Name" := VObj name_property]>
                    (<["Tags" := VObj broken_tags]> ∅))]> ∅)).

End MoreExamples.
(** * Properties *)

(** ** The matcher and the relation [matches] *)

Module RegexFacts.
Import Regex.
Local Open Scope list_scope.

Lemma consumed_refl st : consumed [] st st.
Proof. split; simpl; [reflexivity | lia]. Qed.

Lemma consumed_trans u v st st1 st2 :
  consumed u st st1 -> consumed v st1 st2 -> consumed (u ++ v) st st2.
Proof.
  intros [H1 H2] [H3 H4]. split.
  - rewrite H1, H3. now rewrite <- List.app_assoc.
  - rewrite H4, H2, List.length_app. lia.
Qed.

Lemma consumed_advance st x xs :
  rest st = x :: xs -> consumed [x] st (advance st xs).
Proof. intros H. split; simpl; [exact H | lia]. Qed.

Lemma matches_consumed i r :
  forall st st2, matches i r st st2 -> exists u, consumed u st st2.
Proof.
  induction r as [ | c | ng rs | r1 IH1 r2 IH2 | r1 IH1 r2 IH2 | r1 IH1
                 | n r1 IH1 | r1 IH1 | | ]; simpl; intros st st2 H.
  - subst. eexists. apply consumed_refl.
  - destruct H as (x & xs & Hr & _ & ->). eexists.
    eapply consumed_advance; eassumption.
  - destruct H as (x & xs & Hr & _ & ->). eexists.
    eapply consumed_advance; eassumption.
  - destruct H as (st1 & H1 & H2).
    destruct (IH1 _ _ H1) as [u Hu]. destruct (IH2 _ _ H2) as [v Hv].
    exists (u ++ v). eapply consumed_trans; eauto.
  - destruct H as [H | H]; eauto.
  - induction H as [st | st st1 st2 H1 _ _ IH].
    + eexists. apply consumed_refl.
    + destruct (IH1 _ _ H1) as [u Hu]. destruct IH as [v Hv].
      exists (u ++ v). eapply consumed_trans; eauto.
  - revert st H. induction n as [ | n IHn]; simpl; intros st H.
    + subst. eexists. apply consumed_refl.
    + destruct H as (st1 & H1 & H2).
      destruct (IH1 _ _ H1) as [u Hu]. destruct (IHn _ H2) as [v Hv].
      exists (u ++ v). eapply consumed_trans; eauto.
  - destruct H as (st1 & H1 & ->).
    destruct (IH1 _ _ H1) as [u [Hu1 Hu2]].
    exists u. split; simpl; assumption.
  - destruct H as [_ ->]. eexists. apply consumed_refl.
  - destruct H as [_ ->]. eexists. apply consumed_refl.
Qed.

(** Soundness: a result of the matcher comes from a match of [r] followed
    by the continuation. *)
Lemma rmatch_sound i r :
  forall st k res,
    rmatch i r st k = Some res ->
    exists st1, matches i r st st1 /\ k st1 = Some res.
Proof.
  induction r as [ | c | ng rs | r1 IH1 r2 IH2 | r1 IH1 r2 IH2 | r1 IH1
                 | n r1 IH1 | r1 IH1 | | ]; simpl; intros st k res H.
  - eauto.
  - destruct (rest st) as [ | x xs] eqn:Hr; [discriminate | ].
    destruct (lit_matches i c x) eqn:Hc; [ | discriminate].
    eexists. split; [ | exact H]. eauto.
  - destruct (rest st) as [ | x xs] eqn:Hr; [discriminate | ].
    destruct (class_matches i ng rs x) eqn:Hc; [ | discriminate].
    eexists. split; [ | exact H]. eauto.
  - apply IH1 in H. destruct H as (st1 & H1 & H).
    apply IH2 in H. destruct H as (st2 & H2 & H). eauto.
  - destruct (rmatch i r1 st k) eqn:E1.
    + inversion H; subst. apply IH1 in E1. destruct E1 as (st1 & ? & ?). eauto.
    + apply IH2 in H. destruct H as (st1 & ? & ?). eauto.
  - generalize dependent (length (rest st)). intros fuel. revert st.
    induction fuel as [ | fuel IHf]; simpl; intros st H.
    + exists st. split; [constructor | exact H].
    + match type of H with
      | match ?b with _ => _ end = _ => destruct b eqn:E1
      end.
      * inversion H; subst. apply IH1 in E1. destruct E1 as (st1 & H1 & E1).
        destruct (Nat.eqb (pos st1) (pos st)) eqn:Hp; [discriminate | ].
        apply IHf in E1. destruct E1 as (st2 & H2 & E2).
        exists st2. split; [ | exact E2].
        eapply rounds_cons; eauto. now apply Nat.eqb_neq.
      * exists st. split; [constructor | exact H].
  - revert st H. induction n as [ | n IHn]; simpl; intros st H.
    + eauto.
    + apply IH1 in H. destruct H as (st1 & H1 & H).
      apply IHn in H. destruct H as (st2 & H2 & H). eauto.
  - apply IH1 in H. destruct H as (st1 & H1 & H). eauto.
  - destruct (Nat.eqb (pos st) 0) eqn:Hp; [ | discriminate].
    apply Nat.eqb_eq in Hp. eauto.
  - destruct (rest st) eqn:Hr; [ | discriminate]. eauto.
Qed.

(** Completeness: when [r] has a match after which the continuation
    succeeds, the matcher succeeds (maybe with another match that it
    tries earlier). *)
Lemma rmatch_complete i r :
  forall st st1 k,
    matches i r st st1 -> is_Some (k st1) -> is_Some (rmatch i r st k).
Proof.
  induction r as [ | c | ng rs | r1 IH1 r2 IH2 | r1 IH1 r2 IH2 | r1 IH1
                 | n r1 IH1 | r1 IH1 | | ]; simpl; intros st st1 k H Hk.
  - now subst.
  - destruct H as (x & xs & -> & -> & ->). exact Hk.
  - destruct H as (x & xs & -> & -> & ->). exact Hk.
  - destruct H as (st' & H1 & H2). eapply IH1; eauto.
  - destruct H as [H | H].
    + destruct (IH1 _ _ _ H Hk) as [res ->]. eauto.
    + destruct (rmatch i r1 st k); eauto.
  - assert (Hfuel : length (rest st) <= length (rest st)) by lia.
    revert Hfuel. generalize (length (rest st)) at 2 3 as fuel.
    induction H as [st | st st' st2 H1 Hp _ IH]; intros fuel Hfuel.
    + destruct fuel; simpl; [exact Hk | ].
      match goal with |- is_Some (match ?b with _ => _ end) => destruct b end;
        eauto.
    + destruct (matches_consumed _ _ _ _ H1) as [u [Hu1 Hu2]].
      destruct u as [ | a u]; [simpl in Hu2; lia | ].
      rewrite Hu1 in Hfuel. simpl in Hfuel.
      destruct fuel as [ | fuel]; [lia | ]. simpl.
      rewrite List.length_app in Hfuel.
      assert (Hs : is_Some (rmatch i r1 st (fun st1 =>
                      if Nat.eqb (pos st1) (pos st) then None
                      else star_loop (rmatch i r1) k fuel st1))).
      { eapply IH1; [exact H1 | ].
        apply Nat.eqb_neq in Hp. rewrite Hp. apply IH; [exact Hk | lia]. }
      destruct Hs as [res ->]. eauto.
  - revert st H. induction n as [ | n IHn]; simpl; intros st H.
    + now subst.
    + destruct H as (st' & H1 & H2). eapply IH1; eauto.
  - destruct H as (st' & H1 & ->). eapply IH1; eauto.
  - destruct H as [-> ->]. exact Hk.
  - destruct H as [-> ->]. exact Hk.
Qed.

End RegexFacts.

(** ** Characters, strings and lists of characters *)

Module CharFacts.
Import JsString Regex Ids IdShapes.
Local Open Scope list_scope.


Lemma hex_class_i x :
  class_matches true false hex_ranges x = is_hex x.
Proof. each_char x; vm_compute; reflexivity. Qed.

Lemma hex_class_lower x :
  is_hex x = true ->
  class_matches false false hex_ranges (lower_char x) = true.
Proof. each_char x; vm_compute; intros H; congruence. Qed.

Lemma hex_class_mono x :
  class_matches false false hex_ranges x = true ->
  is_hex x = true /\ lower_char x = x.
Proof. each_char x; vm_compute; intros H; split; congruence. Qed.

Lemma hex_lower x : is_hex x = true -> is_hex (lower_char x) = true.
Proof. each_char x; vm_compute; intros H; congruence. Qed.

Lemma hex_not_white x : is_hex x = true -> is_white x = false.
Proof. each_char x; vm_compute; intros H; congruence. Qed.

Lemma hex_not_delim x : is_hex x = true -> is_delim x = false.
Proof. each_char x; vm_compute; intros H; congruence. Qed.

Lemma hex_not_hyphen x : is_hex x = true -> Ascii.eqb x "-" = false.
Proof. each_char x; vm_compute; intros H; congruence. Qed.

Lemma delim_not_white x : is_delim x = true -> is_white x = false.
Proof. each_char x; vm_compute; intros H; congruence. Qed.

Lemma lower_lower x : lower_char (lower_char x) = lower_char x.
Proof. each_char x; vm_compute; reflexivity. Qed.

Lemma delim_class_i x :
  class_matches true false delim_ranges x = is_delim x.
Proof. each_char x; vm_compute; reflexivity. Qed.

Lemma nondelim_class_i x :
  class_matches true true delim_ranges x = negb (is_delim x).
Proof. each_char x; vm_compute; reflexivity. Qed.

Lemma sep_class_i x :
  class_matches true false [("?", "?"); ("&", "&")]%char x = true
  <-> (x = "?" \/ x = "&")%char.
Proof.
  each_char x; vm_compute; split; intros H;
    try discriminate; try (destruct H; discriminate); auto.
Qed.


Lemma forall_ascii (f : ascii -> bool) :
  forallb f all_ascii = true -> forall x, f x = true.
Proof.
  intros H x. rewrite forallb_forall in H. apply H.
  rewrite <- (ascii_nat_embedding x). apply in_map, in_seq.
  pose proof (nat_ascii_bounded x). lia.
Qed.

(** Under the flag [i] a literal matches the characters that have its
    lower case; this holds of every literal that is its own lower case
    and is not one of the two code units whose upper case leaves
    Latin-1. *)
Lemma lit_i c x :
  lower_char c = c -> code c <> 255%N -> code c <> 181%N ->
  lit_matches true c x = Ascii.eqb (lower_char x) c.
Proof.
  intros Hc H1 H2.
  pose (ok := fun c x : ascii =>
    negb (Ascii.eqb (lower_char c) c) || (code c =? 255)%N
    || (code c =? 181)%N
    || Bool.eqb (lit_matches true c x) (Ascii.eqb (lower_char x) c)).
  assert (H : ok c x = true).
  { revert x. revert c Hc H1 H2.
    assert (Hall : forall c, forallb (ok c) all_ascii = true).
    { apply (forall_ascii (fun c => forallb (ok c) all_ascii)).
      vm_compute. reflexivity. }
    intros c _ _ _. apply forall_ascii, Hall. }
  unfold ok in H. rewrite Hc, Ascii.eqb_refl in H. simpl in H.
  apply N.eqb_neq in H1, H2. rewrite H1, H2 in H. simpl in H.
  now apply Bool.eqb_prop.
Qed.

End CharFacts.

Module StringFacts.
Import JsString Regex Ids IdShapes CharFacts.


Lemma chars_app a b : chars (a ++ b) = (chars a ++ chars b)%list.
Proof. induction a as [ | c a IH]; simpl; [reflexivity | now rewrite IH]. Qed.

Lemma chars_length a : length (chars a) = String.length a.
Proof. induction a as [ | c a IH]; simpl; [reflexivity | now rewrite IH]. Qed.

Lemma chars_inj a b : chars a = chars b -> a = b.
Proof.
  intros H. rewrite <- (string_of_list_ascii_of_string a),
    <- (string_of_list_ascii_of_string b). now rewrite H.
Qed.

Lemma all_chars_forallb p s : all_chars p s = forallb p (chars s).
Proof. induction s as [ | c s IH]; simpl; [reflexivity | now rewrite IH]. Qed.

Lemma all_chars_app p a b :
  all_chars p (a ++ b) = all_chars p a && all_chars p b.
Proof.
  induction a as [ | c a IH]; simpl; [reflexivity | ].
  now rewrite IH, andb_assoc.
Qed.

Lemma all_chars_impl (p q : ascii -> bool) s :
  (forall c, p c = true -> q c = true) ->
  all_chars p s = true -> all_chars q s = true.
Proof.
  intros Hpq. induction s as [ | c s IH]; simpl; [reflexivity | ].
  rewrite !andb_true_iff. intros [H1 H2]. auto.
Qed.

Lemma string_app_assoc (a b c : string) : (a ++ b) ++ c = a ++ (b ++ c).
Proof. induction a as [ | x a IH]; simpl; [reflexivity | now rewrite IH]. Qed.

Lemma string_app_nil_r (a : string) : a ++ "" = a.
Proof. induction a as [ | x a IH]; simpl; [reflexivity | now rewrite IH]. Qed.

Lemma string_length_app (a b : string) :
  String.length (a ++ b) = String.length a + String.length b.
Proof. induction a as [ | x a IH]; simpl; [reflexivity | now rewrite IH]. Qed.

(** *** [trim] *)

Lemma trimStart_app pre c r :
  is_white c = false ->
  trimStart (pre ++ String c r) = trimStart pre ++ String c r.
Proof.
  intros Hc. induction pre as [ | a pre IH]; simpl.
  - now rewrite Hc.
  - destruct (is_white a); [exact IH | reflexivity].
Qed.

Lemma trimEnd_app u c r :
  is_white c = false ->
  trimEnd (u ++ String c r) = u ++ String c (trimEnd r).
Proof.
  intros Hc. induction u as [ | a u IH]; simpl.
  - rewrite Hc. now destruct (trimEnd r).
  - rewrite IH. now destruct u.
Qed.

Lemma trim_fixed s :
  all_chars (fun c => negb (is_white c)) s = true -> trim s = s.
Proof.
  unfold trim. intros H.
  assert (Hs : trimStart s = s).
  { destruct s as [ | c s]; [reflexivity | ]. simpl in *.
    apply andb_true_iff in H. destruct H as [H _].
    now destruct (is_white c). }
  rewrite Hs. clear Hs.
  induction s as [ | c s IH]; simpl in *; [reflexivity | ].
  apply andb_true_iff in H. destruct H as [Hc H].
  rewrite (IH H). destruct (is_white c); [discriminate | now destruct s].
Qed.

(** *** [toLowerCase] *)

Lemma toLowerCase_app a b :
  toLowerCase (a ++ b) = toLowerCase a ++ toLowerCase b.
Proof. induction a as [ | c a IH]; simpl; [reflexivity | now rewrite IH]. Qed.

Lemma toLowerCase_length a : String.length (toLowerCase a) = String.length a.
Proof. induction a as [ | c a IH]; simpl; [reflexivity | now rewrite IH]. Qed.

Lemma toLowerCase_idem a : toLowerCase (toLowerCase a) = toLowerCase a.
Proof.
  induction a as [ | c a IH]; simpl; [reflexivity | ].
  now rewrite IH, lower_lower.
Qed.

Lemma toLowerCase_chars a : chars (toLowerCase a) = map lower_char (chars a).
Proof. induction a as [ | c a IH]; simpl; [reflexivity | now rewrite IH]. Qed.

Lemma all_hex_lower a :
  all_chars is_hex a = true -> all_chars is_hex (toLowerCase a) = true.
Proof.
  induction a as [ | c a IH]; simpl; [reflexivity | ].
  rewrite !andb_true_iff. intros [H1 H2]. split; [now apply hex_lower | auto].
Qed.

Lemma hex32_lower a : hex32 a -> hex32 (toLowerCase a).
Proof.
  intros [H1 H2]. split; [now rewrite toLowerCase_length | ].
  now apply all_hex_lower.
Qed.

End StringFacts.

(** ** Searching a string for a pattern *)

Module ExecFacts.
Import Regex RegexFacts.
Local Open Scope list_scope.

Lemma exec_from_here i r p s res :
  rmatch i r (MState p s None) Some = Some res ->
  exec_from i r p s = Some res.
Proof. intros H. destruct s; simpl; now rewrite H. Qed.

(** The search skips a prefix at no index of which the pattern matches. *)
Lemma exec_from_skip i r pre :
  forall p s,
    (forall u1 u2, pre = u1 ++ u2 -> u2 <> [] ->
       rmatch i r (MState (p + length u1) (u2 ++ s) None) Some = None) ->
    exec_from i r p (pre ++ s) = exec_from i r (p + length pre) s.
Proof.
  induction pre as [ | a pre IH]; intros p s H.
  - simpl. now rewrite Nat.add_0_r.
  - simpl.
    pose proof (H [] (a :: pre) eq_refl ltac:(discriminate)) as H0.
    simpl in H0. rewrite Nat.add_0_r in H0. rewrite H0.
    rewrite IH.
    + f_equal. lia.
    + intros u1 u2 -> Hu2.
      specialize (H (a :: u1) u2 eq_refl Hu2). simpl in H.
      now replace (S p + length u1) with (p + S (length u1)) by lia.
Qed.

(** A successful search found its match at some index, and none before. *)
Lemma exec_from_inv i r :
  forall s p res,
    exec_from i r p s = Some res ->
    exists u s', s = u ++ s'
      /\ rmatch i r (MState (p + length u) s' None) Some = Some res.
Proof.
  induction s as [ | a s IH]; simpl; intros p res H.
  - exists [], []. split; [reflexivity | ]. simpl. rewrite Nat.add_0_r.
    destruct (rmatch i r (MState p [] None) Some); [exact H | discriminate].
  - destruct (rmatch i r (MState p (a :: s) None) Some) eqn:E.
    + exists [], (a :: s). split; [reflexivity | ]. simpl.
      rewrite Nat.add_0_r. congruence.
    + apply IH in H. destruct H as (u & s' & -> & H).
      exists (a :: u), s'. split; [reflexivity | ]. simpl.
      now replace (p + S (length u)) with (S p + length u) by lia.
Qed.

(** The search fails exactly when the pattern matches at no index. *)
Lemma exec_from_none i r :
  forall s p,
    exec_from i r p s = None ->
    forall u s', s = u ++ s' ->
      rmatch i r (MState (p + length u) s' None) Some = None.
Proof.
  induction s as [ | a s IH]; simpl; intros p H u s' Hs.
  - destruct u; [ | discriminate]. simpl in Hs. subst s'. simpl.
    rewrite Nat.add_0_r.
    destruct (rmatch i r (MState p [] None) Some); [discriminate | reflexivity].
  - destruct (rmatch i r (MState p (a :: s) None) Some) eqn:E;
      [discriminate | ].
    destruct u as [ | b u]; simpl in Hs.
    + subst s'. simpl. now rewrite Nat.add_0_r.
    + inversion Hs; subst. simpl.
      replace (p + S (length u)) with (S p + length u) by lia.
      now apply IH.
Qed.

(** A match of the pattern from a start state makes the matcher succeed
    there, with some match of the pattern. *)
Lemma rmatch_some i r st st1 :
  matches i r st st1 ->
  exists st2, rmatch i r st Some = Some st2 /\ matches i r st st2.
Proof.
  intros H.
  destruct (rmatch_complete i r st st1 Some H ltac:(eauto)) as [st2 E].
  exists st2. split; [exact E | ].
  apply rmatch_sound in E. destruct E as (st' & H' & E).
  now inversion E; subst.
Qed.

End ExecFacts.

(** ** The patterns of the identifier helpers *)

Module PatternFacts.
Import JsString Regex Ids IdShapes CharFacts StringFacts RegexFacts ExecFacts.
Local Open Scope list_scope.

Lemma forallb_ext {A} (p q : A -> bool) l :
  (forall x, p x = q x) -> forallb p l = forallb q l.
Proof.
  intros H. induction l as [ | x l IH]; simpl; [reflexivity | ].
  now rewrite H, IH.
Qed.

Lemma mstate_eta st : MState (pos st) (rest st) (cap st) = st.
Proof. now destruct st. Qed.

Section ClassRuns.
Variables (i ng : bool) (rs : list (ascii * ascii)).
Abbreviation ok := (class_matches i ng rs).

Lemma times_class_inv n :
  forall st st2,
    times (matches i (Class ng rs)) n st st2 ->
    exists u, length u = n /\ forallb ok u = true
              /\ rest st = u ++ rest st2
              /\ pos st2 = pos st + n /\ cap st2 = cap st.
Proof.
  induction n as [ | n IH]; simpl; intros st st2 H.
  - subst. exists []. repeat split; simpl; auto.
  - destruct H as (st1 & (x & xs & Hr & Hx & ->) & H).
    apply IH in H. destruct H as (u & Hl & Hu & Hr' & Hp & Hc).
    simpl in *. exists (x :: u).
    split; [simpl; lia | ].
    split; [simpl; unfold ok in *; now rewrite Hx | ].
    split; [now rewrite Hr, Hr' | ].
    split; [lia | exact Hc].
Qed.

Lemma times_class_intro u :
  forall st r,
    forallb ok u = true -> rest st = u ++ r ->
    times (matches i (Class ng rs)) (length u) st
          (MState (pos st + length u) r (cap st)).
Proof.
  induction u as [ | x u IH]; simpl; intros st r Hu Hr.
  - rewrite Nat.add_0_r, <- Hr. now rewrite mstate_eta.
  - apply andb_true_iff in Hu. destruct Hu as [Hx Hu].
    exists (advance st (u ++ r)). split.
    + exists x, (u ++ r). repeat split; auto.
    + replace (pos st + S (length u))
        with (pos (advance st (u ++ r)) + length u) by (simpl; lia).
      now apply (IH (advance st (u ++ r)) r).
Qed.

Lemma rounds_class_inv st st2 :
  rounds (matches i (Class ng rs)) st st2 ->
  exists u, forallb ok u = true /\ rest st = u ++ rest st2
            /\ pos st2 = pos st + length u /\ cap st2 = cap st.
Proof.
  induction 1 as [st | st st1 st2 (x & xs & Hr & Hx & ->) _ _ IH].
  - exists []. repeat split; simpl; auto.
  - destruct IH as (u & Hu & Hr' & Hp & Hc).
    simpl in *. exists (x :: u).
    split; [simpl; unfold ok in *; now rewrite Hx | ].
    split; [now rewrite Hr, Hr' | ].
    split; [simpl; lia | exact Hc].
Qed.

Lemma rounds_class_intro u :
  forall st r,
    forallb ok u = true -> rest st = u ++ r ->
    rounds (matches i (Class ng rs)) st
           (MState (pos st + length u) r (cap st)).
Proof.
  induction u as [ | x u IH]; simpl; intros st r Hu Hr.
  - rewrite Nat.add_0_r, <- Hr, mstate_eta. constructor.
  - apply andb_true_iff in Hu. destruct Hu as [Hx Hu].
    apply rounds_cons with (st1 := advance st (u ++ r)).
    + exists x, (u ++ r). repeat split; auto.
    + simpl. lia.
    + replace (pos st + S (length u))
        with (pos (advance st (u ++ r)) + length u) by (simpl; lia).
      now apply (IH (advance st (u ++ r)) r).
Qed.
End ClassRuns.

Lemma lit_inv i c st st2 :
  matches i (Lit c) st st2 ->
  exists x, lit_matches i c x = true /\ rest st = x :: rest st2
            /\ pos st2 = S (pos st) /\ cap st2 = cap st.
Proof. intros (x & xs & Hr & Hx & ->). exists x. simpl. auto. Qed.

Lemma lit_intro i c x st r :
  lit_matches i c x = true -> rest st = x :: r ->
  matches i (Lit c) st (MState (S (pos st)) r (cap st)).
Proof. intros Hx Hr. exists x, r. auto. Qed.

(** A hyphen matches a hyphen only, with or without the flag [i]. *)
Lemma lit_hyphen i x : lit_matches i "-" x = Ascii.eqb x "-".
Proof. destruct i; each_char x; vm_compute; reflexivity. Qed.

Lemma lit_slash x : lit_matches true "/" x = Ascii.eqb x "/".
Proof. each_char x; vm_compute; reflexivity. Qed.

Lemma lit_equals x : lit_matches true "=" x = Ascii.eqb x "=".
Proof. each_char x; vm_compute; reflexivity. Qed.

End PatternFacts.

Module UuidFacts.
Import JsString Regex Ids IdShapes CharFacts StringFacts RegexFacts ExecFacts.
Import PatternFacts.
Local Open Scope list_scope.


Lemma group_hex_inv i n st st2 :
  matches i (Group (Repeat n hex)) st st2 ->
  exists u, length u = n /\ forallb (hexc i) u = true
            /\ rest st = u ++ rest st2
            /\ pos st2 = pos st + n /\ cap st2 = Some u.
Proof.
  cbn [matches]. intros (st1 & H & ->).
  apply times_class_inv in H. destruct H as (u & Hl & Hu & Hr & Hp & _).
  exists u. cbn [pos rest cap]. repeat split; auto.
  rewrite Hp, Hr. replace (pos st + n - pos st) with (length u) by lia.
  now rewrite firstn_app, Nat.sub_diag, firstn_all, firstn_O, app_nil_r.
Qed.

Lemma group_hex_intro i u st r :
  forallb (hexc i) u = true -> rest st = u ++ r ->
  matches i (Group (Repeat (length u) hex)) st
          (MState (pos st + length u) r (Some u)).
Proof.
  intros Hu Hr. cbn [matches].
  exists (MState (pos st + length u) r (cap st)). split.
  - now apply times_class_intro.
  - cbn [pos rest]. rewrite Hr.
    replace (pos st + length u - pos st) with (length u) by lia.
    now rewrite firstn_app, Nat.sub_diag, firstn_all, firstn_O, app_nil_r.
Qed.

Lemma lit_hyphen_refl i : lit_matches i "-" "-" = true.
Proof. now destruct i. Qed.

Lemma eqb_hyphen i x : lit_matches i "-" x = true -> x = "-"%char.
Proof. rewrite lit_hyphen. apply Ascii.eqb_eq. Qed.

(** A match of [uuidRegex] starts at index 0 and reads the five groups. *)
Lemma uuid_matches_inv i st st2 :
  matches i uuidRegex st st2 ->
  pos st = 0 /\ uuid_list (hexc i) (rest st).
Proof.
  unfold uuidRegex, cat. cbn [fold_right matches].
  intros (s0 & [Hp ->] & s1 & Ha & s2 & H1 & s3 & Hb & s4 & H2 & s5 & Hc
          & s6 & H3 & s7 & Hd & s8 & H4 & s9 & He & s10 & [Hend ->] & ->).
  apply times_class_inv in Ha, Hb, Hc, Hd, He.
  destruct Ha as (a & La & Fa & Ra & _).
  destruct Hb as (b & Lb & Fb & Rb & _).
  destruct Hc as (c & Lc & Fc & Rc & _).
  destruct Hd as (d & Ld & Fd & Rd & _).
  destruct He as (e & Le & Fe & Re & _).
  apply lit_inv in H1, H2, H3, H4.
  destruct H1 as (x1 & E1 & R1 & _). destruct H2 as (x2 & E2 & R2 & _).
  destruct H3 as (x3 & E3 & R3 & _). destruct H4 as (x4 & E4 & R4 & _).
  apply eqb_hyphen in E1, E2, E3, E4. subst x1 x2 x3 x4.
  split; [exact Hp | ].
  exists a, b, c, d, e.
  rewrite Ra, R1, Rb, R2, Rc, R3, Rd, R4, Re, Hend, app_nil_r.
  repeat split; auto.
  rewrite !forallb_app, Fa, Fb, Fc, Fd, Fe. reflexivity.
Qed.

Lemma uuid_matches_intro i l :
  uuid_list (hexc i) l ->
  exists st2, matches i uuidRegex (MState 0 l None) st2.
Proof.
  intros (a & b & c & d & e & -> & La & Lb & Lc & Ld & Le & F).
  rewrite !forallb_app, !andb_true_iff in F.
  destruct F as (Fa & Fb & Fc & Fd & Fe).
  unfold uuidRegex, cat. cbn [fold_right matches].
  eexists. eexists. split; [split; reflexivity | ].
  eexists. split.
  { rewrite <- La. apply times_class_intro; [exact Fa | reflexivity]. }
  eexists. split.
  { eapply lit_intro; [apply lit_hyphen_refl | reflexivity]. }
  eexists. split.
  { rewrite <- Lb. apply times_class_intro; [exact Fb | reflexivity]. }
  eexists. split.
  { eapply lit_intro; [apply lit_hyphen_refl | reflexivity]. }
  eexists. split.
  { rewrite <- Lc. apply times_class_intro; [exact Fc | reflexivity]. }
  eexists. split.
  { eapply lit_intro; [apply lit_hyphen_refl | reflexivity]. }
  eexists. split.
  { rewrite <- Ld. apply times_class_intro; [exact Fd | reflexivity]. }
  eexists. split.
  { eapply lit_intro; [apply lit_hyphen_refl | reflexivity]. }
  eexists. split.
  { rewrite <- Le. apply times_class_intro; [exact Fe | ].
    cbn [rest]. symmetry. apply app_nil_r. }
  eexists. split; [split; reflexivity | reflexivity].
Qed.

Lemma test_uuid_iff i s :
  test i uuidRegex s = true <-> uuid_list (hexc i) (chars s).
Proof.
  unfold test, exec. split.
  - destruct (exec_from i uuidRegex 0 (chars s)) as [res | ] eqn:E;
      [intros _ | discriminate].
    apply exec_from_inv in E. destruct E as (u & s' & Hs & E).
    apply rmatch_sound in E. destruct E as (st1 & H & _).
    apply uuid_matches_inv in H. cbn [pos rest] in H.
    destruct H as [Hp H]. destruct u; [ | simpl in Hp; lia].
    now rewrite Hs.
  - intros H. apply uuid_matches_intro in H. destruct H as [st2 H].
    apply rmatch_some in H. destruct H as (st3 & E & _).
    now rewrite (exec_from_here _ _ _ _ _ E).
Qed.

Lemma test_compact_iff i s :
  test i compactUuidRegex s = true
  <-> length (chars s) = 32 /\ forallb (hexc i) (chars s) = true.
Proof.
  unfold test, exec, compactUuidRegex, cat. split.
  - destruct (exec_from i _ 0 (chars s)) as [res | ] eqn:E;
      [intros _ | discriminate].
    apply exec_from_inv in E. destruct E as (u & s' & Hs & E).
    apply rmatch_sound in E. destruct E as (st1 & H & _).
    cbn [fold_right matches] in H.
    destruct H as (s0 & [Hp ->] & s1 & Ha & s2 & [Hend ->] & ->).
    apply times_class_inv in Ha. destruct Ha as (a & La & Fa & Ra & _).
    cbn [pos rest] in *. destruct u; [ | simpl in Hp; lia].
    rewrite Hs. simpl. rewrite Ra, Hend, app_nil_r. auto.
  - intros [Hl F].
    assert (H : matches i (fold_right Seq Empty [Bos; Repeat 32 hex; Eos])
                  (MState 0 (chars s) None) (MState 32 [] None)).
    { cbn [fold_right matches].
      eexists. split; [split; reflexivity | ].
      eexists. split.
      { rewrite <- Hl. apply times_class_intro; [exact F | ].
        cbn [rest]. symmetry. apply app_nil_r. }
      eexists. split; [split; reflexivity | ].
      cbn [pos cap]. now rewrite Hl. }
    apply rmatch_some in H. destruct H as (st3 & E & _).
    now rewrite (exec_from_here _ _ _ _ _ E).
Qed.

End UuidFacts.

Module FormatFacts.
Import JsString Regex Ids IdShapes CharFacts StringFacts RegexFacts ExecFacts.
Import PatternFacts UuidFacts.



Lemma substring_chars s :
  forall n m, chars (substring n m s) = firstn m (skipn n (chars s)).
Proof.
  induction s as [ | c s IH]; intros [ | n] [ | m]; simpl;
    rewrite ?IH; auto.
Qed.

Lemma formatUuid_grouped h :
  chars (formatUuid h) = grouped (map lower_char (chars h)).
Proof.
  unfold formatUuid, slice, grouped.
  rewrite !chars_app, !substring_chars, toLowerCase_chars. reflexivity.
Qed.

Lemma forallb_firstn {A} (p : A -> bool) n l :
  forallb p l = true -> forallb p (firstn n l) = true.
Proof.
  revert n. induction l as [ | x l IH]; intros [ | n]; simpl; auto.
  rewrite !andb_true_iff. intros [? ?]. auto.
Qed.

Lemma forallb_skipn {A} (p : A -> bool) n l :
  forallb p l = true -> forallb p (skipn n l) = true.
Proof.
  revert n. induction l as [ | x l IH]; intros [ | n]; simpl; auto.
  rewrite !andb_true_iff. intros [? ?]. auto.
Qed.

Lemma uuid_list_grouped p l :
  length l = 32 -> forallb p l = true -> uuid_list p (grouped l).
Proof.
  intros Hl F.
  exists (firstn 8 l), (firstn 4 (skipn 8 l)), (firstn 4 (skipn 12 l)),
    (firstn 4 (skipn 16 l)), (firstn 12 (skipn 20 l)).
  split; [reflexivity | ].
  rewrite !List.length_firstn, !List.length_skipn, Hl.
  repeat (split; [reflexivity | ]).
  rewrite !forallb_app.
  rewrite !forallb_firstn; auto using forallb_skipn.
Qed.

Lemma formatUuid_chars h :
  hex32 h -> uuid_list (hexc false) (chars (formatUuid h)).
Proof.
  intros [Hl Hh]. rewrite formatUuid_grouped.
  apply uuid_list_grouped.
  - now rewrite List.length_map, chars_length.
  - rewrite all_chars_forallb in Hh. rewrite forallb_forall in *.
    intros x Hx. apply in_map_iff in Hx. destruct Hx as (y & <- & Hy).
    apply hex_class_lower. auto.
Qed.

Lemma strip_hyphens_chars s :
  chars (strip_hyphens s)
  = List.filter (fun c => negb (Ascii.eqb c "-")) (chars s).
Proof.
  induction s as [ | c s IH]; simpl; [reflexivity | ].
  destruct (Ascii.eqb c "-"); simpl; now rewrite IH.
Qed.

Lemma filter_all {A} (p : A -> bool) l :
  forallb p l = true -> List.filter p l = l.
Proof.
  induction l as [ | x l IH]; simpl; [reflexivity | ].
  rewrite andb_true_iff. intros [-> H]. now rewrite IH.
Qed.

Lemma ungrouped {A} (l : list A) :
  length l = 32 ->
  (firstn 8 l ++ firstn 4 (skipn 8 l) ++ firstn 4 (skipn 12 l)
     ++ firstn 4 (skipn 16 l) ++ firstn 12 (skipn 20 l))%list = l.
Proof.
  intros Hl.
  rewrite (firstn_all2 (n := 12) (skipn 20 l))
    by (rewrite List.length_skipn; lia).
  change 20 with (4 + 16) at 1. rewrite <- (skipn_skipn 4 16 l), firstn_skipn.
  change 16 with (4 + 12) at 1. rewrite <- (skipn_skipn 4 12 l), firstn_skipn.
  change 12 with (4 + 8) at 1. rewrite <- (skipn_skipn 4 8 l), firstn_skipn.
  apply firstn_skipn.
Qed.

Lemma strip_hyphens_formatUuid h :
  hex32 h -> strip_hyphens (formatUuid h) = toLowerCase h.
Proof.
  intros [Hl Hh]. apply chars_inj.
  rewrite strip_hyphens_chars, formatUuid_grouped, toLowerCase_chars.
  set (l := map lower_char (chars h)).
  assert (Hlen : length l = 32)
    by (unfold l; now rewrite List.length_map, chars_length).
  assert (F : forallb (fun c => negb (Ascii.eqb c "-")) l = true).
  { unfold l. rewrite all_chars_forallb in Hh. rewrite forallb_forall in *.
    intros x Hx. apply in_map_iff in Hx. destruct Hx as (y & <- & Hy).
    rewrite hex_not_hyphen; [reflexivity | apply hex_lower; auto]. }
  unfold grouped. repeat (rewrite List.filter_app; cbn [List.filter negb Ascii.eqb Bool.eqb]).
  rewrite !filter_all; auto using forallb_firstn, forallb_skipn.
  now apply ungrouped.
Qed.

End FormatFacts.

Module CaptureFacts.
Import JsString Regex Ids IdShapes CharFacts StringFacts RegexFacts ExecFacts.
Import PatternFacts UuidFacts FormatFacts.
Local Open Scope list_scope.


(** A match of [pathRegex] reads [/], a run without [/?#], a hyphen, the
    32 hexadecimal characters that it captures, and then sees the end of
    the segment. *)
Lemma path_matches_inv st st2 :
  matches true pathRegex st st2 ->
  exists seg u r,
    rest st = "/"%char :: seg ++ "-"%char :: u ++ r
    /\ forallb (fun c => negb (is_delim c)) seg = true
    /\ length u = 32 /\ forallb is_hex u = true
    /\ ends_here r /\ cap st2 = Some u.
Proof.
  unfold pathRegex, cat. cbn [fold_right matches].
  intros (s1 & H1 & s2 & Hseg & s3 & H2 & s4 & Hg & s5 & Hend & ->).
  apply lit_inv in H1. destruct H1 as (x1 & E1 & R1 & _).
  rewrite lit_slash in E1. apply Ascii.eqb_eq in E1. subst x1.
  apply rounds_class_inv in Hseg. destruct Hseg as (seg & Fs & Rs & _).
  apply lit_inv in H2. destruct H2 as (x2 & E2 & R2 & _).
  apply eqb_hyphen in E2. subst x2.
  apply group_hex_inv in Hg. destruct Hg as (u & Lu & Fu & Ru & _ & Cu).
  exists seg, u, (rest s4).
  split; [now rewrite R1, Rs, R2, Ru | ].
  split.
  { rewrite (forallb_ext _ (class_matches true true delim_ranges));
      [exact Fs | intros x; symmetry; apply nondelim_class_i]. }
  split; [exact Lu | ].
  split.
  { rewrite (forallb_ext _ (hexc true));
      [exact Fu | intros x; symmetry; apply hex_class_i]. }
  destruct Hend as [(x & xs & Hr & Hx & ->) | [Hr ->]].
  - rewrite Hr. simpl. rewrite delim_class_i in Hx. auto.
  - rewrite Hr. simpl. auto.
Qed.

Lemma path_matches_intro p seg u r c :
  forallb (fun c => negb (is_delim c)) seg = true ->
  length u = 32 -> forallb is_hex u = true -> ends_here r ->
  exists st2,
    matches true pathRegex
            (MState p ("/"%char :: seg ++ "-"%char :: u ++ r) c) st2.
Proof.
  intros Fs Lu Fu Hr.
  unfold pathRegex, cat. cbn [fold_right matches].
  assert (Hend : exists st2,
             matches true (Alt (Class false delim_ranges) Eos)
               (MState (S (S p + length seg) + length u) r (Some u)) st2
             /\ matches true Empty st2 st2).
  { destruct r as [ | d r'].
    - eexists. split; [right; split; reflexivity | reflexivity].
    - eexists. split; [ | reflexivity]. left.
      exists d, r'. rewrite delim_class_i. simpl in Hr. auto. }
  destruct Hend as (st2 & Hend & _).
  exists st2.
  eexists. split.
  { apply lit_intro with (x := "/"%char); reflexivity. }
  eexists. split.
  { apply rounds_class_intro with (u := seg); [ | reflexivity].
    rewrite (forallb_ext _ (fun c => negb (is_delim c)));
      [exact Fs | apply nondelim_class_i]. }
  eexists. split.
  { eapply lit_intro; [apply lit_hyphen_refl | reflexivity]. }
  eexists. split.
  { rewrite <- Lu. apply group_hex_intro; [ | reflexivity].
    rewrite (forallb_ext _ is_hex); [exact Fu | apply hex_class_i]. }
  eexists. split; [ | reflexivity].
  cbn [pos cap]. rewrite Lu in *. exact Hend.
Qed.


(** In each of the three searches of [extractNotionId], and in
    [compactUuidRegex], what is captured or accepted is 32 hexadecimal
    characters. *)

Lemma hexc_true_hex u : forallb (hexc true) u = forallb is_hex u.
Proof. apply forallb_ext, hex_class_i. Qed.

Lemma path_cap st st2 :
  matches true pathRegex st st2 ->
  exists u, cap st2 = Some u /\ hex32_list u.
Proof.
  intros H. apply path_matches_inv in H.
  destruct H as (seg & u & r & _ & _ & Lu & Fu & _ & Cu).
  exists u. repeat split; auto.
Qed.

Lemma query_cap st st2 :
  matches true queryRegex st st2 ->
  exists u, cap st2 = Some u /\ hex32_list u.
Proof.
  unfold queryRegex, cat. cbn [fold_right matches].
  intros (s1 & _ & s2 & _ & s3 & _ & s4 & Hg & ->).
  apply group_hex_inv in Hg. destruct Hg as (u & Lu & Fu & _ & _ & Cu).
  exists u. rewrite hexc_true_hex in Fu. repeat split; auto.
Qed.

Lemma any_cap st st2 :
  matches true anyRegex st st2 ->
  exists u, cap st2 = Some u /\ hex32_list u.
Proof.
  unfold anyRegex. intros Hg.
  apply group_hex_inv in Hg. destruct Hg as (u & Lu & Fu & _ & _ & Cu).
  exists u. rewrite hexc_true_hex in Fu. repeat split; auto.
Qed.

Lemma hex32_of_list u : hex32_list u -> hex32 (string_of_list_ascii u).
Proof.
  intros [Lu Fu]. split.
  - now rewrite <- chars_length, list_ascii_of_string_of_list_ascii.
  - now rewrite all_chars_forallb, list_ascii_of_string_of_list_ascii.
Qed.

(** What [matched_group] returns was captured by a match of the pattern
    at some index of the string. *)
Lemma matched_group_inv i r s g :
  matched_group i r s = Some g ->
  exists pre l st2 u,
    chars s = pre ++ l
    /\ matches i r (MState (length pre) l None) st2
    /\ cap st2 = Some u /\ g = string_of_list_ascii u.
Proof.
  unfold matched_group, exec, group1.
  destruct (exec_from i r 0 (chars s)) as [m | ] eqn:E; [ | discriminate].
  destruct (cap m) as [u | ] eqn:Cu; simpl; [ | discriminate].
  destruct (truthy (string_of_list_ascii u)); [ | discriminate].
  intros [= <-].
  apply exec_from_inv in E. destruct E as (pre & l & Hs & E).
  apply rmatch_sound in E. destruct E as (st2 & H & [= ->]).
  exists pre, l, m, u. auto.
Qed.

Lemma matched_group_hex32 r s g :
  (forall st st2, matches true r st st2 ->
                  exists u, cap st2 = Some u /\ hex32_list u) ->
  matched_group true r s = Some g -> hex32 g.
Proof.
  intros Hr H. apply matched_group_inv in H.
  destruct H as (pre & l & st2 & u & _ & H & Cu & ->).
  apply Hr in H. destruct H as (u' & Cu' & Hu).
  rewrite Cu in Cu'. inversion Cu'; subst. now apply hex32_of_list.
Qed.

Lemma compact_hex32 s : test true compactUuidRegex s = true -> hex32 s.
Proof.
  rewrite test_compact_iff, hexc_true_hex. intros [Hl F]. split.
  - now rewrite <- chars_length.
  - now rewrite all_chars_forallb.
Qed.

(** *** The canonical form is a fixed point *)

Lemma uuid_list_impl (p q : ascii -> bool) l :
  (forall x, p x = true -> q x = true) -> uuid_list p l -> uuid_list q l.
Proof.
  intros Hpq (a & b & c & d & e & -> & La & Lb & Lc & Ld & Le & F).
  exists a, b, c, d, e. repeat split; auto.
  rewrite forallb_forall in *. auto.
Qed.

Lemma uuid_list_forallb (p q : ascii -> bool) l :
  (forall x, p x = true -> q x = true) -> q "-"%char = true ->
  uuid_list p l -> forallb q l = true.
Proof.
  intros Hpq Hq (a & b & c & d & e & -> & _ & _ & _ & _ & _ & F).
  rewrite !forallb_app, !andb_true_iff in F.
  destruct F as (Fa & Fb & Fc & Fd & Fe).
  assert (Hall : forall u, forallb p u = true -> forallb q u = true).
  { intros u. rewrite !forallb_forall. auto. }
  repeat (rewrite forallb_app; cbn [forallb]; rewrite ?Hq).
  rewrite !Hall by assumption. reflexivity.
Qed.

Lemma uuid_list_lower l :
  uuid_list (hexc true) l -> uuid_list (hexc false) (map lower_char l).
Proof.
  intros (a & b & c & d & e & -> & La & Lb & Lc & Ld & Le & F).
  exists (map lower_char a), (map lower_char b), (map lower_char c),
    (map lower_char d), (map lower_char e).
  rewrite !List.length_map.
  split.
  { repeat (rewrite List.map_app; cbn [map]). reflexivity. }
  repeat (split; [assumption | ]).
  rewrite <- !List.map_app. rewrite forallb_forall in *.
  intros x Hx. apply in_map_iff in Hx. destruct Hx as (y & <- & Hy).
  apply hex_class_lower. rewrite <- hex_class_i. auto.
Qed.

Lemma toLowerCase_fixed s :
  all_chars (fun c => Ascii.eqb (lower_char c) c) s = true ->
  toLowerCase s = s.
Proof.
  induction s as [ | c s IH]; simpl; [reflexivity | ].
  rewrite andb_true_iff. intros [Hc H].
  apply Ascii.eqb_eq in Hc. now rewrite Hc, IH.
Qed.

Lemma extractNotionId_canonical y :
  uuid_list (hexc false) (chars y) -> extractNotionId y = Some y.
Proof.
  intros H. unfold extractNotionId.
  assert (Ht : truthy y = true).
  { destruct y; [ | reflexivity].
    destruct H as (a & b & c & d & e & Hy & _). simpl in Hy.
    now destruct a. }
  rewrite Ht. cbn [negb].
  assert (Htrim : trim y = y).
  { apply trim_fixed. rewrite all_chars_forallb.
    apply (uuid_list_forallb (hexc false)); [ | reflexivity | exact H].
    intros x Hx. apply hex_class_mono in Hx. destruct Hx as [Hx _].
    now rewrite hex_not_white. }
  rewrite Htrim.
  assert (Htest : test true uuidRegex y = true).
  { apply test_uuid_iff. revert H. apply uuid_list_impl.
    intros x Hx. apply hex_class_mono in Hx. destruct Hx as [Hx _].
    now rewrite hex_class_i. }
  rewrite Htest. f_equal.
  apply toLowerCase_fixed. rewrite all_chars_forallb.
  apply (uuid_list_forallb (hexc false)); [ | reflexivity | exact H].
  intros x Hx. apply hex_class_mono in Hx. destruct Hx as [_ Hx].
  rewrite Hx. apply Ascii.eqb_refl.
Qed.

(** Every identifier that [extractNotionId] returns has the canonical
    form. *)
Lemma extractNotionId_result x y :
  extractNotionId x = Some y -> uuid_list (hexc false) (chars y).
Proof.
  unfold extractNotionId.
  destruct (negb (truthy x)); [discriminate | ].
  destruct (test true uuidRegex (trim x)) eqn:E1.
  { intros [= <-]. rewrite toLowerCase_chars.
    now apply uuid_list_lower, test_uuid_iff. }
  destruct (test true compactUuidRegex (trim x)) eqn:E2.
  { intros [= <-]. now apply formatUuid_chars, compact_hex32. }
  destruct (matched_group true pathRegex (trim x)) as [g | ] eqn:E3.
  { intros [= <-]. apply formatUuid_chars.
    eapply matched_group_hex32; [apply path_cap | exact E3]. }
  destruct (matched_group true queryRegex (trim x)) as [g | ] eqn:E4.
  { intros [= <-]. apply formatUuid_chars.
    eapply matched_group_hex32; [apply query_cap | exact E4]. }
  destruct (matched_group true anyRegex (trim x)) as [g | ] eqn:E5.
  { intros [= <-]. apply formatUuid_chars.
    eapply matched_group_hex32; [apply any_cap | exact E5]. }
  discriminate.
Qed.

End CaptureFacts.

(** ** The first path segment with an identifier wins *)

Module PathFacts.
Import JsString Regex Ids IdShapes CharFacts StringFacts RegexFacts ExecFacts.
Import PatternFacts UuidFacts FormatFacts CaptureFacts.
Local Open Scope list_scope.


(** Two ways of cutting the same text into a segment and what follows
    the segment agree. *)
Lemma segment_unique :
  forall x x' r r',
    x ++ r = x' ++ r' ->
    forallb nodelim x = true -> forallb nodelim x' = true ->
    ends_here r -> ends_here r' -> x = x' /\ r = r'.
Proof.
  induction x as [ | a x IH]; intros [ | a' x'] r r' E Fx Fx' Hr Hr';
    simpl in *.
  - auto.
  - subst r. simpl in Hr. apply andb_true_iff in Fx'.
    destruct Fx' as [Fa _]. rewrite Hr in Fa. discriminate.
  - subst r'. simpl in Hr'. apply andb_true_iff in Fx.
    destruct Fx as [Fa _]. rewrite Hr' in Fa. discriminate.
  - inversion E; subst.
    apply andb_true_iff in Fx, Fx'. destruct Fx as [_ Fx], Fx' as [_ Fx'].
    destruct (IH x' r r' H1 Fx Fx' Hr Hr') as [-> ->]. auto.
Qed.

Lemma hex_nodelim u : forallb is_hex u = true -> forallb nodelim u = true.
Proof.
  rewrite !forallb_forall. intros H x Hx.
  now rewrite hex_not_delim by auto.
Qed.

Lemma segment_nodelim seg u :
  forallb nodelim seg = true -> forallb is_hex u = true ->
  forallb nodelim (seg ++ "-"%char :: u) = true.
Proof.
  intros Fs Fu. rewrite forallb_app. cbn [forallb].
  now rewrite Fs, hex_nodelim.
Qed.

(** At the index of a path segment with an identifier, the matcher
    succeeds and captures that identifier. *)
Lemma path_rmatch_here p seg u r :
  forallb nodelim seg = true -> hex32_list u -> ends_here r ->
  exists res,
    rmatch true pathRegex
           (MState p ("/"%char :: seg ++ "-"%char :: u ++ r) None) Some
    = Some res
    /\ cap res = Some u.
Proof.
  intros Fs [Lu Fu] Hr.
  destruct (path_matches_intro p seg u r None Fs Lu Fu Hr) as [st2 H].
  apply rmatch_some in H. destruct H as (res & E & H).
  exists res. split; [exact E | ].
  apply path_matches_inv in H. cbn [rest] in H.
  destruct H as (seg' & u' & r' & Hl & Fs' & Lu' & Fu' & Hr' & Cu).
  rewrite Cu. f_equal.
  injection Hl as Hl.
  replace (seg ++ "-"%char :: u ++ r) with ((seg ++ "-"%char :: u) ++ r)
    in Hl by (now rewrite <- List.app_assoc).
  replace (seg' ++ "-"%char :: u' ++ r') with ((seg' ++ "-"%char :: u') ++ r')
    in Hl by (now rewrite <- List.app_assoc).
  apply segment_unique in Hl; auto using segment_nodelim.
  destruct Hl as [Hl _].
  apply app_inj_2 in Hl; [ | simpl; lia].
  destruct Hl as [_ Hl]. now inversion Hl.
Qed.

(** A match that starts inside a prefix that is followed by [/] ends
    inside the prefix. *)
Lemma match_within_prefix u2 b seg u r :
  u2 <> [] ->
  u2 ++ "/"%char :: b = "/"%char :: seg ++ "-"%char :: u ++ r ->
  forallb nodelim seg = true -> forallb is_hex u = true ->
  exists r1, u2 = "/"%char :: seg ++ "-"%char :: u ++ r1
             /\ r = r1 ++ "/"%char :: b.
Proof.
  intros Hne E Fs Fu.
  destruct u2 as [ | a u2]; [congruence | ]. simpl in E.
  injection E as -> E.
  replace (seg ++ "-"%char :: u ++ r) with ((seg ++ "-"%char :: u) ++ r)
    in E by (now rewrite <- List.app_assoc).
  pose proof (segment_nodelim seg u Fs Fu) as Fx.
  set (x := seg ++ "-"%char :: u) in *.
  assert (Hx : exists r1, u2 = x ++ r1 /\ r = r1 ++ "/"%char :: b).
  { clearbody x. clear Fs Fu Hne. revert u2 E.
    induction x as [ | c x IH]; intros u2 E; simpl in *.
    - exists u2. auto.
    - apply andb_true_iff in Fx. destruct Fx as [Fc Fx].
      destruct u2 as [ | c' u2]; simpl in E.
      + injection E as <- _. discriminate.
      + injection E as -> E. destruct (IH Fx _ E) as (r1 & -> & ->).
        exists r1. auto. }
  destruct Hx as (r1 & -> & ->). exists r1. split; [ | reflexivity].
  unfold x. now rewrite <- List.app_assoc.
Qed.


Lemma str_chars s : str (chars s) = s.
Proof. apply string_of_list_ascii_of_string. Qed.

Lemma chars_str l : chars (str l) = l.
Proof. apply list_ascii_of_string_of_list_ascii. Qed.

Lemma ends_here_segment r : ends_here (chars r) -> segment_ends r.
Proof. destruct r; [now left | now right]. Qed.

(** The two readings of a path segment with an identifier, on strings
    and on lists of characters. *)
Lemma path_id_at_intro s m pre seg u r :
  chars s = pre ++ "/"%char :: seg ++ "-"%char :: u ++ r ->
  length pre = m -> forallb nodelim seg = true -> hex32_list u ->
  ends_here r -> path_id_at s m (str u).
Proof.
  intros Hs Hm Fs Hu Hr. exists (str pre), (str seg), (str r).
  split.
  { apply chars_inj. rewrite Hs. rewrite !chars_app, !chars_str.
    reflexivity. }
  split; [now rewrite <- chars_length, chars_str | ].
  split; [now rewrite all_chars_forallb, chars_str | ].
  split; [now apply hex32_of_list | ].
  apply ends_here_segment. now rewrite chars_str.
Qed.

Lemma hex32_chars a : hex32 a -> hex32_list (chars a).
Proof.
  intros [Hl Hh]. split; [now rewrite chars_length | ].
  now rewrite <- all_chars_forallb.
Qed.

Lemma trimStart_split pre : exists ws, pre = (ws ++ trimStart pre)%string.
Proof.
  induction pre as [ | c pre [ws IH]]; simpl.
  - now exists "".
  - destruct (is_white c).
    + exists (String c ws). simpl. now rewrite <- IH.
    + now exists "".
Qed.

Lemma trimEnd_nonwhite v r :
  all_chars (fun c => negb (is_white c)) v = true ->
  trimEnd (v ++ r)%string = (v ++ trimEnd r)%string.
Proof.
  induction v as [ | c v IH]; intros H; [reflexivity | ].
  cbn [all_chars] in H. apply andb_true_iff in H. destruct H as [Hc H].
  change (String c v ++ r)%string with ("" ++ String c (v ++ r))%string.
  rewrite trimEnd_app by (now destruct (is_white c)).
  now rewrite IH.
Qed.

Lemma segment_ends_trimEnd r :
  segment_ends r -> ends_here (chars (trimEnd r)).
Proof.
  intros [-> | Hd]; [exact I | ].
  destruct r as [ | d r]; [contradiction | ].
  change (String d r) with ("" ++ String d r)%string.
  rewrite trimEnd_app by (now apply delim_not_white). exact Hd.
Qed.

(** Trimming leaves a path segment with an identifier in place. *)
Lemma trim_path pre slug A rest :
  hex32 A ->
  trim (pre ++ "/" ++ slug ++ "-" ++ A ++ rest)%string
  = (trimStart pre ++ "/" ++ slug ++ "-" ++ A ++ trimEnd rest)%string.
Proof.
  intros [HL HA]. unfold trim.
  change ("/" ++ slug ++ "-" ++ A ++ rest)%string
    with (String "/" (slug ++ "-" ++ A ++ rest))%string.
  rewrite trimStart_app by reflexivity.
  replace (trimStart pre ++ String "/" (slug ++ "-" ++ A ++ rest))%string
    with ((trimStart pre ++ String "/" slug) ++ String "-" (A ++ rest))%string.
  2:{ rewrite string_app_assoc. reflexivity. }
  rewrite trimEnd_app by reflexivity.
  rewrite trimEnd_nonwhite.
  2:{ revert HA. apply all_chars_impl. intros c Hc.
      now rewrite hex_not_white. }
  rewrite string_app_assoc. reflexivity.
Qed.

(** A text with [/] in it is neither a hyphenated nor a compact
    identifier. *)
Lemma slash_not_uuid i a b :
  ~ uuid_list (hexc i) (a ++ "/"%char :: b).
Proof.
  intros H.
  apply (uuid_list_forallb _ (fun c => negb (Ascii.eqb c "/"))) in H;
    [ | | reflexivity].
  - rewrite forallb_app in H. simpl in H.
    rewrite andb_false_r in H. discriminate.
  - intros x. destruct i.
    + rewrite hex_class_i. intros Hx.
      apply hex_not_delim in Hx. revert Hx.
      each_char x; vm_compute; congruence.
    + intros Hx. apply hex_class_mono in Hx. destruct Hx as [Hx _].
      apply hex_not_delim in Hx. revert Hx.
      each_char x; vm_compute; congruence.
Qed.

Lemma slash_not_compact a b :
  forallb (hexc true) (a ++ "/"%char :: b) = false.
Proof.
  rewrite forallb_app. simpl. apply andb_false_r.
Qed.

(** The search for [pathRegex] in the trimmed input finds the first path
    segment with an identifier. *)
Lemma matched_group_first_path s A :
  first_path_id s A -> matched_group true pathRegex (trim s) = Some A.
Proof.
  intros (n & (pre & slug & rest & Hs & Hn & Fslug & HA & Hrest) & Hfirst).
  subst s. rewrite trim_path by exact HA.
  destruct (trimStart_split pre) as [ws Hws].
  set (pre' := trimStart pre) in *.
  set (rest' := trimEnd rest).
  assert (Hrest' : ends_here (chars rest'))
    by (apply segment_ends_trimEnd, Hrest).
  rewrite all_chars_forallb in Fslug.
  pose proof (hex32_chars A HA) as HA'.
  assert (Hc : chars (pre' ++ "/" ++ slug ++ "-" ++ A ++ rest')%string
               = chars pre' ++ "/"%char :: chars slug ++ "-"%char
                   :: chars A ++ chars rest').
  { rewrite !chars_app. reflexivity. }
  destruct (path_rmatch_here (length (chars pre')) (chars slug) (chars A)
              (chars rest') Fslug HA' Hrest') as (res & E & Cres).
  unfold matched_group, exec. rewrite Hc.
  rewrite exec_from_skip.
  - rewrite Nat.add_0_l, (exec_from_here _ _ _ _ _ E).
    unfold group1. rewrite Cres. simpl. rewrite str_chars.
    destruct HA as [HL _]. now destruct A.
  - intros u1 u2 Hu Hne.
    match goal with
    | |- ?m = None => destruct m as [res2 | ] eqn:E2; [exfalso | reflexivity]
    end.
    apply rmatch_sound in E2. destruct E2 as (st2 & H2 & _).
    apply path_matches_inv in H2. cbn [Regex.rest] in H2.
    destruct H2 as (seg2 & v & r2 & Hl & Fs2 & Lv & Fv & Hr2 & _).
    apply match_within_prefix in Hl; [ | assumption ..].
    destruct Hl as (r1 & Hu2 & Hr).
    apply (Hfirst (length (chars ws) + length u1) (str v)).
    + rewrite <- Hn, Hws, <- !chars_length, chars_app, Hu, Hu2.
      rewrite !List.length_app. simpl. lia.
    + apply path_id_at_intro
        with (pre := chars ws ++ u1) (seg := seg2)
             (r := r1 ++ "/"%char :: chars slug ++ "-"%char
                     :: chars A ++ chars rest).
      * rewrite Hws. rewrite !chars_app. fold pre'. rewrite Hu, Hu2.
        repeat (rewrite <- List.app_assoc || rewrite <- List.app_comm_cons).
        reflexivity.
      * now rewrite List.length_app.
      * exact Fs2.
      * split; assumption.
      * destruct r1 as [ | d r1]; [reflexivity | ].
        rewrite Hr in Hr2. exact Hr2.
Qed.

Lemma extractNotionId_first_path s A :
  first_path_id s A -> extractNotionId s = Some (formatUuid A).
Proof.
  intros H. pose proof (matched_group_first_path s A H) as Hm.
  destruct H as (n & (pre & slug & rest & Hs & Hn & Fslug & HA & Hrest) & _).
  unfold extractNotionId.
  assert (Ht : truthy s = true).
  { subst s. destruct pre; reflexivity. }
  rewrite Ht. cbn [negb].
  assert (Hc : exists a b, chars (trim s) = a ++ "/"%char :: b).
  { subst s. rewrite trim_path by exact HA.
    eexists _, _. rewrite chars_app. reflexivity. }
  destruct Hc as (a & b & Hc).
  destruct (test true uuidRegex (trim s)) eqn:E1.
  { apply test_uuid_iff in E1. rewrite Hc in E1.
    now apply slash_not_uuid in E1. }
  destruct (test true compactUuidRegex (trim s)) eqn:E2.
  { apply test_compact_iff in E2. rewrite Hc in E2.
    destruct E2 as [_ E2]. now rewrite slash_not_compact in E2. }
  now rewrite Hm.
Qed.

End PathFacts.

(** ** Query parameters *)

Module QueryFacts.
Import JsString Regex Ids IdShapes CharFacts StringFacts RegexFacts ExecFacts.
Import PatternFacts UuidFacts FormatFacts CaptureFacts PathFacts.
Local Open Scope list_scope.

Lemma plain_lit_matches c x :
  plain_lit c = true -> lit_matches true c x = Ascii.eqb (lower_char x) c.
Proof.
  unfold plain_lit. rewrite !andb_true_iff, !negb_true_iff.
  intros [[H1 H2] H3]. apply lit_i.
  - now apply Ascii.eqb_eq.
  - now apply N.eqb_neq.
  - now apply N.eqb_neq.
Qed.

(** A word of literals matches the texts that have it as lower case. *)
Lemma lits_inv l :
  forallb plain_lit l = true ->
  forall st st2,
    matches true (cat (map Lit l)) st st2 ->
    exists name, map lower_char name = l /\ rest st = name ++ rest st2
                 /\ pos st2 = pos st + length name /\ cap st2 = cap st.
Proof.
  unfold cat. induction l as [ | c l IH]; cbn [map fold_right matches forallb];
    intros F st st2 H.
  - subst. exists []. simpl. auto.
  - apply andb_true_iff in F. destruct F as [Fc F].
    destruct H as (st1 & (x & xs & Hr & Hx & ->) & H).
    apply (IH F) in H. destruct H as (name & Hn & Hr' & Hp & Hc).
    rewrite plain_lit_matches in Hx by exact Fc.
    apply Ascii.eqb_eq in Hx.
    exists (x :: name). simpl in *. subst xs.
    split; [now rewrite Hx, Hn | ].
    split; [exact Hr | ]. split; [lia | exact Hc].
Qed.

Lemma lits_intro name :
  forall st r,
    forallb plain_lit (map lower_char name) = true ->
    rest st = name ++ r ->
    matches true (cat (map Lit (map lower_char name))) st
            (MState (pos st + length name) r (cap st)).
Proof.
  unfold cat.
  induction name as [ | x name IH];
    cbn [map fold_right matches forallb length]; intros st r F Hr.
  - rewrite Nat.add_0_r. simpl in Hr. rewrite <- Hr. now rewrite mstate_eta.
  - apply andb_true_iff in F. destruct F as [Fc F].
    exists (advance st (name ++ r)). split.
    + exists x, (name ++ r). repeat split; auto.
      rewrite plain_lit_matches by exact Fc. apply Ascii.eqb_refl.
    + replace (pos st + S (length name))
        with (pos (advance st (name ++ r)) + length name) by (simpl; lia).
      now apply (IH (advance st (name ++ r)) r).
Qed.


Lemma query_name_no_equals name :
  query_name name -> forallb (fun c => negb (Ascii.eqb c "=")) name = true.
Proof.
  intros H.
  assert (F : forallb (fun c => negb (Ascii.eqb c "="))
                      (map lower_char name) = true)
    by (destruct H as [-> | [-> | ->]]; reflexivity).
  rewrite forallb_forall in *. intros x Hx.
  specialize (F (lower_char x) (in_map _ _ _ Hx)).
  revert F. each_char x; vm_compute; congruence.
Qed.

Lemma query_matches_inv st st2 :
  matches true queryRegex st st2 ->
  exists sep name u,
    rest st = sep :: name ++ "="%char :: u ++ rest st2
    /\ (sep = "?" \/ sep = "&")%char /\ query_name name
    /\ hex32_list u /\ cap st2 = Some u.
Proof.
  unfold queryRegex, cat at 1. cbn [fold_right matches].
  intros (s1 & (sep & xs & Hr & Hsep & ->) & s2 & Hname & s3 & Heq & s4
          & Hg & ->).
  apply sep_class_i in Hsep.
  apply lit_inv in Heq. destruct Heq as (x & Ex & Rx & _).
  rewrite lit_equals in Ex. apply Ascii.eqb_eq in Ex. subst x.
  apply group_hex_inv in Hg. destruct Hg as (u & Lu & Fu & Ru & _ & Cu).
  rewrite hexc_true_hex in Fu.
  assert (Hn : exists name, query_name name /\ xs = name ++ rest s2).
  { unfold word in Hname. cbn [rest] in *.
    destruct Hname as [H | [H | H]];
      apply lits_inv in H; try reflexivity;
      destruct H as (name & Hn & Hr' & _); exists name;
      (split; [unfold query_name; auto | exact Hr']). }
  destruct Hn as (name & Hn & ->).
  exists sep, name, u. rewrite Hr, Rx, Ru.
  repeat split; auto.
Qed.

Lemma query_matches_intro p sep name u r c :
  (sep = "?" \/ sep = "&")%char -> query_name name -> hex32_list u ->
  exists st2,
    matches true queryRegex
            (MState p (sep :: name ++ "="%char :: u ++ r) c) st2.
Proof.
  intros Hsep Hn [Lu Fu].
  unfold queryRegex, cat at 1. cbn [fold_right matches].
  eexists. eexists. split.
  { exists sep, (name ++ "="%char :: u ++ r).
    split; [reflexivity | ]. split; [now apply sep_class_i | reflexivity]. }
  eexists. split.
  { unfold word.
    destruct Hn as [Hn | [Hn | Hn]]; [left | right; left | right; right];
      rewrite <- Hn; apply lits_intro; try reflexivity;
      rewrite Hn; reflexivity. }
  eexists. split.
  { apply lit_intro with (x := "="%char); reflexivity. }
  eexists. split; [ | reflexivity].
  rewrite <- Lu. apply group_hex_intro; [ | reflexivity].
  now rewrite hexc_true_hex.
Qed.

Lemma split_at_equals :
  forall name name' x x',
    name ++ "="%char :: x = name' ++ "="%char :: x' ->
    forallb (fun c => negb (Ascii.eqb c "=")) name = true ->
    forallb (fun c => negb (Ascii.eqb c "=")) name' = true ->
    name = name' /\ x = x'.
Proof.
  induction name as [ | a name IH]; intros [ | a' name'] x x' E F F';
    simpl in *.
  - now inversion E.
  - inversion E; subst. discriminate.
  - inversion E; subst. discriminate.
  - inversion E; subst.
    apply andb_true_iff in F, F'. destruct F as [_ F], F' as [_ F'].
    destruct (IH _ _ _ H1 F F') as [-> ->]. auto.
Qed.

Lemma query_rmatch_here p sep name u r :
  (sep = "?" \/ sep = "&")%char -> query_name name -> hex32_list u ->
  exists res,
    rmatch true queryRegex
           (MState p (sep :: name ++ "="%char :: u ++ r) None) Some
    = Some res
    /\ cap res = Some u.
Proof.
  intros Hsep Hn Hu.
  destruct (query_matches_intro p sep name u r None Hsep Hn Hu) as [st2 H].
  apply rmatch_some in H. destruct H as (res & E & H).
  exists res. split; [exact E | ].
  apply query_matches_inv in H. cbn [rest] in H.
  destruct H as (sep' & name' & u' & Hl & _ & Hn' & [Lu' _] & Cu).
  rewrite Cu. f_equal.
  injection Hl as _ Hl.
  apply split_at_equals in Hl; auto using query_name_no_equals.
  destruct Hl as [_ Hl].
  apply app_inj_1 in Hl; [ | destruct Hu; lia].
  now destruct Hl.
Qed.

Lemma trimEnd_split t :
  exists ws, t = (trimEnd t ++ ws)%string /\ trimEnd ws = "".
Proof.
  induction t as [ | c t (ws & IH & Hws)]; simpl.
  - now exists "".
  - destruct (trimEnd t) as [ | d t'] eqn:Et.
    + simpl in IH. subst ws. destruct (is_white c) eqn:Hc.
      * exists (String c t). split; [reflexivity | ].
        simpl. now rewrite Hws, Hc.
      * exists t. auto.
    + exists ws. split; [ | exact Hws]. simpl in *. now f_equal.
Qed.

Lemma trim_split s :
  exists ws ws', s = (ws ++ trim s ++ ws')%string /\ trimEnd ws' = "".
Proof.
  destruct (trimStart_split s) as [ws Hs].
  destruct (trimEnd_split (trimStart s)) as (ws' & Ht & Hw).
  exists ws, ws'. split; [ | exact Hw]. unfold trim.
  now rewrite <- Ht.
Qed.

(** Trimming keeps what lies between two characters that are not white. *)
Lemma trim_mid pre c mid d v rest :
  is_white c = false -> is_white d = false ->
  all_chars (fun c => negb (is_white c)) v = true ->
  trim (pre ++ String c (mid ++ String d (v ++ rest)))%string
  = (trimStart pre ++ String c (mid ++ String d (v ++ trimEnd rest)))%string.
Proof.
  intros Hc Hd Hv. unfold trim.
  rewrite trimStart_app by exact Hc.
  replace (trimStart pre ++ String c (mid ++ String d (v ++ rest)))%string
    with ((trimStart pre ++ String c mid) ++ String d (v ++ rest))%string
    by (now rewrite string_app_assoc).
  rewrite trimEnd_app by exact Hd.
  rewrite trimEnd_nonwhite by exact Hv.
  now rewrite string_app_assoc.
Qed.

Lemma query_name_chars name :
  toLowerCase name = "p" \/ toLowerCase name = "page_id"
  \/ toLowerCase name = "database_id" ->
  query_name (chars name).
Proof.
  unfold query_name. rewrite <- !toLowerCase_chars.
  intros [-> | [-> | ->]]; auto.
Qed.

Lemma query_name_str name :
  query_name name ->
  toLowerCase (str name) = "p" \/ toLowerCase (str name) = "page_id"
  \/ toLowerCase (str name) = "database_id".
Proof.
  unfold query_name. intros H.
  assert (E : forall w, map lower_char name = chars w ->
                        toLowerCase (str name) = w).
  { intros w Hw. apply chars_inj.
    now rewrite toLowerCase_chars, chars_str. }
  destruct H as [H | [H | H]]; apply E in H; auto.
Qed.

Lemma query_id_at_intro s m pre sep name u r :
  chars s = pre ++ sep :: name ++ "="%char :: u ++ r ->
  length pre = m -> (sep = "?" \/ sep = "&")%char -> query_name name ->
  hex32_list u -> query_id_at s m (str u).
Proof.
  intros Hs Hm Hsep Hn Hu. exists (str pre), sep, (str name), (str r).
  split.
  { apply chars_inj. rewrite Hs. rewrite chars_app. simpl.
    rewrite chars_app. simpl. rewrite chars_app, !chars_str.
    reflexivity. }
  split; [now rewrite <- chars_length, chars_str | ].
  split; [exact Hsep | ].
  split; [now apply query_name_str | now apply hex32_of_list].
Qed.

Lemma sep_not_white sep :
  (sep = "?" \/ sep = "&")%char -> is_white sep = false.
Proof. now intros [-> | ->]. Qed.

(** The search for [queryRegex] in the trimmed input finds the first
    query parameter with an identifier. *)
Lemma matched_group_first_query s B :
  first_query_id s B -> matched_group true queryRegex (trim s) = Some B.
Proof.
  intros (n & (pre & sep & name & rest & Hs & Hn & Hsep & Hname & HB)
          & Hfirst).
  assert (Ht : trim s
               = (trimStart pre ++ String sep
                    (name ++ String "=" (B ++ trimEnd rest)))%string).
  { rewrite Hs.
    change ("=" ++ B ++ rest)%string with (String "=" (B ++ rest)).
    apply trim_mid; [now apply sep_not_white | reflexivity | ].
    destruct HB as [_ HB]. revert HB. apply all_chars_impl.
    intros c Hc. now rewrite hex_not_white. }
  destruct (trimStart_split pre) as [ws Hws].
  destruct (trimEnd_split rest) as (ws' & Hws' & _).
  set (pre' := trimStart pre) in *.
  set (rest' := trimEnd rest) in *.
  pose proof (hex32_chars B HB) as HB'.
  pose proof (query_name_chars name Hname) as Hname'.
  assert (Hc : chars (trim s)
               = chars pre' ++ sep :: chars name ++ "="%char
                   :: chars B ++ chars rest').
  { rewrite Ht, chars_app. simpl. rewrite chars_app. simpl.
    now rewrite chars_app. }
  assert (Hcs : chars s
                = chars ws ++ chars pre' ++ (sep :: chars name ++ "="%char
                    :: chars B ++ chars rest') ++ chars ws').
  { rewrite Hs, Hws, Hws'. rewrite !chars_app. simpl. rewrite chars_app.
    simpl. rewrite !chars_app.
    repeat (rewrite <- List.app_assoc || rewrite <- List.app_comm_cons).
    reflexivity. }
  destruct (query_rmatch_here (length (chars pre')) sep (chars name)
              (chars B) (chars rest') Hsep Hname' HB') as (res & E & Cres).
  unfold matched_group, exec. rewrite Hc.
  rewrite exec_from_skip.
  - rewrite Nat.add_0_l, (exec_from_here _ _ _ _ _ E).
    unfold group1. rewrite Cres. simpl. rewrite str_chars.
    destruct HB as [HL _]. now destruct B.
  - intros u1 u2 Hu Hne.
    match goal with
    | |- ?m = None => destruct m as [res2 | ] eqn:E2; [exfalso | reflexivity]
    end.
    apply rmatch_sound in E2. destruct E2 as (st2 & H2 & _).
    apply query_matches_inv in H2. cbn [Regex.rest] in H2.
    destruct H2 as (sep2 & name2 & v & Hl & Hsep2 & Hn2 & Hv & _).
    apply (Hfirst (length (chars ws) + length u1) (str v)).
    + rewrite <- Hn, Hws, <- !chars_length, chars_app. fold pre'.
      rewrite Hu, !List.length_app.
      destruct u2; [congruence | simpl; lia].
    + apply query_id_at_intro
        with (pre := chars ws ++ u1) (sep := sep2) (name := name2)
             (r := Regex.rest st2 ++ chars ws'); auto.
      * rewrite Hcs, Hu.
        rewrite <- (List.app_assoc u1 u2), (List.app_assoc u2), Hl.
        repeat (rewrite <- List.app_assoc || rewrite <- List.app_comm_cons).
        reflexivity.
      * now rewrite List.length_app.
Qed.

(** Without a path segment with an identifier the search for
    [pathRegex] fails. *)
Lemma matched_group_no_path s :
  no_path_id s -> matched_group true pathRegex (trim s) = None.
Proof.
  intros Hno.
  destruct (matched_group true pathRegex (trim s)) as [g | ] eqn:E;
    [exfalso | reflexivity].
  apply matched_group_inv in E.
  destruct E as (pre & l & st2 & u & Hc & H & _ & _).
  apply path_matches_inv in H. cbn [Regex.rest] in H.
  destruct H as (seg & v & r & Hl & Fs & Lv & Fv & Hr & _).
  destruct (trim_split s) as (ws & ws' & Hs & Hw).
  apply (Hno (length (chars ws ++ pre)) (str v)).
  exists (str (chars ws ++ pre)), (str seg), (str r ++ ws')%string.
  split.
  { apply chars_inj. rewrite Hs at 1.
    repeat first [ rewrite chars_app | rewrite chars_str
                 | progress cbn [list_ascii_of_string String.append] ].
    rewrite Hc, Hl.
    repeat (rewrite <- List.app_assoc || rewrite <- List.app_comm_cons).
    reflexivity. }
  split; [now rewrite <- chars_length, chars_str | ].
  split; [now rewrite all_chars_forallb, chars_str | ].
  split; [now apply hex32_of_list | ].
  destruct r as [ | d r]; [left; exact Hw | right; exact Hr].
Qed.

(** A text with a character that is neither hexadecimal nor a hyphen is
    neither a hyphenated nor a compact identifier. *)
Lemma char_not_uuid c a b :
  is_hex c = false -> Ascii.eqb c "-" = false ->
  ~ uuid_list (hexc true) (a ++ c :: b).
Proof.
  intros Hc Hh H.
  apply (uuid_list_forallb _ (fun x => is_hex x || Ascii.eqb x "-")) in H;
    [ | | reflexivity].
  - rewrite forallb_app in H. simpl in H. rewrite Hc, Hh in H.
    simpl in H. rewrite andb_false_r in H. discriminate.
  - intros x. rewrite hex_class_i. now intros ->.
Qed.

Lemma char_not_compact c a b :
  is_hex c = false -> forallb (hexc true) (a ++ c :: b) = false.
Proof.
  intros Hc. rewrite forallb_app. cbn [forallb].
  rewrite hex_class_i, Hc. simpl. apply andb_false_r.
Qed.

Lemma extractNotionId_first_query s B :
  no_path_id s -> first_query_id s B ->
  extractNotionId s = Some (formatUuid B).
Proof.
  intros Hno H.
  pose proof (matched_group_first_query s B H) as Hm.
  pose proof (matched_group_no_path s Hno) as Hp.
  destruct H as (n & (pre & sep & name & rest & Hs & Hn & Hsep & Hname & HB)
                 & _).
  unfold extractNotionId.
  assert (Ht : truthy s = true).
  { subst s. destruct pre; reflexivity. }
  rewrite Ht. cbn [negb].
  assert (Hc : exists a b, chars (trim s) = a ++ "="%char :: b).
  { rewrite Hs.
    change ("=" ++ B ++ rest)%string with (String "=" (B ++ rest)).
    rewrite trim_mid; [ | now apply sep_not_white | reflexivity | ].
    - exists (chars (trimStart pre) ++ sep :: chars name).
      eexists. rewrite chars_app. simpl. rewrite chars_app. simpl.
      rewrite <- List.app_assoc. reflexivity.
    - destruct HB as [_ HB]. revert HB. apply all_chars_impl.
      intros c Hc. now rewrite hex_not_white. }
  destruct Hc as (a & b & Hc).
  destruct (test true uuidRegex (trim s)) eqn:E1.
  { apply test_uuid_iff in E1. rewrite Hc in E1.
    now apply char_not_uuid in E1. }
  destruct (test true compactUuidRegex (trim s)) eqn:E2.
  { apply test_compact_iff in E2. rewrite Hc in E2.
    destruct E2 as [_ E2]. now rewrite char_not_compact in E2. }
  now rewrite Hp, Hm.
Qed.

(** When the search for [pathRegex] fails there is no path segment
    with an identifier. *)
Lemma no_path_id_intro s :
  matched_group true pathRegex (trim s) = None -> no_path_id s.
Proof.
  intros Hm n id (pre & slug & rest & Hs & Hn & Fslug & HA & Hrest).
  subst s. rewrite trim_path in Hm by exact HA.
  rewrite all_chars_forallb in Fslug.
  pose proof (hex32_chars id HA) as HA'.
  pose proof (segment_ends_trimEnd rest Hrest) as Hrest'.
  destruct (path_rmatch_here (length (chars (trimStart pre))) (chars slug)
              (chars id) (chars (trimEnd rest)) Fslug HA' Hrest')
    as (res & E & Cres).
  unfold matched_group, exec in Hm.
  destruct (exec_from true pathRegex 0 _) as [m | ] eqn:Ex.
  - apply exec_from_inv in Ex. destruct Ex as (u & l & _ & Ex).
    apply rmatch_sound in Ex. destruct Ex as (st2 & H2 & [= ->]).
    apply path_cap in H2. destruct H2 as (v & Cv & Lv & _).
    unfold group1 in Hm. rewrite Cv in Hm. simpl in Hm.
    destruct v; [discriminate | discriminate].
  - eapply exec_from_none with (u := chars (trimStart pre)) in Ex.
    + rewrite Nat.add_0_l in Ex. rewrite Ex in E. discriminate.
    + rewrite !chars_app. reflexivity.
Qed.

End QueryFacts.

(** ** The pagination generator *)

Module PaginationFacts.
Import Json Pagination.
Local Open Scope list_scope.

Section Generator.
Context {Item Err World : Type}.
Variable listFn : obj -> World -> (Err + PaginatedList Item) * World.

Abbreviation next := (gen_next listFn).
Abbreviation collect := (collect_loop listFn).

Lemma gen_next_S fuel g w :
  next (S fuel) g w
  = match gen_step listFn g w with
    | (Internal, g', w') => next fuel g' w'
    | (Yields x, g', w') => Some (IterValue x, g', w')
    | (Returns, g', w') => Some (IterDone, g', w')
    | (Throws e, g', w') => Some (IterThrow e, g', w')
    end.
Proof. reflexivity. Qed.

Lemma collect_S fuel g w acc :
  collect (S fuel) g w acc
  = match next (S fuel) g w with
    | Some (IterValue item, g', w') => collect fuel g' w' (acc ++ [item])
    | Some (IterDone, _, w') => Some (inr acc, w')
    | Some (IterThrow e, _, w') => Some (inl e, w')
    | None => None
    end.
Proof. reflexivity. Qed.

Lemma drain_S fuel g w :
  drain listFn (S fuel) g w
  = match next (S fuel) g w with
    | Some (IterValue item, g', w') =>
        match drain listFn fuel g' w' with
        | Some (seen, w'') => Some (IterValue item :: seen, w'')
        | None => None
        end
    | Some (r, _, w') => Some ([r], w')
    | None => None
    end.
Proof. reflexivity. Qed.

(** More fuel does not change a result. *)
Lemma gen_next_mono fuel :
  forall g w r, next fuel g w = Some r ->
                forall fuel', fuel <= fuel' -> next fuel' g w = Some r.
Proof.
  induction fuel as [ | fuel IH]; intros g w r H fuel' Hf;
    [discriminate | ].
  destruct fuel' as [ | fuel']; [lia | ]. simpl in *.
  destruct (gen_step listFn g w) as [[[ | x | | e] g'] w']; auto.
  apply IH with (fuel' := fuel') in H; [exact H | lia].
Qed.

Lemma collect_mono fuel :
  forall g w acc r, collect fuel g w acc = Some r ->
                    forall fuel', fuel <= fuel' ->
                                  collect fuel' g w acc = Some r.
Proof.
  induction fuel as [ | fuel IH]; intros g w acc r H fuel' Hf;
    [discriminate | ].
  destruct fuel' as [ | fuel']; [lia | ].
  rewrite collect_S in *.
  destruct (next (S fuel) g w) as [[[[x | | e] g'] w'] | ] eqn:E;
    [ | | | discriminate];
    rewrite (gen_next_mono _ _ _ _ E (S fuel')) by lia; auto.
  apply IH with (fuel' := fuel') in H; [exact H | lia].
Qed.

Lemma drain_mono fuel :
  forall g w r, drain listFn fuel g w = Some r ->
                forall fuel', fuel <= fuel' ->
                              drain listFn fuel' g w = Some r.
Proof.
  induction fuel as [ | fuel IH]; intros g w r H fuel' Hf;
    [discriminate | ].
  destruct fuel' as [ | fuel']; [lia | ].
  rewrite drain_S in *.
  destruct (next (S fuel) g w) as [[[[x | | e] g'] w'] | ] eqn:E;
    [ | | | discriminate];
    rewrite (gen_next_mono _ _ _ _ E (S fuel')) by lia; auto.
  destruct (drain listFn fuel g' w') as [[seen w''] | ] eqn:D;
    [ | discriminate].
  rewrite (IH _ _ _ D fuel') by lia. exact H.
Qed.

(** *** How one step of the generator shows in [collect_loop] *)

Lemma collect_internal g w g' w' acc r :
  gen_step listFn g w = (Internal, g', w') ->
  eventually (fun fuel => collect fuel g' w' acc) r ->
  eventually (fun fuel => collect fuel g w acc) r.
Proof.
  intros Hs [n Hn]. exists (S n). intros fuel Hf.
  destruct fuel as [ | fuel]; [lia | ].
  specialize (Hn fuel ltac:(lia)).
  destruct fuel as [ | fuel]; [discriminate | ].
  rewrite collect_S in Hn.
  rewrite collect_S, gen_next_S, Hs.
  destruct (next (S fuel) g' w') as [[[[x | | e] g''] w''] | ];
    [ | exact Hn | exact Hn | discriminate].
  apply collect_mono with (fuel := fuel); [exact Hn | lia].
Qed.

Lemma collect_yields g w g' w' x acc r :
  gen_step listFn g w = (Yields x, g', w') ->
  eventually (fun fuel => collect fuel g' w' (acc ++ [x])) r ->
  eventually (fun fuel => collect fuel g w acc) r.
Proof.
  intros Hs [n Hn]. exists (S n). intros fuel Hf.
  destruct fuel as [ | fuel]; [lia | ].
  rewrite collect_S, gen_next_S, Hs. apply Hn. lia.
Qed.

Lemma collect_returns g w g' w' acc :
  gen_step listFn g w = (Returns, g', w') ->
  eventually (fun fuel => collect fuel g w acc) (inr acc, w').
Proof.
  intros Hs. exists 1. intros fuel Hf.
  destruct fuel as [ | fuel]; [lia | ].
  now rewrite collect_S, gen_next_S, Hs.
Qed.

Lemma collect_throws g w g' w' e acc :
  gen_step listFn g w = (Throws e, g', w') ->
  eventually (fun fuel => collect fuel g w acc) (inl e, w').
Proof.
  intros Hs. exists 1. intros fuel Hf.
  destruct fuel as [ | fuel]; [lia | ].
  now rewrite collect_S, gen_next_S, Hs.
Qed.

(** *** ... and in [drain] *)

Lemma drain_internal g w g' w' r :
  gen_step listFn g w = (Internal, g', w') ->
  eventually (fun fuel => drain listFn fuel g' w') r ->
  eventually (fun fuel => drain listFn fuel g w) r.
Proof.
  intros Hs [n Hn]. exists (S n). intros fuel Hf.
  destruct fuel as [ | fuel]; [lia | ].
  specialize (Hn fuel ltac:(lia)).
  destruct fuel as [ | fuel]; [discriminate | ].
  rewrite drain_S in Hn.
  rewrite drain_S, gen_next_S, Hs.
  destruct (next (S fuel) g' w') as [[[[x | | e] g''] w''] | ];
    [ | exact Hn | exact Hn | discriminate].
  destruct (drain listFn fuel g'' w'') as [[seen w3] | ] eqn:D;
    [ | discriminate].
  now rewrite (drain_mono _ _ _ _ D (S fuel)) by lia.
Qed.

Lemma drain_yields g w g' w' x seen w'' :
  gen_step listFn g w = (Yields x, g', w') ->
  eventually (fun fuel => drain listFn fuel g' w') (seen, w'') ->
  eventually (fun fuel => drain listFn fuel g w) (IterValue x :: seen, w'').
Proof.
  intros Hs [n Hn]. exists (S n). intros fuel Hf.
  destruct fuel as [ | fuel]; [lia | ].
  rewrite drain_S, gen_next_S, Hs. now rewrite Hn by lia.
Qed.

Lemma drain_throws g w g' w' e :
  gen_step listFn g w = (Throws e, g', w') ->
  eventually (fun fuel => drain listFn fuel g w) ([IterThrow e], w').
Proof.
  intros Hs. exists 1. intros fuel Hf.
  destruct fuel as [ | fuel]; [lia | ].
  now rewrite drain_S, gen_next_S, Hs.
Qed.

(** Delivering the items of a page, one [next()] each. *)
Lemma collect_pending a resp pending :
  forall w acc r,
    eventually (fun fuel => collect fuel (AtYield a resp []) w
                                    (acc ++ pending)) r ->
    eventually (fun fuel => collect fuel (AtYield a resp pending) w acc) r.
Proof.
  induction pending as [ | x pending IH]; intros w acc r H.
  - now rewrite app_nil_r in H.
  - eapply collect_yields; [reflexivity | ].
    apply IH. now rewrite <- List.app_assoc.
Qed.

Lemma drain_pending a resp pending :
  forall w seen w',
    eventually (fun fuel => drain listFn fuel (AtYield a resp []) w)
               (seen, w') ->
    eventually (fun fuel => drain listFn fuel (AtYield a resp pending) w)
               (map IterValue pending ++ seen, w').
Proof.
  induction pending as [ | x pending IH]; intros w seen w' H.
  - exact H.
  - simpl. eapply drain_yields; [reflexivity | ]. now apply IH.
Qed.
End Generator.

(** *** A scripted [listFn] under a spy *)

Section Scripted.
Context {Item Err : Type}.
Variable after : Err + PaginatedList Item.

Abbreviation mock := (spy (scripted after)).
Abbreviation has_next :=
  (fun p : PaginatedList Item => truthy (next_cursor p) = true).

Lemma collect_scripted pages :
  forall last rest args cursor calls acc,
    Forall has_next pages -> truthy (next_cursor last) = false ->
    eventually
      (fun fuel =>
         collect_loop mock fuel (AtCall args cursor)
           (map inr (pages ++ [last]) ++ rest, calls) acc)
      (inr (acc ++ concat (map results (pages ++ [last]))),
       (rest, calls ++ calls_of args cursor (pages ++ [last]))).
Proof.
  induction pages as [ | p pages IH];
    intros last rest args cursor calls acc Hp Hl.
  - eapply collect_internal; [cbn [gen_step]; simpl; reflexivity | ].
    apply collect_pending.
    simpl. rewrite app_nil_r.
    apply collect_returns with (g' := Finished).
    cbn [gen_step]. now rewrite Hl.
  - inversion Hp as [ | ? ? Hc Hp']; subst.
    eapply collect_internal; [cbn [gen_step]; simpl; reflexivity | ].
    apply collect_pending.
    eapply collect_internal; [cbn [gen_step]; now rewrite Hc | ].
    specialize (IH last rest args (next_cursor p)
                  (calls ++ [(<["start_cursor" := cursor]> args, inr p)])
                  (acc ++ results p) Hp' Hl).
    simpl. rewrite <- !List.app_assoc in IH. simpl in IH. exact IH.
Qed.

Lemma collect_scripted_fail pages :
  forall e rest args cursor calls acc,
    Forall has_next pages ->
    eventually
      (fun fuel =>
         collect_loop mock fuel (AtCall args cursor)
           (map inr pages ++ inl e :: rest, calls) acc)
      (inl e,
       (rest, calls ++ calls_of args cursor pages
                ++ [(<["start_cursor" := cursor_after cursor pages]> args,
                     inl e)])).
Proof.
  induction pages as [ | p pages IH];
    intros e rest args cursor calls acc Hp.
  - apply collect_throws with (g' := Finished). reflexivity.
  - inversion Hp as [ | ? ? Hc Hp']; subst.
    eapply collect_internal; [cbn [gen_step]; simpl; reflexivity | ].
    apply collect_pending.
    eapply collect_internal; [cbn [gen_step]; now rewrite Hc | ].
    specialize (IH e rest args (next_cursor p)
                  (calls ++ [(<["start_cursor" := cursor]> args, inr p)])
                  (acc ++ results p) Hp').
    simpl. rewrite <- !List.app_assoc in IH. simpl in IH. exact IH.
Qed.

Lemma drain_scripted_fail pages :
  forall e rest args cursor calls,
    Forall has_next pages ->
    eventually
      (fun fuel =>
         drain mock fuel (AtCall args cursor)
           (map inr pages ++ inl e :: rest, calls))
      (map IterValue (concat (map results pages)) ++ [IterThrow e],
       (rest, calls ++ calls_of args cursor pages
                ++ [(<["start_cursor" := cursor_after cursor pages]> args,
                     inl e)])).
Proof.
  induction pages as [ | p pages IH];
    intros e rest args cursor calls Hp.
  - apply drain_throws with (g' := Finished). reflexivity.
  - inversion Hp as [ | ? ? Hc Hp']; subst.
    eapply drain_internal; [cbn [gen_step]; simpl; reflexivity | ].
    simpl. rewrite List.map_app, <- List.app_assoc.
    apply drain_pending.
    eapply drain_internal; [cbn [gen_step]; now rewrite Hc | ].
    specialize (IH e rest args (next_cursor p)
                  (calls ++ [(<["start_cursor" := cursor]> args, inr p)])
                  Hp').
    rewrite <- !List.app_assoc in IH. simpl in IH. exact IH.
Qed.

Lemma calls_of_length (args : obj) cursor (pages : list (PaginatedList Item)) :
  length (calls_of (Err := Err) args cursor pages) = length pages.
Proof.
  revert cursor. induction pages as [ | p pages IH]; intros cursor; simpl;
    [reflexivity | now rewrite IH].
Qed.
End Scripted.

(** *** The arguments of the calls *)

Section Calls.
Context {Item Err World : Type}.
Variable listFn : obj -> World -> (Err + PaginatedList Item) * World.
Variables (firstPageArgs : obj) (cursor : value).

Abbreviation chain := (open_chain (Item := Item) (Err := Err) firstPageArgs).

Lemma open_chain_chained calls :
  forall c c', chain c calls c' -> chained firstPageArgs c calls.
Proof.
  induction calls as [ | [a [e | resp]] calls IH]; simpl; intros c c' H;
    auto.
  - now destruct H.
  - destruct H as [-> H]. eauto.
Qed.

Lemma open_chain_snoc calls :
  forall c c' r,
    chain c calls c' ->
    chained firstPageArgs c
            (calls ++ [(<["start_cursor" := c']> firstPageArgs, r)]).
Proof.
  induction calls as [ | [a [e | resp]] calls IH]; simpl; intros c c' r H.
  - subst. split; [reflexivity | now destruct r].
  - now destruct H.
  - destruct H as [-> H]. eauto.
Qed.

Lemma open_chain_snoc_ok calls :
  forall c c' resp,
    chain c calls c' ->
    chain c (calls ++ [(<["start_cursor" := c']> firstPageArgs, inr resp)])
          (next_cursor resp).
Proof.
  induction calls as [ | [a [e | resp']] calls IH]; simpl;
    intros c c' resp H.
  - subst. auto.
  - now destruct H.
  - destruct H as [-> H]. eauto.
Qed.

Lemma step_frame_ok g w calls s g' w' calls' :
  frame_ok firstPageArgs cursor g calls ->
  gen_step (spy listFn) g (w, calls) = (s, g', (w', calls')) ->
  frame_ok firstPageArgs cursor g' calls'.
Proof.
  destruct g as [a nc | a resp [ | x pending] | ]; cbn [gen_step frame_ok].
  - intros [-> H]. unfold spy.
    destruct (listFn _ w) as [[e | resp] w1]; intros [= <- <- <- <-];
      cbn [frame_ok].
    + now apply open_chain_snoc.
    + split; [reflexivity | now apply open_chain_snoc_ok].
  - intros [-> H].
    destruct (truthy (next_cursor resp)); intros [= <- <- <- <-];
      cbn [frame_ok]; eauto using open_chain_chained.
  - intros [-> H] [= <- <- <- <-]. cbn [frame_ok]. auto.
  - intros H [= <- <- <- <-]. exact H.
Qed.

Lemma run_frame_ok n :
  forall g w calls g' w' calls',
    frame_ok firstPageArgs cursor g calls ->
    run (spy listFn) n g (w, calls) = (g', (w', calls')) ->
    frame_ok firstPageArgs cursor g' calls'.
Proof.
  induction n as [ | n IH]; intros g w calls g' w' calls' H; cbn [run].
  - now intros [= <- <- <-].
  - destruct (gen_step (spy listFn) g (w, calls)) as [[s g1] [w1 calls1]]
      eqn:E.
    intros Hr. eapply IH; [ | exact Hr].
    eapply step_frame_ok; eauto.
Qed.

Lemma frame_ok_chained g (calls : list (@call Item Err)) :
  frame_ok firstPageArgs cursor g calls ->
  chained firstPageArgs cursor calls
  /\ forall a, frame_args g = Some a -> a = firstPageArgs.
Proof.
  destruct g as [a nc | a resp pending | ]; cbn [frame_ok frame_args].
  - intros [-> H]. split; [eauto using open_chain_chained | ].
    now intros a [= <-].
  - intros [-> H]. split; [eauto using open_chain_chained | ].
    now intros a [= <-].
  - intros H. split; [exact H | discriminate].
Qed.

(** In a chain every argument is [firstPageArgs] but for
    [start_cursor]. *)
Lemma chained_frame calls :
  forall c, chained (Item := Item) (Err := Err) firstPageArgs c calls ->
  forall a r, In (a, r) calls ->
              exists c', a = <["start_cursor" := c']> firstPageArgs.
Proof.
  induction calls as [ | [a0 [e | resp]] calls IH]; simpl;
    intros c H a r Hin; [contradiction | | ].
  - destruct H as [-> ->]. destruct Hin as [[= <- <-] | []]. eauto.
  - destruct H as [-> H]. destruct Hin as [[= <- <-] | Hin]; eauto.
Qed.
End Calls.

End PaginationFacts.

(** ** Rich text *)

Module RichTextFacts.
Import RichText.

Lemma append_nil_r (a : string) : a ++ "" = a.
Proof. induction a as [ | x a IH]; simpl; [reflexivity | now rewrite IH]. Qed.

(** Joining with the empty separator is appending. *)
Lemma join_cons x xs : join (x :: xs) = x ++ join xs.
Proof.
  unfold join. destruct xs as [ | y xs]; simpl.
  - now rewrite append_nil_r.
  - reflexivity.
Qed.

Lemma join_fold xs : join xs = fold_right String.append "" xs.
Proof.
  induction xs as [ | x xs IH]; [reflexivity | ].
  now rewrite join_cons, IH.
Qed.

Lemma append_assoc (a b c : string) : (a ++ b) ++ c = a ++ (b ++ c).
Proof. induction a as [ | x a IH]; simpl; [reflexivity | now rewrite IH]. Qed.

Lemma join_app xs ys : join (xs ++ ys)%list = join xs ++ join ys.
Proof.
  induction xs as [ | x xs IH]; [reflexivity | ].
  simpl. now rewrite !join_cons, IH, append_assoc.
Qed.

Lemma or_empty_default s : or_empty s = default "" s.
Proof. destruct s as [[ | c s] | ]; reflexivity. Qed.

(** The source and the wording of the specification render a span the
    same way. *)
Lemma markdown_of_item_spec item :
  String.eqb (type item) "equation" = false ->
  String.eqb (type item) "mention" = false ->
  markdown_of_item item = spec_linked item.
Proof.
  intros He Hm. unfold markdown_of_item, spec_linked, spec_coded,
    spec_annotated, flag, wrap.
  rewrite He, Hm. cbn [fold_left fst snd].
  destruct (annotations item) as [a | ];
    destruct (link_of item) as [l | ];
    destruct (String.eqb (type item) "text"); reflexivity.
Qed.

Lemma plain_span_markdown item :
  plain_span item -> markdown_of_item item = or_empty (plain_text item).
Proof.
  intros (Ht & Hb & Hi & Hs & Hu & Hc & Hl).
  rewrite markdown_of_item_spec by (now rewrite Ht).
  unfold spec_linked, spec_coded, spec_annotated.
  rewrite Hl, Hb, Hi, Hs, Hu, Hc. reflexivity.
Qed.

End RichTextFacts.

(** ** Fullness predicates *)

Module ShapesFacts.
Import Json Shapes.

Lemma is_str_iff v s : is_str v s = true <-> v = VStr s.
Proof.
  destruct v; simpl; try (split; [discriminate | congruence]).
  rewrite String.eqb_eq. split; congruence.
Qed.

Lemma get_str_iff (o : obj) key s :
  is_str (get o key) s = true <-> o !! key = Some (VStr s).
Proof.
  rewrite is_str_iff. unfold get.
  destruct (o !! key) as [v | ]; split; congruence.
Qed.

Lemma has_iff key (o : obj) : has key o = true <-> is_Some (o !! key).
Proof.
  unfold has. destruct (o !! key) as [v | ]; split; eauto.
  - discriminate.
  - intros [? ?]. discriminate.
Qed.

Lemma has_delete key (o : obj) : has key (delete key o) = false.
Proof. unfold has. now rewrite lookup_delete_eq. Qed.

Lemma has_insert key v (o : obj) : has key (<[key := v]> o) = true.
Proof. unfold has. now rewrite lookup_insert_eq. Qed.

Lemma get_delete key (o : obj) : get (delete key o) key = VUndefined.
Proof. unfold get. now rewrite lookup_delete_eq. Qed.

Lemma get_delete_ne key key' (o : obj) :
  key <> key' -> get (delete key o) key' = get o key'.
Proof. intros H. unfold get. now rewrite lookup_delete_ne. Qed.

End ShapesFacts.

(** ** Page properties *)

Module PagesFacts.
Import Json Shapes RichText Pages ShapesFacts.

Lemma getPageProperty_partial (page : obj) name :
  isFullPage page = false -> getPageProperty page name = Return VNull.
Proof. intros H. unfold getPageProperty. now rewrite H. Qed.

Lemma getPageProperty_no_properties (page : obj) name :
  truthy (get page "properties") = false ->
  getPageProperty page name = Return VNull.
Proof.
  intros H. unfold getPageProperty. rewrite H.
  now rewrite orb_true_r.
Qed.

Lemma getPageProperty_absent (page props : obj) name :
  page !! "properties" = Some (VObj props) -> props !! name = None ->
  getPageProperty page name = Return VNull.
Proof.
  intros Hp Hn. unfold getPageProperty, get, member, get.
  rewrite Hp, Hn. cbn [truthy negb].
  now destruct (negb (isFullPage page) || false).
Qed.

Lemma getPageProperty_dispatch (page props property : obj) name tag :
  isFullPage page = true ->
  page !! "properties" = Some (VObj props) ->
  props !! name = Some (VObj property) ->
  property !! "type" = Some (VStr tag) ->
  getPageProperty page name = dispatch tag property.
Proof.
  intros Hf Hp Hn Ht. unfold getPageProperty, get, member, get.
  now rewrite Hf, Hp, Hn, Ht.
Qed.

Lemma dispatch_plain tag (property : obj) v :
  In tag ["title"; "rich_text"] -> property !! tag = Some v ->
  dispatch tag property = plain_text_of v.
Proof.
  intros Hin Hv. simpl in Hin.
  destruct Hin as [<- | [<- | []]]; cbn [dispatch String.eqb Ascii.eqb Bool.eqb];
    unfold plain, has, get; now rewrite Hv.
Qed.

Lemma is_span_text item :
  is_span item = true ->
  nullish item = false
  /\ or_empty (plain_text (as_item item)) = span_text item.
Proof.
  destruct item as [ | | | | | | o]; try discriminate.
  intros H. split; [reflexivity | ].
  unfold is_span in H. unfold as_item, span_text, member. cbn [plain_text].
  destruct (get o "plain_text") as [ | | | | s | | ]; try discriminate;
    try reflexivity.
  simpl. now destruct s.
Qed.


(** On an array of spans the plain text is the texts of the spans put
    together, and nothing throws. *)
Lemma plain_text_of_spans items :
  forallb is_span items = true ->
  plain_text_of (VArr items)
  = Return (VStr (fold_right String.append "" (map span_text items))).
Proof.
  intros H. unfold plain_text_of.
    assert (Hn : existsb nullish items = false).
  { induction items as [ | item items IH]; simpl in *; [reflexivity | ].
    apply andb_true_iff in H. destruct H as [Hi H].
    apply is_span_text in Hi. destruct Hi as [-> _]. now apply IH. }
    rewrite Hn. do 2 f_equal. clear Hn.
  unfold richTextToPlainText. simpl. rewrite RichTextFacts.join_fold.
  f_equal. rewrite List.map_map.
  induction items as [ | item items IH]; simpl in *; [reflexivity | ].
  apply andb_true_iff in H. destruct H as [Hi H].
  apply is_span_text in Hi. destruct Hi as [_ Hi].
  now rewrite <- Hi, (IH H).
Qed.





Lemma dispatch_option_name tag (property : obj) v :
  In tag ["select"; "status"] -> property !! tag = Some v ->
  dispatch tag property = Return (optional_name v).
Proof.
  intros Hin Hv. simpl in Hin.
  destruct Hin as [<- | [<- | []]]; cbn [dispatch String.eqb Ascii.eqb Bool.eqb];
    unfold option_name, has, get; now rewrite Hv.
Qed.

Lemma dispatch_multi_select (property : obj) v :
  property !! "multi_select" = Some v ->
  dispatch "multi_select" property = map_name v.
Proof.
  intros Hv. cbn [dispatch String.eqb Ascii.eqb Bool.eqb].
  unfold option_names, has, get. now rewrite Hv.
Qed.

Lemma map_name_objects (os : list obj) :
  map_name (VArr (map VObj os))
  = Return (VArr (map (fun o => get o "name") os)).
Proof.
  unfold map_name.
  assert (H : existsb nullish (map VObj os) = false)
    by (induction os; simpl; auto).
  rewrite H. now rewrite List.map_map.
Qed.

Lemma dispatch_raw tag (property : obj) v :
  In tag raw_kinds -> property !! tag = Some v ->
  dispatch tag property = Return v.
Proof.
  intros Hin Hv. unfold raw_kinds in Hin. simpl in Hin.
  repeat (destruct Hin as [<- | Hin];
          [cbn [dispatch String.eqb Ascii.eqb Bool.eqb];
           unfold raw, has, get; now rewrite Hv | ]).
  contradiction.
Qed.

Lemma dispatch_unknown tag (property : obj) :
  ~ In tag known_kinds -> dispatch tag property = Return VNull.
Proof.
  intros Hn. unfold dispatch.
  repeat match goal with
         | |- context [String.eqb tag ?k] =>
             let E := fresh "E" in
             destruct (String.eqb tag k) eqn:E;
             [apply String.eqb_eq in E; exfalso; apply Hn; rewrite E;
              unfold known_kinds, raw_kinds; simpl; tauto | ]
         end.
  reflexivity.
Qed.

End PagesFacts.

(** * The claims of the specification *)

Module Claims.
Import JsString Regex Ids IdShapes Examples.
Import CharFacts StringFacts PatternFacts UuidFacts FormatFacts.
Import CaptureFacts PathFacts QueryFacts.

(** ** Identifiers *)

(** The example of the documentation of [extractNotionId]: the
    identifier of the data base in the path is extracted, not the
    identifier of the view. *)
Example extractNotionId_doc_url :
  extractNotionId
    "https://notion.so/workspace/DB-abc123def456789012345678901234ab?v=viewid123"
  = Some "abc123de-f456-7890-1234-5678901234ab".
Proof. vm_compute. reflexivity. Qed.

Example extractNotionId_doc_uuid :
  extractNotionId "12345678-1234-1234-1234-123456789abc"
  = Some "12345678-1234-1234-1234-123456789abc".
Proof. vm_compute. reflexivity. Qed.

Example extractNotionId_path_and_query :
  extractNotionId
    "https://www.notion.so/Page-aaaaaaaaaaaaaaaaaaaaaaaaaaaaaaaa?p=bbbbbbbbbbbbbbbbbbbbbbbbbbbbbbbb"
  = Some "aaaaaaaa-aaaa-aaaa-aaaa-aaaaaaaaaaaa".
Proof. vm_compute. reflexivity. Qed.

Lemma formatUuid_inj_lower A B :
  hex32 A -> hex32 B -> formatUuid A = formatUuid B ->
  toLowerCase A = toLowerCase B.
Proof.
  intros HA HB H.
  rewrite <- (strip_hyphens_formatUuid A HA),
    <- (strip_hyphens_formatUuid B HB).
  now rewrite H.
Qed.

(** C3, as amended.  When the input has path segments of the form
    [/<slug>-<32 hexadecimal characters>], [extractNotionId] returns the
    hyphenated lower-case form of the identifier [A] of the first of
    them, and of no other identifier [B], whatever query parameters the
    input has: the match in the path takes priority.  When the input has
    no such path segment but has query parameters [p], [page_id] or
    [database_id] with a value of 32 hexadecimal characters, it returns
    the form of the value [B] of the first of them, whatever other runs
    of 32 hexadecimal characters the input has: the query parameter
    takes priority over the last resort. *)
Theorem extractNotionId_priority (s : string) :
  (forall A,
      first_path_id s A ->
      extractNotionId s = Some (formatUuid A)
      /\ forall B, hex32 B -> toLowerCase B <> toLowerCase A ->
                   extractNotionId s <> Some (formatUuid B))
  /\ (forall B,
         no_path_id s -> first_query_id s B ->
         extractNotionId s = Some (formatUuid B)).
Proof.
  split.
  - intros A HA. pose proof (extractNotionId_first_path s A HA) as E.
    split; [exact E | ].
    intros B HB Hne. rewrite E. intros [= H]. apply Hne. symmetry.
    apply formatUuid_inj_lower; auto.
    destruct HA as (n & (pre & slug & rest & _ & _ & _ & HA & _) & _).
    exact HA.
  - intros B Hno HB. now apply extractNotionId_first_query.
Qed.

(** An input with a path segment for [id_a] and the query parameter
    [p] for [id_b], and an input with the query parameter only, after an
    earlier run of 32 hexadecimal characters. *)
Lemma extractNotionId_priority_witness :
  (first_path_id ("/Page-" ++ id_a ++ "?p=" ++ id_b) id_a
   /\ extractNotionId ("/Page-" ++ id_a ++ "?p=" ++ id_b)
      = Some (formatUuid id_a))
  /\ (no_path_id ("x" ++ id_a ++ "?v=1&p=" ++ id_b)
      /\ first_query_id ("x" ++ id_a ++ "?v=1&p=" ++ id_b) id_b
      /\ extractNotionId ("x" ++ id_a ++ "?v=1&p=" ++ id_b)
         = Some (formatUuid id_b)).
Proof.
  assert (H1 : first_path_id ("/Page-" ++ id_a ++ "?p=" ++ id_b) id_a).
  { exists 0. split; [ | intros m id' Hm; lia].
    exists "", "Page", ("?p=" ++ id_b).
    repeat split; try reflexivity. right. reflexivity. }
  assert (H2 : no_path_id ("x" ++ id_a ++ "?v=1&p=" ++ id_b)).
  { apply no_path_id_intro. vm_compute. reflexivity. }
  assert (H3 : first_query_id ("x" ++ id_a ++ "?v=1&p=" ++ id_b) id_b).
  { exists 37. split.
    - exists ("x" ++ id_a ++ "?v=1"), "&"%char, "p", "".
      repeat split; try reflexivity; auto.
    - intros m id' Hm Hq.
      destruct Hq as (pre & sep & name & rest & Hs & Hl & Hsep & Hname & _).
      assert (Hget : String.get m ("x" ++ id_a ++ "?v=1&p=" ++ id_b)
                     = Some sep).
      { rewrite Hs, <- Hl. clear. induction pre; simpl; auto. }
      assert (Hnext : exists c, String.get (S m)
                                  ("x" ++ id_a ++ "?v=1&p=" ++ id_b)
                                = Some c
                                /\ (lower_char c = "p" \/ lower_char c = "d")%char).
      { rewrite Hs, <- Hl. clear - Hname.
        assert (Hc : exists c name', name = String c name'
                      /\ (lower_char c = "p" \/ lower_char c = "d")%char).
        { destruct name as [ | c name'];
            [destruct Hname as [H | [H | H]]; discriminate | ].
          exists c, name'. split; [reflexivity | ].
          destruct Hname as [H | [H | H]]; simpl in H;
            injection H as H _; auto. }
        destruct Hc as (c & name' & -> & Hc). exists c. split; [ | exact Hc].
        induction pre; simpl; auto. }
      destruct Hnext as (c & Hc & Hp).
      do 37 (destruct m as [ | m];
             [vm_compute in Hget; vm_compute in Hc;
              injection Hget as <-; injection Hc as <-;
              destruct Hsep as [Hsep | Hsep]; try discriminate Hsep;
              destruct Hp as [Hp | Hp]; discriminate Hp | ]).
      lia. }
  split; [split; [exact H1 | ] | split; [exact H2 | split; [exact H3 | ]]].
  - exact (proj1 (proj1 (extractNotionId_priority _) id_a H1)).
  - exact (proj2 (extractNotionId_priority _) id_b H2 H3).
Defined.

(** C3 as it is stated fails: this input has a path segment that
    embeds [id_a] and the query parameter [p] with the value [id_b], it
    is neither a hyphenated nor a compact identifier, and the result is
    the form of [id_b], which an earlier path segment embeds. *)
Lemma extractNotionId_later_path_segment :
  let s := "/x-" ++ id_b ++ "/y-" ++ id_a ++ "?p=" ++ id_b in
  (exists n, path_id_at s n id_a)
  /\ (exists m, query_id_at s m id_b)
  /\ id_b <> id_a
  /\ test true uuidRegex (trim s) = false
  /\ test true compactUuidRegex (trim s) = false
  /\ extractNotionId s = Some (formatUuid id_b)
  /\ extractNotionId s <> Some (formatUuid id_a).
Proof.
  cbv zeta. split; [ | split; [ | split; [ | split; [ | split; [ | split]]]]].
  - exists 35. exists ("/x-" ++ id_b), "y", ("?p=" ++ id_b).
    repeat split; try reflexivity. right. reflexivity.
  - exists 70. exists ("/x-" ++ id_b ++ "/y-" ++ id_a), "?"%char, "p", "".
    repeat split; try reflexivity; auto.
  - discriminate.
  - vm_compute. reflexivity.
  - vm_compute. reflexivity.
  - vm_compute. reflexivity.
  - vm_compute. discriminate.
Qed.

(** C8.  For a string [h] of exactly 32 hexadecimal characters, in any
    letter case, [formatUuid h] matches the canonical pattern (lower-case
    hexadecimal groups 8-4-4-4-12 with hyphens), and deleting its hyphens
    gives [h] in lower case. *)
Theorem formatUuid_round_trip (h : string) :
  hex32 h ->
  canonical (formatUuid h) = true
  /\ strip_hyphens (formatUuid h) = toLowerCase h.
Proof.
  intros H. split.
  - apply test_uuid_iff. now apply formatUuid_chars.
  - now apply strip_hyphens_formatUuid.
Qed.

Lemma formatUuid_round_trip_witness :
  hex32 "ABC123DEF456789012345678901234ab"
  /\ canonical (formatUuid "ABC123DEF456789012345678901234ab") = true
  /\ strip_hyphens (formatUuid "ABC123DEF456789012345678901234ab")
     = "abc123def456789012345678901234ab".
Proof.
  assert (H : hex32 "ABC123DEF456789012345678901234ab")
    by (split; reflexivity).
  split; [exact H | ].
  exact (formatUuid_round_trip "ABC123DEF456789012345678901234ab" H).
Defined.

(** C9.  When [extractNotionId x] is an identifier [y], extracting from
    [y] gives [y] again: [extractNotionId y = extractNotionId x]. *)
Theorem extractNotionId_idempotent (x y : string) :
  extractNotionId x = Some y -> extractNotionId y = extractNotionId x.
Proof.
  intros H. rewrite H.
  now apply extractNotionId_canonical, (extractNotionId_result x).
Qed.

Lemma extractNotionId_idempotent_witness :
  extractNotionId "https://www.notion.so/Test-123E4567E89B12D3A456426614174000?v=1"
  = Some "123e4567-e89b-12d3-a456-426614174000"
  /\ extractNotionId "123e4567-e89b-12d3-a456-426614174000"
     = extractNotionId
         "https://www.notion.so/Test-123E4567E89B12D3A456426614174000?v=1".
Proof.
  assert (H : extractNotionId
                "https://www.notion.so/Test-123E4567E89B12D3A456426614174000?v=1"
              = Some "123e4567-e89b-12d3-a456-426614174000")
    by (vm_compute; reflexivity).
  split; [exact H | ].
  exact (extractNotionId_idempotent _ _ H).
Defined.

(** ** Pagination *)

Import Json Pagination PaginationFacts.

(** C1.  Let the responses of a scripted [listFn] begin with the pages
    [pages], each with a truthy [next_cursor], and then [last], whose
    [next_cursor] is falsy; [has_more] is anything.  Then, with enough
    fuel, [collectPaginatedAPI] returns the results of these pages
    concatenated in order; [listFn] was called once per page, which is at
    least once, each call with the cursor of the page before; and the
    rest of the script is untouched: no call follows the page [last]. *)
Theorem collectPaginatedAPI_visits_chain
        {Item Err : Type} (after : Err + PaginatedList Item)
        (firstPageArgs : obj) (pages : list (PaginatedList Item))
        (last : PaginatedList Item) (rest : list (Err + PaginatedList Item)) :
  Forall (fun p => truthy (next_cursor p) = true) pages ->
  truthy (next_cursor last) = false ->
  let calls :=
    calls_of firstPageArgs (get firstPageArgs "start_cursor")
             (pages ++ [last])%list in
  eventually
    (fun fuel =>
       collectPaginatedAPI (spy (scripted after)) fuel firstPageArgs
         ((map inr (pages ++ [last]) ++ rest)%list, []))
    (inr (concat (map results (pages ++ [last])%list)), (rest, calls))
  /\ length calls = S (length pages).
Proof.
  intros Hp Hl calls. split.
  - apply (collect_scripted after pages last rest firstPageArgs
             (get firstPageArgs "start_cursor") [] [] Hp Hl).
  - unfold calls. rewrite calls_of_length, List.length_app. simpl. lia.
Qed.

Lemma collectPaginatedAPI_visits_chain_witness :
  Forall (fun p => truthy (next_cursor p) = true) [page_1]
  /\ truthy (next_cursor page_2) = false
  /\ eventually
       (fun fuel =>
          collectPaginatedAPI (spy (scripted used_up)) fuel list_args
            ([inr page_1; inr page_2; inr page_3], []))
       (inr [1; 2; 3],
        ([inr page_3],
         [(<["start_cursor" := VUndefined]> list_args, inr page_1);
          (<["start_cursor" := VStr "c1"]> list_args, inr page_2)])).
Proof.
  assert (H1 : Forall (fun p : PaginatedList nat =>
                         truthy (next_cursor p) = true) [page_1])
    by (repeat constructor).
  assert (H2 : truthy (next_cursor page_2) = false) by reflexivity.
  split; [exact H1 | split; [exact H2 | ]].
  exact (proj1 (collectPaginatedAPI_visits_chain used_up list_args [page_1]
                  page_2 [inr page_3] H1 H2)).
Defined.

(** The two properties of the specification: two pages give [[1; 2; 3]]
    after two calls, and an empty first page without a cursor gives the
    empty array after one call. *)
Example collect_two_pages :
  collectPaginatedAPI (spy (scripted used_up)) 10 list_args
    ([inr page_1; inr page_2], [])
  = Some (inr [1; 2; 3],
          ([],
           [(<["start_cursor" := VUndefined]> list_args, inr page_1);
            (<["start_cursor" := VStr "c1"]> list_args, inr page_2)])).
Proof. reflexivity. Qed.

Example collect_empty_first_page :
  collectPaginatedAPI (spy (scripted used_up)) 10 list_args
    ([inr empty_page], [])
  = Some (inr [],
          ([], [(<["start_cursor" := VUndefined]> list_args, inr empty_page)])).
Proof. reflexivity. Qed.

(** C2.  Let a scripted [listFn] be fulfilled with the pages [pages],
    each with a truthy [next_cursor] so that the next call is made, and
    then be rejected with [e].  Then a consumer of the lazy iterator
    receives every item of these pages, in order, and only then the very
    error [e]; and [collectPaginatedAPI] is rejected with [e] and returns
    no array.  [listFn] was called once per page and once more. *)
Theorem listFn_error_propagates
        {Item Err : Type} (after : Err + PaginatedList Item)
        (firstPageArgs : obj) (pages : list (PaginatedList Item))
        (e : Err) (rest : list (Err + PaginatedList Item)) :
  Forall (fun p => truthy (next_cursor p) = true) pages ->
  exists calls,
    eventually
      (fun fuel =>
         drain (spy (scripted after)) fuel
               (iteratePaginatedAPI firstPageArgs)
               ((map inr pages ++ inl e :: rest)%list, []))
      ((map IterValue (concat (map results pages)) ++ [IterThrow e])%list,
       (rest, calls))
    /\ eventually
         (fun fuel =>
            collectPaginatedAPI (spy (scripted after)) fuel firstPageArgs
              ((map inr pages ++ inl e :: rest)%list, []))
         (inl e, (rest, calls))
    /\ length calls = S (length pages).
Proof.
  intros Hp. eexists. split; [ | split].
  - apply (drain_scripted_fail after pages e rest firstPageArgs
             (get firstPageArgs "start_cursor") [] Hp).
  - apply (collect_scripted_fail after pages e rest firstPageArgs
             (get firstPageArgs "start_cursor") [] [] Hp).
  - simpl. rewrite List.length_app, calls_of_length. simpl. lia.
Qed.

Lemma listFn_error_propagates_witness :
  Forall (fun p => truthy (next_cursor p) = true) [page_1]
  /\ exists calls,
       eventually
         (fun fuel =>
            drain (spy (scripted used_up)) fuel
                  (iteratePaginatedAPI list_args)
                  ([inr page_1; inl "boom"; inr page_3], []))
         ([IterValue 1; IterValue 2; IterThrow "boom"], ([inr page_3], calls))
       /\ eventually
            (fun fuel =>
               collectPaginatedAPI (spy (scripted used_up)) fuel list_args
                 ([inr page_1; inl "boom"; inr page_3], []))
            (inl "boom", ([inr page_3], calls))
       /\ length calls = 2.
Proof.
  assert (H1 : Forall (fun p : PaginatedList nat =>
                         truthy (next_cursor p) = true) [page_1])
    by (repeat constructor).
  split; [exact H1 | ].
  exact (listFn_error_propagates used_up list_args [page_1] "boom"
           [inr page_3] H1).
Defined.

Example drain_second_call_fails :
  drain (spy (scripted used_up)) 10 (iteratePaginatedAPI list_args)
        ([inr page_1; inl "boom"], [])
  = Some ([IterValue 1; IterValue 2; IterThrow "boom"],
          ([],
           [(<["start_cursor" := VUndefined]> list_args, inr page_1);
            (<["start_cursor" := VStr "c1"]> list_args, inl "boom")])).
Proof. reflexivity. Qed.

(** C7.  Take any [listFn] under a spy and any number of steps of the
    generator.  The calls made so far are chained: the argument of the
    first is [firstPageArgs] with [start_cursor] set to
    [firstPageArgs.start_cursor], the argument of every later one is
    [firstPageArgs] with [start_cursor] set to [next_cursor] of the
    response before it.  So every argument agrees with [firstPageArgs] on
    every field but [start_cursor]; and the frame of the generator still
    holds [firstPageArgs] as it was. *)
Theorem calls_override_start_cursor_only
        {Item Err World : Type}
        (listFn : obj -> World -> (Err + PaginatedList Item) * World)
        (firstPageArgs : obj) (w : World) (n : nat)
        (g : gen_state) (w' : World) (calls : list call) :
  run (spy listFn) n (iteratePaginatedAPI firstPageArgs) (w, [])
  = (g, (w', calls)) ->
  chained firstPageArgs (get firstPageArgs "start_cursor") calls
  /\ (forall args r key,
         In (args, r) calls -> key <> "start_cursor" ->
         args !! key = firstPageArgs !! key)
  /\ (forall a, frame_args g = Some a -> a = firstPageArgs).
Proof.
  intros Hr.
  assert (H : frame_ok firstPageArgs (get firstPageArgs "start_cursor")
                       g calls).
  { eapply run_frame_ok; [ | exact Hr]. simpl. auto. }
  apply frame_ok_chained in H. destruct H as [Hc Hf].
  split; [exact Hc | split; [ | exact Hf]].
  intros args r key Hin Hk.
  destruct (chained_frame _ _ _ Hc _ _ Hin) as [c ->].
  now apply lookup_insert_ne.
Qed.

Lemma calls_override_start_cursor_only_witness :
  run (spy (scripted used_up)) 6 (iteratePaginatedAPI list_args)
      ([inr page_1; inr page_2], [])
  = (AtYield list_args page_2 [],
     ([],
      [(<["start_cursor" := VUndefined]> list_args, inr page_1);
       (<["start_cursor" := VStr "c1"]> list_args, inr page_2)]))
  /\ chained list_args (get list_args "start_cursor")
       [(<["start_cursor" := VUndefined]> list_args, inr page_1);
        (<["start_cursor" := VStr "c1"]> list_args,
         (inr page_2 : string + PaginatedList nat))].
Proof.
  assert (H : run (spy (scripted used_up)) 6 (iteratePaginatedAPI list_args)
                  ([inr page_1; inr page_2], [])
              = (AtYield list_args page_2 [],
                 ([],
                  [(<["start_cursor" := VUndefined]> list_args, inr page_1);
                   (<["start_cursor" := VStr "c1"]> list_args, inr page_2)])))
    by reflexivity.
  split; [exact H | ].
  exact (proj1 (calls_override_start_cursor_only _ _ _ _ _ _ _ H)).
Defined.

(** ** Rich text *)

Import RichText RichTextFacts.

(** C4.  A span that is neither an equation nor a mention is rendered
    from its [plain_text] by wrapping for bold, italic, strikethrough and
    underline, in this order and each on its flag, then for code, and
    then, when the span has type ["text"] and a link, as a link: that is
    [spec_linked].  With [bold] and [code] set and [plain_text] ["x"] the
    result is [`**x**`].  An equation is rendered as [$plain_text$] and a
    mention as its [plain_text].  The renderings of the spans are put
    together without a separator, and [null], [undefined] and other
    non-arrays give the empty string. *)
Theorem richTextToMarkdown_wrapping :
  (forall item,
      String.eqb (type item) "equation" = false ->
      String.eqb (type item) "mention" = false ->
      markdown_of_item item = spec_linked item)
  /\ (forall item,
         String.eqb (type item) "equation" = false ->
         String.eqb (type item) "mention" = false ->
         plain_text item = Some "x" ->
         flag bold item = true -> flag code item = true ->
         flag italic item = false -> flag strikethrough item = false ->
         flag underline item = false -> link_of item = None ->
         markdown_of_item item = "`**x**`")
  /\ (forall item,
         type item = "equation" ->
         markdown_of_item item = "$" ++ or_empty (plain_text item) ++ "$")
  /\ (forall item,
         type item = "mention" ->
         markdown_of_item item = or_empty (plain_text item))
  /\ (forall items,
         richTextToMarkdown (ArgArray items)
         = fold_right String.append "" (map markdown_of_item items))
  /\ richTextToMarkdown ArgNull = ""
  /\ richTextToMarkdown ArgUndefined = ""
  /\ (forall t, richTextToMarkdown (ArgOther t) = "").
Proof.
  split; [exact markdown_of_item_spec | ].
  split.
  { intros item He Hm Hx Hb Hc Hi Hs Hu Hl.
    rewrite markdown_of_item_spec by assumption.
    unfold spec_linked, spec_coded, spec_annotated.
    now rewrite Hl, Hb, Hc, Hi, Hs, Hu, Hx. }
  split.
  { intros item Ht. unfold markdown_of_item. now rewrite Ht. }
  split.
  { intros item Ht. unfold markdown_of_item. now rewrite Ht. }
  split.
  { intros items. unfold richTextToMarkdown. simpl. apply join_fold. }
  split; [reflexivity | split; [reflexivity | ]].
  intros t. unfold richTextToMarkdown. simpl. now rewrite orb_true_r.
Qed.

Lemma richTextToMarkdown_wrapping_witness :
  (String.eqb (type bold_code_x) "equation" = false
   /\ String.eqb (type bold_code_x) "mention" = false
   /\ plain_text bold_code_x = Some "x"
   /\ flag bold bold_code_x = true /\ flag code bold_code_x = true)
  /\ markdown_of_item bold_code_x = "`**x**`"
  /\ markdown_of_item all_flags_link = spec_linked all_flags_link.
Proof.
  split; [repeat split | split].
  - exact (proj1 (proj2 richTextToMarkdown_wrapping) bold_code_x
             eq_refl eq_refl eq_refl eq_refl eq_refl eq_refl eq_refl
             eq_refl eq_refl).
  - exact (proj1 richTextToMarkdown_wrapping all_flags_link
             eq_refl eq_refl).
Defined.

Example markdown_all_flags_link :
  richTextToMarkdown (ArgArray [hello; all_flags_link])
  = "Hello [`<u>~~***x***~~</u>`](https://example.com)".
Proof. reflexivity. Qed.

(** C10.  On an array of spans of type ["text"] that have no flag set and
    no link, [richTextToMarkdown] and [richTextToPlainText] return the
    same string: the [plain_text] fields put together, an absent one
    counting as the empty string. *)
Theorem plain_spans_markdown_is_plain_text (items : list RichTextItem) :
  Forall plain_span items ->
  richTextToMarkdown (ArgArray items) = richTextToPlainText (ArgArray items)
  /\ richTextToPlainText (ArgArray items)
     = fold_right String.append ""
                  (map (fun item => default "" (plain_text item)) items).
Proof.
  intros H. unfold richTextToMarkdown, richTextToPlainText. simpl.
  rewrite !join_fold. split.
  - f_equal. induction H as [ | item items Hi _ IH]; simpl;
      [reflexivity | ].
    now rewrite plain_span_markdown, IH.
  - f_equal. apply map_ext. intros item. apply or_empty_default.
Qed.

Lemma plain_spans_markdown_is_plain_text_witness :
  Forall plain_span [hello; no_plain_text; span "World" no_format None]
  /\ richTextToMarkdown
       (ArgArray [hello; no_plain_text; span "World" no_format None])
     = "Hello World".
Proof.
  assert (H : Forall plain_span
                     [hello; no_plain_text; span "World" no_format None])
    by (repeat constructor).
  split; [exact H | ].
  exact (eq_trans
           (proj1 (plain_spans_markdown_is_plain_text _ H))
           (proj2 (plain_spans_markdown_is_plain_text _ H))).
Defined.

(** ** Fullness predicates *)

Import Shapes ShapesFacts.

(** C6.  Each predicate is a total function to [bool] (it cannot throw
    on an object) and holds exactly under its one condition: [isFullBlock]
    when [object] is ["block"] and there is a field [type]; [isFullPage]
    when [object] is ["page"] and there is a field [url];
    [isFullDataSource] when [object] is ["data_source"] and
    [isFullDatabase] when [object] is ["database"], whatever else there
    is; [isFullPageOrDataSource] is [isFullDataSource] when [object] is
    ["data_source"] and [isFullPage] otherwise; [isFullUser] when there
    is a field [type]; [isFullComment] when there is a field
    [created_by].  So deleting the field that a predicate looks at (for
    data sources and data bases that is [object], the only one) makes it
    false. *)
Theorem fullness_predicates (response : obj) :
  (isFullBlock response = true
   <-> response !! "object" = Some (VStr "block")
       /\ is_Some (response !! "type"))
  /\ (isFullPage response = true
      <-> response !! "object" = Some (VStr "page")
          /\ is_Some (response !! "url"))
  /\ (isFullDataSource response = true
      <-> response !! "object" = Some (VStr "data_source"))
  /\ (isFullDatabase response = true
      <-> response !! "object" = Some (VStr "database"))
  /\ (response !! "object" = Some (VStr "data_source") ->
      isFullPageOrDataSource response = isFullDataSource response)
  /\ (response !! "object" <> Some (VStr "data_source") ->
      isFullPageOrDataSource response = isFullPage response)
  /\ (isFullUser response = true <-> is_Some (response !! "type"))
  /\ (isFullComment response = true <-> is_Some (response !! "created_by"))
  /\ isFullBlock (delete "type" response) = false
  /\ isFullPage (delete "url" response) = false
  /\ isFullDataSource (delete "object" response) = false
  /\ isFullDatabase (delete "object" response) = false
  /\ (response !! "object" <> Some (VStr "data_source") ->
      isFullPageOrDataSource (delete "url" response) = false)
  /\ isFullPageOrDataSource (delete "object" response) = false
  /\ isFullUser (delete "type" response) = false
  /\ isFullComment (delete "created_by" response) = false.
Proof.
  unfold isFullPageOrDataSource, isFullBlock, isFullPage, isFullDataSource,
    isFullDatabase, isFullUser, isFullComment.
  repeat match goal with |- _ /\ _ => split end.
  - rewrite andb_true_iff, get_str_iff, has_iff. reflexivity.
  - rewrite andb_true_iff, get_str_iff, has_iff. reflexivity.
  - apply get_str_iff.
  - apply get_str_iff.
  - intros H. apply get_str_iff in H. now rewrite H.
  - intros H.
    destruct (is_str (get response "object") "data_source") eqn:E;
      [ | reflexivity].
    apply get_str_iff in E. contradiction.
  - apply has_iff.
  - apply has_iff.
  - rewrite has_delete. apply andb_false_r.
  - rewrite has_delete. apply andb_false_r.
  - now rewrite get_delete.
  - now rewrite get_delete.
  - intros H. rewrite get_delete_ne by discriminate.
    destruct (is_str (get response "object") "data_source") eqn:E.
    + apply get_str_iff in E. contradiction.
    + rewrite has_delete. apply andb_false_r.
  - now rewrite get_delete.
  - apply has_delete.
  - apply has_delete.
Qed.

Lemma fullness_predicates_witness :
  (sample_block !! "object" = Some (VStr "block")
   /\ is_Some (sample_block !! "type"))
  /\ isFullBlock sample_block = true
  /\ isFullBlock (delete "type" sample_block) = false.
Proof.
  assert (H : sample_block !! "object" = Some (VStr "block")
              /\ is_Some (sample_block !! "type")).
  { split; [reflexivity | ]. eexists. reflexivity. }
  split; [exact H | split].
  - exact (proj2 (proj1 (fullness_predicates sample_block)) H).
  - exact (proj1 (proj2 (proj2 (proj2 (proj2 (proj2 (proj2 (proj2 (proj2
             (fullness_predicates sample_block)))))))))).
Defined.

(** ** Page properties *)

Import Pages PagesFacts.

(** C5, as amended.  [getPageProperty] returns [null] when the page is
    not a full page, when [page.properties] is falsy, and when the map of
    properties has no key [propertyName].  For a property that is an
    object with the type tag [tag] and the payload field of that name:
    [title] and [rich_text] give the plain text of the payload, an array
    of rich text items, which is the texts of the items put together;
    [select] and [status] give the field [name] of the payload object,
    and [undefined] (not [null]) when the payload is [null];
    [multi_select] gives the array of the fields [name] of the payload
    objects; the other known kinds give the payload as it is; and a tag
    that is not known gives [null], without an exception. *)
Theorem getPageProperty_cases (page : obj) (propertyName : string) :
  (isFullPage page = false ->
   getPageProperty page propertyName = Return VNull)
  /\ (truthy (get page "properties") = false ->
      getPageProperty page propertyName = Return VNull)
  /\ (forall props,
         page !! "properties" = Some (VObj props) ->
         props !! propertyName = None ->
         getPageProperty page propertyName = Return VNull)
  /\ (forall props property tag,
         isFullPage page = true ->
         page !! "properties" = Some (VObj props) ->
         props !! propertyName = Some (VObj property) ->
         property !! "type" = Some (VStr tag) ->
         (forall items,
           In tag ["title"; "rich_text"] ->
           property !! tag = Some (VArr items) ->
           forallb is_span items = true ->
           getPageProperty page propertyName
           = Return (VStr (richTextToPlainText (as_rich_text (VArr items))))
           /\ richTextToPlainText (as_rich_text (VArr items))
              = fold_right String.append "" (map span_text items))
         /\ (forall o,
                In tag ["select"; "status"] ->
                property !! tag = Some (VObj o) ->
                getPageProperty page propertyName = Return (get o "name"))
         /\ (In tag ["select"; "status"] ->
             property !! tag = Some VNull ->
             getPageProperty page propertyName = Return VUndefined)
         /\ (forall os,
                tag = "multi_select" ->
                property !! tag = Some (VArr (map VObj os)) ->
                getPageProperty page propertyName
                = Return (VArr (map (fun o => get o "name") os)))
         /\ (forall v,
                In tag raw_kinds -> property !! tag = Some v ->
                getPageProperty page propertyName = Return v)
         /\ (~ In tag known_kinds ->
             getPageProperty page propertyName = Return VNull)).
Proof.
  split; [intros H; now apply getPageProperty_partial | ].
  split; [intros H; now apply getPageProperty_no_properties | ].
  split; [intros props Hp Hn; now apply (getPageProperty_absent page props) | ].
  intros props property tag Hf Hp Hn Ht.
  rewrite (getPageProperty_dispatch page props property propertyName tag
             Hf Hp Hn Ht).
  repeat match goal with |- _ /\ _ => split end.
  - intros items Hin Hv Hs.
    rewrite (dispatch_plain tag property _ Hin Hv).
    pose proof (plain_text_of_spans items Hs) as E.
    unfold plain_text_of in *.
    destruct (existsb nullish items); [discriminate | ].
    split; [reflexivity | ]. now injection E.
  - intros o Hin Hv. now rewrite (dispatch_option_name tag property _ Hin Hv).
  - intros Hin Hv. now rewrite (dispatch_option_name tag property _ Hin Hv).
  - intros os -> Hv. rewrite (dispatch_multi_select property _ Hv).
    apply map_name_objects.
  - intros v. apply dispatch_raw.
  - apply dispatch_unknown.
Qed.

Lemma getPageProperty_cases_witness :
  (isFullPage sample_page = true
   /\ sample_page !! "properties" = Some (VObj sample_properties)
   /\ sample_properties !! "Tags" = Some (VObj tags_property)
   /\ tags_property !! "type" = Some (VStr "multi_select")
   /\ tags_property !! "multi_select" = Some (VArr (map VObj tags)))
  /\ getPageProperty sample_page "Tags"
     = Return (VArr [VStr "Tag1"; VStr "Tag2"]).
Proof.
  assert (H1 : isFullPage sample_page = true) by reflexivity.
  assert (H2 : sample_page !! "properties" = Some (VObj sample_properties))
    by reflexivity.
  assert (H3 : sample_properties !! "Tags" = Some (VObj tags_property))
    by reflexivity.
  assert (H4 : tags_property !! "type" = Some (VStr "multi_select"))
    by reflexivity.
  assert (H5 : tags_property !! "multi_select" = Some (VArr (map VObj tags)))
    by reflexivity.
  split; [auto | ].
  exact (proj1 (proj2 (proj2 (proj2
           (proj2 (proj2 (proj2 (getPageProperty_cases sample_page "Tags")))
                  sample_properties tags_property "multi_select"
                  H1 H2 H3 H4))))
           tags eq_refl H5).
Defined.

(** The tests of the repository and the property of the specification
    on an unknown kind. *)
Example getPageProperty_sample :
  getPageProperty sample_page "Name" = Return (VStr "Test Title")
  /\ getPageProperty sample_page "Status" = Return (VStr "Active")
  /\ getPageProperty sample_page "Count" = Return (VNum 42)
  /\ getPageProperty sample_page "New" = Return VNull
  /\ getPageProperty sample_page "NonExistent" = Return VNull
  /\ getPageProperty (delete "url" sample_page) "Name" = Return VNull.
Proof. repeat split; reflexivity. Qed.

(** C5 as it is stated fails: of a full page whose property [Status] has
    the type [select] and the payload [null], [getPageProperty] returns
    [undefined], not [null]. *)
Lemma getPageProperty_select_null :
  isFullPage select_null_page = true
  /\ select_null_page !! "properties" = Some (VObj select_null_properties)
  /\ select_null_properties !! "Status" = Some (VObj select_null)
  /\ select_null !! "type" = Some (VStr "select")
  /\ select_null !! "select" = Some VNull
  /\ getPageProperty select_null_page "Status" = Return VUndefined
  /\ getPageProperty select_null_page "Status" <> Return VNull.
Proof.
  repeat split; try reflexivity. discriminate.
Qed.

End Claims.

(** * Further properties *)

(** ** Valid identifiers, and what the extractors return *)

Module ValidationFacts.
Import JsString Regex Ids IdShapes Json Validation.
Import CharFacts StringFacts RegexFacts ExecFacts PatternFacts UuidFacts.
Import FormatFacts CaptureFacts PathFacts QueryFacts.
Local Open Scope list_scope.

Lemma test_uuid_hyphenated s : test true uuidRegex s = true <-> hyphenated s.
Proof.
  rewrite test_uuid_iff. unfold hyphenated.
  split; apply uuid_list_impl; intros x; rewrite hex_class_i; auto.
Qed.

Lemma test_compact_hex32 s : test true compactUuidRegex s = true <-> hex32 s.
Proof.
  split; [apply compact_hex32 | ].
  intros [Hl F]. apply test_compact_iff. rewrite hexc_true_hex.
  now rewrite chars_length, <- all_chars_forallb.
Qed.

Lemma uuid_list_length p l : uuid_list p l -> length l = 36.
Proof.
  intros (a & b & c & d & e & -> & La & Lb & Lc & Ld & Le & _).
  repeat (rewrite List.length_app; cbn [length]). lia.
Qed.

Lemma not_hyphenated_empty : ~ hyphenated "".
Proof. intros H. apply uuid_list_length in H. discriminate. Qed.

Lemma has_hex32_length t : has_hex32 t -> 32 <= String.length t.
Proof.
  intros (pre & h & post & -> & [Lh _]).
  rewrite !string_length_app. lia.
Qed.

Lemma has_hex32_intro t a u b :
  chars t = a ++ u ++ b -> hex32_list u -> has_hex32 t.
Proof.
  intros E Hu. exists (str a), (str u), (str b). split.
  - apply chars_inj. now rewrite !chars_app, !chars_str.
  - now apply hex32_of_list.
Qed.

(** A match of one of the three patterns that search an input has read
    32 hexadecimal characters in a row. *)
Lemma matched_group_run r t g :
  r = pathRegex \/ r = queryRegex \/ r = anyRegex ->
  matched_group true r t = Some g -> has_hex32 t.
Proof.
  intros Hr H. apply matched_group_inv in H.
  destruct H as (pre & l & st2 & u & E & M & _ & _).
  destruct Hr as [-> | [-> | ->]].
  - apply path_matches_inv in M. cbn [rest] in M.
    destruct M as (seg & u' & r & Hl & _ & Lu & Fu & _ & _).
    apply (has_hex32_intro t (pre ++ "/"%char :: seg ++ ["-"%char]) u' r);
      [ | now split].
    rewrite E, Hl. rewrite <- !List.app_assoc. simpl.
    now rewrite <- !List.app_assoc.
  - apply query_matches_inv in M. cbn [rest] in M.
    destruct M as (sep & name & u' & Hl & _ & _ & Hu & _).
    apply (has_hex32_intro t (pre ++ sep :: name ++ ["="%char]) u'
                           (rest st2)); [ | exact Hu].
    rewrite E, Hl. rewrite <- !List.app_assoc. simpl.
    now rewrite <- !List.app_assoc.
  - unfold anyRegex in M. apply group_hex_inv in M. cbn [rest] in M.
    destruct M as (u' & Lu & Fu & Hl & _ & _).
    apply (has_hex32_intro t pre u' (rest st2)).
    + now rewrite E, Hl.
    + split; [exact Lu | now rewrite <- hexc_true_hex].
Qed.

Lemma truthy_str u : hex32_list u -> JsString.truthy (str u) = true.
Proof. intros [Lu _]. destruct u; [discriminate | reflexivity]. Qed.

(** Where there is a run of 32 hexadecimal characters, the last resort
    of [extractNotionId] finds one. *)
Lemma any_finds_run t :
  has_hex32 t -> exists g, matched_group true anyRegex t = Some g.
Proof.
  intros (pre & h & post & -> & Hh).
  unfold matched_group, exec, group1.
  destruct (exec_from true anyRegex 0
              (chars (pre ++ h ++ post)%string)) as [m | ] eqn:E.
  - apply exec_from_inv in E. destruct E as (u & s' & _ & R).
    apply rmatch_sound in R. destruct R as (st1 & M & [= ->]).
    apply any_cap in M. destruct M as (u' & -> & Hu). simpl.
    rewrite (truthy_str u' Hu). eauto.
  - exfalso.
    pose proof (exec_from_none _ _ _ _ E (chars pre)
                  (chars h ++ chars post)) as N.
    rewrite !chars_app in N. specialize (N eq_refl).
    apply hex32_chars in Hh. destruct Hh as [Lh Fh].
    assert (M : matches true anyRegex
                  (MState (0 + length (chars pre))
                          (chars h ++ chars post) None)
                  (MState (0 + length (chars pre) + length (chars h))
                          (chars post) (Some (chars h)))).
    { unfold anyRegex. rewrite <- Lh at 1.
      apply (group_hex_intro true (chars h)
               (MState (0 + length (chars pre))
                       (chars h ++ chars post) None));
        [now rewrite hexc_true_hex | reflexivity]. }
    apply rmatch_some in M. destruct M as (st2 & R & _).
    rewrite R in N. discriminate.
Qed.

(** The five branches of [extractNotionId] on a trimmed input. *)
Lemma extractNotionId_none s :
  extractNotionId s = None
  <-> ~ hyphenated (trim s) /\ ~ has_hex32 (trim s).
Proof.
  unfold extractNotionId. destruct s as [ | c s].
  { simpl. split; [ | reflexivity]. intros _. split.
    - apply not_hyphenated_empty.
    - intros H. apply has_hex32_length in H. simpl in H. lia. }
  cbn [JsString.truthy negb].
  set (t := trim (String c s)).
  destruct (test true uuidRegex t) eqn:E1.
  { split; [discriminate | ]. intros [H _]. exfalso. apply H.
    now apply test_uuid_hyphenated. }
  assert (N1 : ~ hyphenated t).
  { intros H. apply test_uuid_hyphenated in H. congruence. }
  destruct (test true compactUuidRegex t) eqn:E2.
  { split; [discriminate | ]. intros [_ H]. exfalso. apply H.
    apply test_compact_hex32 in E2. exists "", t, ""%string.
    split; [ | exact E2]. simpl. now rewrite string_app_nil_r. }
  destruct (matched_group true pathRegex t) as [g | ] eqn:E3.
  { split; [discriminate | ]. intros [_ H]. exfalso. apply H.
    eapply matched_group_run; [ | exact E3]. auto. }
  destruct (matched_group true queryRegex t) as [g | ] eqn:E4.
  { split; [discriminate | ]. intros [_ H]. exfalso. apply H.
    eapply matched_group_run; [ | exact E4]. auto. }
  destruct (matched_group true anyRegex t) as [g | ] eqn:E5.
  { split; [discriminate | ]. intros [_ H]. exfalso. apply H.
    eapply matched_group_run; [ | exact E5]. auto. }
  split; [ | reflexivity]. intros _. split; [exact N1 | ].
  intros H. apply any_finds_run in H. destruct H as [g H]. congruence.
Qed.

Lemma isValidNotionId_string s :
  isValidNotionId (VStr s) = true <-> hyphenated (trim s) \/ hex32 (trim s).
Proof.
  unfold isValidNotionId. destruct s as [ | c s].
  { simpl. split; [discriminate | ]. intros [H | [H _]].
    - now apply not_hyphenated_empty in H.
    - discriminate. }
  cbn [JsString.truthy negb].
  destruct (test true uuidRegex (trim (String c s))) eqn:E1.
  - split; [ | reflexivity]. intros _. left. now apply test_uuid_hyphenated.
  - rewrite test_compact_hex32. split; [auto | ].
    intros [H | H]; [ | exact H].
    apply test_uuid_hyphenated in H. congruence.
Qed.

(** *** Letter case and hyphens *)

Lemma lower_hyphen c : Ascii.eqb (lower_char c) "-" = Ascii.eqb c "-".
Proof. each_char c; vm_compute; reflexivity. Qed.

Lemma strip_hyphens_lower s :
  strip_hyphens (toLowerCase s) = toLowerCase (strip_hyphens s).
Proof.
  induction s as [ | c s IH]; simpl; [reflexivity | ].
  rewrite lower_hyphen. destruct (Ascii.eqb c "-"); simpl; now rewrite IH.
Qed.

Lemma strip_hyphens_hex s :
  all_chars is_hex s = true -> strip_hyphens s = s.
Proof.
  induction s as [ | c s IH]; simpl; [reflexivity | ].
  rewrite andb_true_iff. intros [Hc H].
  now rewrite (hex_not_hyphen c Hc), IH.
Qed.

Lemma canonical_chars y :
  canonical y = true <-> uuid_list (hexc false) (chars y).
Proof. apply test_uuid_iff. Qed.

(** What has the canonical form is a valid identifier of 36
    characters. *)
Lemma canonical_valid y :
  uuid_list (hexc false) (chars y) ->
  canonical y = true /\ String.length y = 36
  /\ isValidNotionId (VStr y) = true.
Proof.
  intros H. split; [now apply canonical_chars | ].
  split; [rewrite <- chars_length; now apply (uuid_list_length _ _ H) | ].
  apply isValidNotionId_string. left.
  assert (Htrim : trim y = y).
  { apply trim_fixed. rewrite all_chars_forallb.
    apply (uuid_list_forallb (hexc false)); [ | reflexivity | exact H].
    intros x Hx. apply hex_class_mono in Hx. destruct Hx as [Hx _].
    now rewrite hex_not_white. }
  rewrite Htrim. revert H. apply uuid_list_impl.
  intros x Hx. now apply hex_class_mono in Hx.
Qed.

(** *** White space around the input *)

Lemma trimStart_blank ws x :
  blank ws = true -> trimStart (ws ++ x)%string = trimStart x.
Proof.
  unfold blank. induction ws as [ | c ws IH]; simpl; [reflexivity | ].
  rewrite andb_true_iff. intros [Hc H]. rewrite Hc. auto.
Qed.

Lemma trimEnd_blank_only ws : blank ws = true -> trimEnd ws = "".
Proof.
  unfold blank. induction ws as [ | c ws IH]; simpl; [reflexivity | ].
  rewrite andb_true_iff. intros [Hc H]. now rewrite (IH H), Hc.
Qed.

Lemma trimEnd_blank x ws :
  blank ws = true -> trimEnd (x ++ ws)%string = trimEnd x.
Proof.
  intros H. induction x as [ | c x IH]; simpl.
  - now apply trimEnd_blank_only.
  - now rewrite IH.
Qed.

Lemma trimStart_blank_only ws : blank ws = true -> trimStart ws = "".
Proof.
  unfold blank. induction ws as [ | c ws IH]; simpl; [reflexivity | ].
  rewrite andb_true_iff. intros [Hc H]. rewrite Hc. auto.
Qed.

Lemma trim_app_blank x ws :
  blank ws = true -> trim (x ++ ws)%string = trim x.
Proof.
  intros H. unfold trim. induction x as [ | c x IH]; simpl.
  - now rewrite (trimStart_blank_only ws H).
  - destruct (is_white c); [exact IH | ].
    apply (trimEnd_blank (String c x) ws H).
Qed.

Lemma trim_blank ws s ws' :
  blank ws = true -> blank ws' = true ->
  trim (ws ++ s ++ ws')%string = trim s.
Proof.
  intros H H'. unfold trim at 1. rewrite (trimStart_blank ws _ H).
  apply (trim_app_blank s ws' H').
Qed.

Lemma extractNotionId_trimmed s s' :
  s <> ""%string -> s' <> ""%string -> trim s = trim s' ->
  extractNotionId s = extractNotionId s'.
Proof.
  intros Hs Hs' E. unfold extractNotionId.
  destruct s; [contradiction | ]. destruct s'; [contradiction | ].
  cbn [JsString.truthy negb]. now rewrite E.
Qed.

Lemma extractNotionId_blank s :
  trim s = ""%string -> extractNotionId s = None.
Proof.
  intros E. apply extractNotionId_none. rewrite E. split.
  - apply not_hyphenated_empty.
  - intros H. apply has_hex32_length in H. simpl in H. lia.
Qed.

(** *** The pattern of [extractBlockId] *)

Lemma lit_hash x : lit_matches true "#" x = Ascii.eqb x "#".
Proof. each_char x; vm_compute; reflexivity. Qed.



Lemma block_matches_inv st st2 :
  matches true blockRegex st st2 ->
  exists tag u,
    rest st = "#"%char :: tag ++ u ++ rest st2
    /\ block_tag tag /\ hex32_list u /\ cap st2 = Some u.
Proof.
  unfold blockRegex, cat at 1. cbn [fold_right matches].
  intros (s1 & Hh & s2 & Ht & s3 & Hg & ->).
  apply lit_inv in Hh. destruct Hh as (x & Ex & Rx & _).
  rewrite lit_hash in Ex. apply Ascii.eqb_eq in Ex. subst x.
  apply group_hex_inv in Hg. destruct Hg as (u & Lu & Fu & Ru & _ & Cu).
  rewrite hexc_true_hex in Fu.
  assert (Hn : exists tag, block_tag tag /\ rest s1 = tag ++ rest s2).
  { destruct Ht as [H | H].
    - unfold word in H. apply lits_inv in H; [ | reflexivity].
      destruct H as (tag & Hn & Hr' & _). exists tag.
      split; [now right | exact Hr'].
    - exists []. split; [now left | now rewrite H]. }
  destruct Hn as (tag & Hn & Rt).
  exists tag, u. rewrite Rx, Rt, Ru. repeat split; auto.
Qed.

Lemma block_matches_intro p tag u r c :
  block_tag tag -> hex32_list u ->
  exists st2,
    matches true blockRegex (MState p ("#"%char :: tag ++ u ++ r) c) st2.
Proof.
    intros Ht [Lu Fu].
  unfold blockRegex, cat at 1. cbn [fold_right matches].
  destruct Ht as [-> | Ht].
  - eexists. eexists. split.
    { apply lit_intro with (x := "#"%char); reflexivity. }
    eexists. split; [right; reflexivity | ].
    eexists. split; [ | reflexivity].
    rewrite <- Lu. apply group_hex_intro; [ | reflexivity].
    now rewrite hexc_true_hex.
  - eexists. eexists. split.
    { apply lit_intro with (x := "#"%char); reflexivity. }
    eexists. split.
    { left. unfold word. rewrite <- Ht. apply lits_intro.
      + rewrite Ht. reflexivity.
      + reflexivity. }
    eexists. split; [ | reflexivity].
    rewrite <- Lu. apply group_hex_intro; [ | reflexivity].
    now rewrite hexc_true_hex.
Qed.

Lemma block_cap st st2 :
  matches true blockRegex st st2 ->
  exists u, cap st2 = Some u /\ hex32_list u.
Proof.
  intros H. apply block_matches_inv in H.
  destruct H as (tag & u & _ & _ & Hu & Cu). eauto.
Qed.

(** The tag [block-] is no beginning of a run of hexadecimal
    characters, so the text after [#] is read in one way only. *)
Lemma block_tag_unique tag tag' u u' r r' :
  block_tag tag -> block_tag tag' -> hex32_list u -> hex32_list u' ->
  tag ++ u ++ r = tag' ++ u' ++ r' -> u = u'.
Proof.
  intros Ht Ht' [Lu Fu] [Lu' Fu'] E.
  assert (Hl : forall t, map lower_char t = chars "block-" ->
                         exists a b c d e f,
                           t = [a; b; c; d; e; f]
                           /\ lower_char c = "o"%char).
  { intros t H.
    destruct t as [ | a [ | b [ | c [ | d [ | e [ | f [ | g t]]]]]]];
      try discriminate.
    exists a, b, c, d, e, f. split; [reflexivity | ].
    simpl in H. now inversion H. }
  assert (Ho : forall c, lower_char c = "o"%char -> is_hex c = false).
  { intros c. each_char c; vm_compute; congruence. }
  destruct Ht as [-> | Ht], Ht' as [-> | Ht'].
  - simpl in E. apply app_inj_1 in E; [now destruct E | lia].
  - exfalso. apply Hl in Ht'.
    destruct Ht' as (a & b & c & d & e & f & -> & Hc).
    destruct u as [ | x1 [ | x2 [ | x3 u]]]; try discriminate.
    simpl in E. inversion E; subst.
    simpl in Fu. rewrite (Ho _ Hc) in Fu.
    rewrite !andb_false_r in Fu. simpl in Fu.
    destruct (is_hex a), (is_hex b); discriminate.
  - exfalso. apply Hl in Ht.
    destruct Ht as (a & b & c & d & e & f & -> & Hc).
    destruct u' as [ | x1 [ | x2 [ | x3 u']]]; try discriminate.
    simpl in E. inversion E; subst.
    simpl in Fu'. rewrite (Ho _ Hc) in Fu'.
    destruct (is_hex x1), (is_hex x2); discriminate.
  - assert (Lt : length tag = length tag').
    { rewrite <- (List.length_map lower_char tag),
        <- (List.length_map lower_char tag'). now rewrite Ht, Ht'. }
    apply app_inj_1 in E; [ | exact Lt]. destruct E as [_ E].
    apply app_inj_1 in E; [now destruct E | lia].
Qed.

Lemma block_rmatch_here p tag u r :
  block_tag tag -> hex32_list u ->
  exists res,
    rmatch true blockRegex (MState p ("#"%char :: tag ++ u ++ r) None) Some
    = Some res
    /\ cap res = Some u.
Proof.
  intros Ht Hu.
  destruct (block_matches_intro p tag u r None Ht Hu) as [st2 H].
  apply rmatch_some in H. destruct H as (res & E & H).
  exists res. split; [exact E | ].
  apply block_matches_inv in H. cbn [rest] in H.
  destruct H as (tag' & u' & Hl & Ht' & Hu' & Cu).
  rewrite Cu. f_equal. injection Hl as Hl. symmetry.
  now apply (block_tag_unique tag tag' u u' r (rest res)).
Qed.

(** No match of [blockRegex] starts at a character that is not [#]. *)
Lemma block_rmatch_other p x xs :
  Ascii.eqb x "#" = false ->
  rmatch true blockRegex (MState p (x :: xs) None) Some = None.
Proof.
  intros H. unfold blockRegex, cat. cbn [fold_right rmatch rest].
  now rewrite lit_hash, H.
Qed.

Lemma block_tag_chars tag :
  (tag = "" \/ toLowerCase tag = "block-")%string -> block_tag (chars tag).
Proof.
  intros [-> | H]; [now left | right].
  now rewrite <- toLowerCase_chars, H.
Qed.

Lemma block_tag_str tag :
  block_tag tag ->
  (str tag = "" \/ toLowerCase (str tag) = "block-")%string.
Proof.
  intros [-> | H]; [now left | right].
  apply chars_inj. now rewrite toLowerCase_chars, chars_str.
Qed.

Lemma extractBlockId_fragment s pre id :
  no_hash pre = true -> block_fragment_after s pre id ->
  matched_group true blockRegex s = Some id.
Proof.
  intros Hp (tag & rest & -> & Ht & Hid).
  unfold matched_group, exec.
  rewrite chars_app. simpl. rewrite !chars_app.
  rewrite exec_from_skip.
  - destruct (block_rmatch_here (0 + length (chars pre)) (chars tag)
                (chars id) (chars rest) (block_tag_chars tag Ht)
                (hex32_chars id Hid)) as (res & R & C).
    rewrite (exec_from_here _ _ _ _ _ R).
    unfold group1. rewrite C. simpl. rewrite str_chars.
    destruct Hid as [Lid _]. destruct id; [discriminate | reflexivity].
  - intros u1 [ | x u2] E N; [contradiction | ].
    simpl. apply block_rmatch_other.
    unfold no_hash in Hp. rewrite all_chars_forallb, E in Hp.
    rewrite forallb_app in Hp. apply andb_true_iff in Hp.
    destruct Hp as [_ Hp]. simpl in Hp. apply andb_true_iff in Hp.
    destruct Hp as [Hp _]. now apply negb_true_iff in Hp.
Qed.

Lemma extractBlockId_some s :
  is_Some (extractBlockId s)
  <-> exists pre id, block_fragment_after s pre id.
Proof.
  unfold extractBlockId. split.
  - destruct (negb (JsString.truthy s)); [intros [y H]; discriminate | ].
    destruct (matched_group true blockRegex s) as [g | ] eqn:E;
      [ | intros [y H]; discriminate].
    intros _. apply matched_group_inv in E.
    destruct E as (pre & l & st2 & u & Hs & M & Cu & ->).
    apply block_matches_inv in M. cbn [rest] in M.
    destruct M as (tag & u' & Hl & Ht & Hu & Cu').
    rewrite Cu in Cu'. injection Cu' as <-.
    exists (str pre), (str u), (str tag), (str (rest st2)).
    split; [ | split; [now apply block_tag_str | now apply hex32_of_list]].
    apply chars_inj. rewrite Hs, Hl. rewrite chars_app. simpl.
    now rewrite !chars_app, !chars_str.
  - intros (pre & id & tag & rest & -> & Ht & Hid).
    assert (Hn : JsString.truthy (pre ++ "#" ++ tag ++ id ++ rest)%string
                 = true) by (destruct pre; reflexivity).
    rewrite Hn. cbn [negb].
    destruct (matched_group true blockRegex
                (pre ++ "#" ++ tag ++ id ++ rest)%string) as [g | ] eqn:E;
      [eauto | ].
    exfalso. unfold matched_group, exec in E.
    destruct (exec_from true blockRegex 0
                (chars (pre ++ "#" ++ tag ++ id ++ rest)%string))
      as [m | ] eqn:X.
    + apply exec_from_inv in X. destruct X as (u & s' & _ & R).
      apply rmatch_sound in R. destruct R as (st1 & M & [= ->]).
      apply block_cap in M. destruct M as (u' & C & Hu).
      unfold group1 in E. rewrite C in E. simpl in E.
      now rewrite (truthy_str u' Hu) in E.
    + pose proof (exec_from_none _ _ _ _ X (chars pre)
                    ("#"%char :: chars tag ++ chars id ++ chars rest)) as N.
      rewrite chars_app in N. simpl in N. rewrite !chars_app in N.
      specialize (N eq_refl).
      destruct (block_rmatch_here (0 + length (chars pre)) (chars tag)
                  (chars id) (chars rest) (block_tag_chars tag Ht)
                  (hex32_chars id Hid)) as (res & R & _).
      simpl in R. rewrite R in N. discriminate.
Qed.

Lemma extractBlockId_result s y :
  extractBlockId s = Some y -> uuid_list (hexc false) (chars y).
Proof.
  unfold extractBlockId.
  destruct (negb (JsString.truthy s)); [discriminate | ].
  destruct (matched_group true blockRegex s) as [g | ] eqn:E;
    [ | discriminate].
  intros [= <-]. apply formatUuid_chars.
  eapply matched_group_hex32; [apply block_cap | exact E].
Qed.

End ValidationFacts.

(** ** Letter case: the patterns with the flag [i] *)

Module FoldingFacts.
Import JsString Regex Ids IdShapes Json Validation.
Import CharFacts StringFacts RegexFacts ExecFacts PatternFacts UuidFacts.
Import FormatFacts CaptureFacts PathFacts ValidationFacts.
Local Open Scope list_scope.

Lemma canonicalize_lower x :
  canonicalize true (lower_char x) = canonicalize true x.
Proof. each_char x; vm_compute; reflexivity. Qed.

Lemma white_lower x : is_white (lower_char x) = is_white x.
Proof. each_char x; vm_compute; reflexivity. Qed.

Lemma lit_lower c x : lit_matches true c (lower_char x) = lit_matches true c x.
Proof. unfold lit_matches. now rewrite canonicalize_lower. Qed.

Lemma class_lower ng rs x :
  class_matches true ng rs (lower_char x) = class_matches true ng rs x.
Proof.
  unfold class_matches, range_matches. now rewrite canonicalize_lower.
Qed.

Section Loops.
Variables body body' : mstate -> cont -> option mstate.
Hypothesis bodies :
  forall st k k',
    agree k k' ->
    body' (lower_state st) k' = option_map lower_state (body st k).

Lemma star_lower fuel :
  forall k k' st,
    agree k k' ->
    star_loop body' k' fuel (lower_state st)
    = option_map lower_state (star_loop body k fuel st).
Proof.
  induction fuel as [ | fuel IH]; intros k k' st H; simpl; [apply H | ].
  rewrite (bodies st
             (fun st1 => if Nat.eqb (pos st1) (pos st) then None
                         else star_loop body k fuel st1)).
  - destruct (body st _); [reflexivity | apply H].
  - intros st1. simpl. destruct (Nat.eqb (pos st1) (pos st));
      [reflexivity | now apply IH].
Qed.

Lemma repeat_lower n :
  forall k k' st,
    agree k k' ->
    repeat_loop body' k' n (lower_state st)
    = option_map lower_state (repeat_loop body k n st).
Proof.
  induction n as [ | n IH]; intros k k' st H; simpl; [apply H | ].
  apply bodies. intros st1. now apply IH.
Qed.
End Loops.

(** With the flag [i], the matcher takes the same way through the input
    in lower case. *)
Lemma rmatch_lower r :
  forall st k k',
    agree k k' ->
    rmatch true r (lower_state st) k'
    = option_map lower_state (rmatch true r st k).
Proof.
  induction r as [ | c | ng rs | r1 IH1 r2 IH2 | r1 IH1 r2 IH2 | r1 IH1
                 | n r1 IH1 | r1 IH1 | | ]; intros st k k' H.
  - apply H.
  - simpl. destruct (rest st) as [ | x xs]; [reflexivity | ]. simpl.
    rewrite lit_lower. destruct (lit_matches true c x); [ | reflexivity].
    apply (H (advance st xs)).
  - simpl. destruct (rest st) as [ | x xs]; [reflexivity | ]. simpl.
    rewrite class_lower.
    destruct (class_matches true ng rs x); [ | reflexivity].
    apply (H (advance st xs)).
  - simpl. apply IH1. intros st1. now apply IH2.
  - simpl. rewrite (IH1 st k k' H), (IH2 st k k' H).
    destruct (rmatch true r1 st k); reflexivity.
  - simpl. rewrite List.length_map.
    now apply (star_lower (rmatch true r1) (rmatch true r1) IH1).
  - simpl. now apply (repeat_lower (rmatch true r1) (rmatch true r1) IH1).
  - simpl. apply IH1. intros st1. simpl.
    rewrite List.firstn_map.
    apply (H (MState (pos st1) (rest st1)
                     (Some (firstn (pos st1 - pos st) (rest st))))).
  - simpl. destruct (Nat.eqb (pos st) 0); [apply H | reflexivity].
  - simpl. destruct (rest st); [apply H | reflexivity].
Qed.

Lemma exec_from_lower r s :
  forall p,
    exec_from true r p (map lower_char s)
    = option_map lower_state (exec_from true r p s).
Proof.
    assert (A : agree Some Some) by (intros st; reflexivity).
  induction s as [ | x s IH]; intros p; cbn [map exec_from].
  - change (MState p [] None) with (lower_state (MState p [] None)) at 1.
    rewrite (rmatch_lower r (MState p [] None) Some Some A).
    destruct (rmatch true r (MState p [] None) Some); reflexivity.
  - change (MState p (lower_char x :: map lower_char s) None)
      with (lower_state (MState p (x :: s) None)).
    rewrite (rmatch_lower r (MState p (x :: s) None) Some Some A).
    destruct (rmatch true r (MState p (x :: s) None) Some);
      [reflexivity | apply IH].
Qed.

Lemma str_lower u : str (map lower_char u) = toLowerCase (str u).
Proof.
  apply chars_inj. now rewrite toLowerCase_chars, !chars_str.
Qed.

Lemma truthy_lower s : JsString.truthy (toLowerCase s) = JsString.truthy s.
Proof. destruct s; reflexivity. Qed.

Lemma test_lower r s : test true r (toLowerCase s) = test true r s.
Proof.
  unfold test, exec. rewrite toLowerCase_chars, exec_from_lower.
  destruct (exec_from true r 0 (chars s)); reflexivity.
Qed.

Lemma matched_group_lower r s :
  matched_group true r (toLowerCase s)
  = option_map toLowerCase (matched_group true r s).
Proof.
  unfold matched_group, exec. rewrite toLowerCase_chars, exec_from_lower.
  destruct (exec_from true r 0 (chars s)) as [m | ]; [ | reflexivity].
  unfold group1. simpl. destruct (cap m) as [u | ]; [ | reflexivity].
  simpl. rewrite str_lower, truthy_lower.
  destruct (JsString.truthy (str u)); reflexivity.
Qed.

Lemma trimStart_lower s : trimStart (toLowerCase s) = toLowerCase (trimStart s).
Proof.
  induction s as [ | c s IH]; simpl; [reflexivity | ].
  rewrite white_lower. destruct (is_white c); [exact IH | reflexivity].
Qed.

Lemma trimEnd_lower s : trimEnd (toLowerCase s) = toLowerCase (trimEnd s).
Proof.
  induction s as [ | c s IH]; simpl; [reflexivity | ].
  rewrite IH, white_lower.
  destruct (trimEnd s); simpl; [destruct (is_white c) | ]; reflexivity.
Qed.

Lemma trim_lower s : trim (toLowerCase s) = toLowerCase (trim s).
Proof. unfold trim. now rewrite trimStart_lower, trimEnd_lower. Qed.

Lemma formatUuid_lower g : formatUuid (toLowerCase g) = formatUuid g.
Proof. unfold formatUuid. now rewrite toLowerCase_idem. Qed.

Lemma extractNotionId_lower s :
  extractNotionId (toLowerCase s) = extractNotionId s.
Proof.
  unfold extractNotionId.
  rewrite truthy_lower, trim_lower, !test_lower, !matched_group_lower.
  rewrite toLowerCase_idem, formatUuid_lower.
  destruct (negb (JsString.truthy s)); [reflexivity | ].
  destruct (test true uuidRegex (trim s)); [reflexivity | ].
  destruct (test true compactUuidRegex (trim s)); [reflexivity | ].
  destruct (matched_group true pathRegex (trim s)); simpl;
    [now rewrite formatUuid_lower | ].
  destruct (matched_group true queryRegex (trim s)); simpl;
    [now rewrite formatUuid_lower | ].
  destruct (matched_group true anyRegex (trim s)); simpl;
    [now rewrite formatUuid_lower | reflexivity].
Qed.

Lemma extractBlockId_lower s :
  extractBlockId (toLowerCase s) = extractBlockId s.
Proof.
  unfold extractBlockId. rewrite truthy_lower, matched_group_lower.
  destruct (negb (JsString.truthy s)); [reflexivity | ].
  destruct (matched_group true blockRegex s); simpl;
    [now rewrite formatUuid_lower | reflexivity].
Qed.

Lemma isValidNotionId_lower s :
  isValidNotionId (VStr (toLowerCase s)) = isValidNotionId (VStr s).
Proof.
  unfold isValidNotionId.
  now rewrite truthy_lower, trim_lower, !test_lower.
Qed.

(** *** The two forms of an identifier *)

Lemma filter_hyphens (a b c d e : list ascii) :
  forallb is_hex (a ++ b ++ c ++ d ++ e) = true ->
  List.filter (fun x => negb (Ascii.eqb x "-"))
    (a ++ "-" :: b ++ "-" :: c ++ "-" :: d ++ "-" :: e)%char
  = a ++ b ++ c ++ d ++ e.
Proof.
  intros F. rewrite !forallb_app, !andb_true_iff in F.
  destruct F as (Fa & Fb & Fc & Fd & Fe).
  assert (H : forall u, forallb is_hex u = true ->
                        List.filter (fun x => negb (Ascii.eqb x "-")) u = u).
  { intros u Fu. apply filter_all. rewrite forallb_forall in *.
    intros x Hx. now rewrite (hex_not_hyphen x (Fu x Hx)). }
  repeat (rewrite List.filter_app; cbn [List.filter Ascii.eqb Bool.eqb negb]).
  now rewrite !H by assumption.
Qed.

Lemma grouped_parts {A} (a b c d e : list A) (h : A) :
  length a = 8 -> length b = 4 -> length c = 4 -> length d = 4 ->
  length e = 12 ->
  let l := a ++ b ++ c ++ d ++ e in
  (firstn 8 l = a /\ firstn 4 (skipn 8 l) = b /\ firstn 4 (skipn 12 l) = c
   /\ firstn 4 (skipn 16 l) = d /\ firstn 12 (skipn 20 l) = e).
Proof.
  intros La Lb Lc Ld Le l. unfold l.
  assert (F : forall n (u v : list A), length u = n -> firstn n (u ++ v) = u).
  { intros n u v <-. rewrite List.firstn_app, Nat.sub_diag. simpl.
    now rewrite List.firstn_all, List.app_nil_r. }
  assert (S : forall n (u v : list A), length u = n -> skipn n (u ++ v) = v).
  { intros n u v <-. rewrite List.skipn_app, Nat.sub_diag. simpl.
    now rewrite List.skipn_all. }
  repeat split.
  - now apply F.
  - rewrite (S 8 a) by exact La. now apply F.
  - rewrite (List.app_assoc a b), (S 12 (a ++ b))
      by (rewrite List.length_app; lia).
    now apply F.
  - rewrite (List.app_assoc a b), (List.app_assoc (a ++ b) c),
      (S 16 ((a ++ b) ++ c)) by (rewrite !List.length_app; lia).
    now apply F.
  - rewrite (List.app_assoc a b), (List.app_assoc (a ++ b) c),
      (List.app_assoc ((a ++ b) ++ c) d), (S 20 (((a ++ b) ++ c) ++ d))
      by (rewrite !List.length_app; lia).
    rewrite <- Le. apply List.firstn_all.
Qed.

(** Deleting the hyphens of a hyphenated identifier leaves its 32
    hexadecimal characters, and [formatUuid] makes of them the
    identifier in lower case. *)
Lemma strip_hyphens_hyphenated y :
  hyphenated y ->
  hex32 (strip_hyphens y)
  /\ formatUuid (strip_hyphens y) = toLowerCase y.
Proof.
  intros (a & b & c & d & e & Hy & La & Lb & Lc & Ld & Le & F).
  assert (Hs : chars (strip_hyphens y) = a ++ b ++ c ++ d ++ e).
  { rewrite strip_hyphens_chars, Hy. now apply filter_hyphens. }
  split.
  - split.
    + rewrite <- chars_length, Hs, !List.length_app. lia.
    + now rewrite all_chars_forallb, Hs.
  - apply chars_inj.
        rewrite formatUuid_grouped, Hs, toLowerCase_chars, Hy.
    assert (R : map lower_char
                  (a ++ "-" :: b ++ "-" :: c ++ "-" :: d ++ "-" :: e)%char
                = (map lower_char a ++ "-" :: map lower_char b ++ "-"
                     :: map lower_char c ++ "-" :: map lower_char d ++ "-"
                     :: map lower_char e)%char)
      by (repeat (rewrite List.map_app; cbn [map]); reflexivity).
    assert (L : map lower_char (a ++ b ++ c ++ d ++ e)
                = map lower_char a ++ map lower_char b ++ map lower_char c
                    ++ map lower_char d ++ map lower_char e)
      by now rewrite !List.map_app.
    rewrite R, L. unfold grouped.
    destruct (grouped_parts (map lower_char a) (map lower_char b)
                (map lower_char c) (map lower_char d) (map lower_char e)
                "-"%char) as (-> & -> & -> & -> & ->);
      try (now rewrite List.length_map).
    reflexivity.
Qed.

Lemma hyphenated_trim y : hyphenated y -> trim y = y.
Proof.
  intros H. apply trim_fixed. rewrite all_chars_forallb.
  apply (uuid_list_forallb is_hex); [ | reflexivity | exact H].
  intros x Hx. now rewrite hex_not_white.
Qed.

Lemma hex32_trim h : hex32 h -> trim h = h.
Proof.
  intros [_ H]. apply trim_fixed. revert H. apply all_chars_impl.
  intros x Hx. now rewrite hex_not_white.
Qed.

Lemma extractNotionId_hyphenated y :
  hyphenated y -> extractNotionId y = Some (toLowerCase y).
Proof.
  intros H. unfold extractNotionId.
  assert (Ht : JsString.truthy y = true).
  { destruct y; [ | reflexivity]. now apply not_hyphenated_empty in H. }
  rewrite Ht, (hyphenated_trim y H). cbn [negb].
  apply test_uuid_hyphenated in H. now rewrite H.
Qed.

Lemma extractNotionId_compact h :
  hex32 h -> extractNotionId h = Some (formatUuid h).
Proof.
  intros H. unfold extractNotionId.
  assert (Ht : JsString.truthy h = true).
  { destruct h; [ | reflexivity]. destruct H as [H _]. discriminate. }
  rewrite Ht, (hex32_trim h H). cbn [negb].
  destruct (test true uuidRegex h) eqn:E.
  - exfalso. apply test_uuid_hyphenated, uuid_list_length in E.
    destruct H as [H _]. rewrite chars_length in E. lia.
  - apply test_compact_hex32 in H. now rewrite H.
Qed.

End FoldingFacts.

(** ** Consumers of the iterator, and the iterator over templates *)

Module ConsumerFacts.
Import Json Pagination Consumers PaginationFacts.
Local Open Scope list_scope.

Section Endless.
Context {Item Err World : Type}.
Variable listFn : obj -> World -> (Err + PaginatedList Item) * World.
Hypothesis always : endless listFn.

Lemma step_live g w :
  live g ->
  exists s g' w',
    gen_step listFn g w = (s, g', w') /\ live g'
    /\ (s = Internal \/ exists x, s = Yields x).
Proof.
  destruct g as [a c | a resp [ | x pending] | ]; simpl; intros H.
  - destruct (always (<["start_cursor" := c]> a) w) as (resp & w' & -> & T).
    do 3 eexists. split; [reflexivity | ]. simpl. auto.
  - rewrite H. do 3 eexists. split; [reflexivity | ]. simpl. auto.
  - do 3 eexists. split; [reflexivity | ]. simpl. eauto.
  - contradiction.
Qed.

Lemma next_live fuel :
  forall g w,
    live g ->
    gen_next listFn fuel g w = None
    \/ exists x g' w',
         gen_next listFn fuel g w = Some (IterValue x, g', w') /\ live g'.
Proof.
  induction fuel as [ | fuel IH]; intros g w H; [now left | ].
  rewrite gen_next_S.
  destruct (step_live g w H) as (s & g' & w' & -> & L & [-> | [x ->]]).
  - now apply IH.
  - right. eauto.
Qed.

Lemma collect_live fuel :
  forall g w acc, live g -> collect_loop listFn fuel g w acc = None.
Proof.
  induction fuel as [ | fuel IH]; intros g w acc H; [reflexivity | ].
  rewrite collect_S.
  destruct (next_live (S fuel) g w H) as [-> | (x & g' & w' & -> & L)];
    [reflexivity | ].
  now apply IH.
Qed.
End Endless.

Section Lazy.
Context {Item Err World : Type}.
Variable listFn : obj -> World -> (Err + PaginatedList Item) * World.

(** Taking items that the generator has at hand asks for no page. *)
Lemma pull_pending n :
  forall fuel a response pending w,
    n <= length pending ->
    pull listFn n (S fuel) (AtYield a response pending) w
    = Some (map IterValue (firstn n pending),
            AtYield a response (skipn n pending), w).
Proof.
  induction n as [ | n IH]; intros fuel a response pending w H;
    [reflexivity | ].
  destruct pending as [ | x pending]; [simpl in H; lia | ].
  cbn [pull]. rewrite gen_next_S. cbn [gen_step].
  rewrite IH by (simpl in H; lia). reflexivity.
Qed.

Lemma pull_first_page n fuel args cursor w response w' :
  listFn (<["start_cursor" := cursor]> args) w = (inr response, w') ->
  n <= length (results response) ->
  pull listFn n (S (S fuel)) (AtCall args cursor) w
  = match n with
    | O => Some ([], AtCall args cursor, w)
    | S _ =>
        Some (map IterValue (firstn n (results response)),
              AtYield args response (skipn n (results response)), w')
    end.
Proof.
  intros E H. destruct n as [ | n]; [reflexivity | ].
  destruct (results response) as [ | x pending] eqn:R; [simpl in H; lia | ].
  cbn [pull]. rewrite gen_next_S. cbn [gen_step]. rewrite E.
  rewrite gen_next_S. cbn [gen_step]. rewrite R.
  rewrite pull_pending by (simpl in H; lia). reflexivity.
Qed.
End Lazy.

Section Drained.
Context {Item Err World : Type}.
Variable listFn : obj -> World -> (Err + PaginatedList Item) * World.

(** What the collecting loop returns, from what a consumer of the
    iterator sees. *)
Lemma collect_of_drain fuel :
  forall g w acc seen w',
    drain listFn fuel g w = Some (seen, w') ->
    exists items last,
      seen = map IterValue items ++ [last]
      /\ (forall x, last <> IterValue x)
      /\ collect_loop listFn fuel g w acc
         = Some (match last with
                 | IterThrow e => inl e
                 | _ => inr (acc ++ items)
                 end, w').
Proof.
  induction fuel as [ | fuel IH]; intros g w acc seen w' H; [discriminate | ].
  rewrite drain_S in H. rewrite collect_S.
  destruct (gen_next listFn (S fuel) g w) as [[[[x | | e] g'] w1] | ];
    [ | | | discriminate].
  - destruct (drain listFn fuel g' w1) as [[seen' w''] | ] eqn:D;
      [ | discriminate].
    injection H as <- <-.
    destruct (IH g' w1 (acc ++ [x]) seen' w'' D) as (items & last & -> & N & E).
    exists (x :: items), last. split; [reflexivity | ].
    split; [exact N | ]. rewrite E. rewrite <- List.app_assoc. reflexivity.
  - injection H as <- <-. exists [], IterDone.
    split; [reflexivity | ]. split; [discriminate | ].
    now rewrite List.app_nil_r.
  - injection H as <- <-. exists [], (IterThrow e).
    split; [reflexivity | ]. split; [discriminate | reflexivity].
Qed.
End Drained.

End ConsumerFacts.

Module TemplatesFacts.
Import Json Templates PaginationFacts.
Local Open Scope list_scope.

Section Simulation.
Context {Template Err World : Type}.
Variable listTemplates :
  obj -> World -> (Err + ListDataSourceTemplatesResponse Template) * World.

Abbreviation listFn := (as_listFn listTemplates).

Lemma templates_step_sim g w :
  Pagination.gen_step listFn (as_gen g) w
  = let '(s, g', w') := templates_step listTemplates g w in
    (s, as_gen g', w').
Proof.
  destruct g as [a c | a response [ | x pending] | ]; simpl;
    try reflexivity.
  - unfold as_listFn.
    destruct (listTemplates (<["start_cursor" := c]> a) w) as [[e | r] w'];
      reflexivity.
  - destruct (truthy (next_cursor response)); reflexivity.
Qed.

Lemma templates_next_sim fuel :
  forall g w,
    Pagination.gen_next listFn fuel (as_gen g) w
    = as_result (templates_next listTemplates fuel g w).
Proof.
  induction fuel as [ | fuel IH]; intros g w; [reflexivity | ].
  rewrite gen_next_S, templates_step_sim. cbn [templates_next].
  destruct (templates_step listTemplates g w) as [[[ | x | | e] g'] w'];
    try reflexivity.
  apply IH.
Qed.

Lemma collect_templates_sim fuel :
  forall g w acc,
    Pagination.collect_loop listFn fuel (as_gen g) w acc
    = collect_templates listTemplates fuel g w acc.
Proof.
  induction fuel as [ | fuel IH]; intros g w acc; [reflexivity | ].
  rewrite collect_S, templates_next_sim. cbn [collect_templates].
  destruct (templates_next listTemplates (S fuel) g w)
    as [[[[x | | e] g'] w'] | ]; try reflexivity.
  apply IH.
Qed.
End Simulation.

End TemplatesFacts.

(** ** More on rich text and on the fullness predicates *)

Module RenderingFacts.
Import RichText RichTextKinds RichTextFacts.

Lemma framing_id : framing (fun x => x).
Proof. exists "", "". intros x. simpl. now rewrite append_nil_r. Qed.

Lemma framing_wrap f b a :
  framing f -> framing (fun x => b ++ f x ++ a).
Proof.
  intros (pre & post & H). exists (b ++ pre), (post ++ a). intros x.
  rewrite H. now rewrite !append_assoc.
Qed.

Lemma framing_if (c : bool) f b a :
  framing f -> framing (fun x => if c then b ++ f x ++ a else f x).
Proof.
  intros H. destruct c; [now apply framing_wrap | exact H].
Qed.

Lemma framing_ext f g : (forall x, f x = g x) -> framing f -> framing g.
Proof.
  intros E (pre & post & H). exists pre, post. intros x.
  now rewrite <- E.
Qed.

End RenderingFacts.

(** ** Pages and blocks *)

Module PageHelperFacts.
Import Json Shapes RichText Pages PageHelpers Examples MoreExamples.
Import ShapesFacts PagesFacts.
Local Open Scope list_scope.

Lemma map_keys_enumerates : enumerates map_keys.
Proof.
  intros o. unfold map_keys. split.
  - apply NoDup_fst_map_to_list.
  - intros k. rewrite <- list_elem_of_In, list_elem_of_fmap. split.
    + intros ([k' v] & -> & H). apply elem_of_map_to_list in H. eauto.
    + intros [v H]. exists (k, v). split; [reflexivity | ].
      now apply elem_of_map_to_list.
Qed.

Lemma map_VStr_inj names names' :
  map VStr names = map VStr names' -> names = names'.
Proof.
  revert names'. induction names as [ | n names IH]; intros [ | n' names'];
    simpl; intros H; try discriminate; [reflexivity | ].
  injection H as -> H. f_equal. now apply IH.
Qed.

(** *** Where [getPageProperty] throws *)

Lemma plain_text_of_throws v :
  plain_text_of v = Throw <-> bad_rich_text v = true.
Proof.
  destruct v as [ | | | | | items | ]; simpl;
    try (split; discriminate).
  destruct (existsb nullish items); split; auto; discriminate.
Qed.

Lemma map_name_throws v : map_name v = Throw <-> bad_options v = true.
Proof.
  destruct v as [ | | | | | items | ]; simpl; try tauto.
  destruct (existsb nullish items); split; auto; discriminate.
Qed.

Lemma dispatch_throws tag (property : obj) :
  dispatch tag property = Throw <-> throwing tag property = true.
Proof.
  unfold dispatch, throwing.
  destruct (String.eqb_spec tag "title") as [-> | _].
  { cbn [orb]. unfold plain. destruct (has "title" property); simpl.
    - apply plain_text_of_throws.
    - split; discriminate. }
  destruct (String.eqb_spec tag "rich_text") as [-> | _].
  { cbn [orb]. unfold plain. destruct (has "rich_text" property); simpl.
    - apply plain_text_of_throws.
    - split; discriminate. }
  cbn [orb].
  destruct (String.eqb_spec tag "number") as [-> | _].
  { cbn. unfold raw. destruct (has "number" property); split; discriminate. }
  destruct (String.eqb_spec tag "select") as [-> | _].
  { cbn. unfold option_name.
    destruct (has "select" property); split; discriminate. }
  destruct (String.eqb_spec tag "multi_select") as [-> | _].
  { unfold option_names. destruct (has "multi_select" property); simpl.
    - apply map_name_throws.
    - split; discriminate. }
  unfold raw, option_name.
  repeat match goal with
         | |- context [String.eqb tag ?k] => destruct (String.eqb tag k)
         | |- context [has ?k property] => destruct (has k property)
         end; split; discriminate.
Qed.

Lemma member_falsy v name property :
  truthy v = false -> member v name <> VObj property.
Proof.
  destruct v as [ | | b | n | s | items | o]; simpl; try discriminate.
  destruct s; [ | discriminate]. intros _.
  destruct (String.eqb name "length"); [discriminate | ].
  destruct (array_index name) as [i | ]; [ | discriminate].
  destruct i; discriminate.
Qed.

Lemma getPageProperty_throws page name :
  getPageProperty page name = Throw
  <-> isFullPage page = true
      /\ exists property tag,
           member (get page "properties") name = VObj property
           /\ get property "type" = VStr tag
           /\ throwing tag property = true.
Proof.
  unfold getPageProperty.
  destruct (isFullPage page); cbn [negb orb];
    [ | split; [discriminate | intros [H _]; discriminate]].
  destruct (truthy (get page "properties")) eqn:T; cbn [negb].
  2:{ split; [discriminate | ].
      intros (_ & property & tag & H & _). exfalso.
      now apply (member_falsy _ name property T). }
  destruct (member (get page "properties") name) as [ | | b | n | s | l | o]
    eqn:M; cbn [truthy negb];
    try (split; [discriminate | ];
         intros (_ & property & tag & H & _); discriminate);
    try (match goal with
         | |- context [if ?c then _ else _] => destruct c
         end; split; [discriminate | | discriminate | ];
         intros (_ & property & tag & H & _); discriminate).
  destruct (get o "type") as [ | | b | n | tag | l | o'] eqn:Ty;
    try (split; [discriminate | ];
         intros (_ & property & tag' & [= <-] & H & _); congruence).
  rewrite dispatch_throws. split.
  - intros H. split; [reflexivity | ]. exists o, tag. auto.
  - intros (_ & property & tag' & [= <-] & H & Ht).
    rewrite Ty in H. now injection H as <-.
Qed.

(** *** The loop of [getPageTitle] *)

Lemma first_title_passes v properties :
  passed_by v = true -> first_title (v :: properties) = first_title properties.
Proof.
  unfold passed_by, is_title.
  destruct v as [ | | b | n | s | l | o]; simpl; try discriminate;
    try reflexivity.
  intros H. apply negb_true_iff in H. now rewrite H.
Qed.

Lemma first_title_title (o : obj) properties :
  is_title (VObj o) = true ->
  first_title (VObj o :: properties) = plain_text_of (get o "title").
Proof. simpl. now intros ->. Qed.

Lemma first_title_none properties :
  forallb passed_by properties = true ->
  first_title properties = Return (VStr "").
Proof.
  induction properties as [ | v properties IH]; [reflexivity | ].
  cbn [forallb]. rewrite andb_true_iff. intros [Hv H].
  rewrite first_title_passes by exact Hv. now apply IH.
Qed.

Lemma first_title_found (props : obj) name property :
  props !! name = Some (VObj property) ->
  is_title (VObj property) = true ->
  (forall k v, k <> name -> props !! k = Some v -> passed_by v = true) ->
  forall names,
    (forall k, In k names -> is_Some (props !! k)) ->
    In name names ->
    first_title (map (get props) names) = plain_text_of (get property "title").
Proof.
  intros Hn Ht Hp names.
  induction names as [ | k names IH]; intros Hk Hin; [contradiction | ].
  cbn [map]. destruct (String.eqb_spec k name) as [-> | Ne].
  - unfold get at 1. rewrite Hn. now apply first_title_title.
  - destruct (Hk k (or_introl eq_refl)) as [v Hv].
    rewrite first_title_passes.
    + apply IH; [intros k' H'; apply Hk; now right | ].
      destruct Hin as [E | H]; [congruence | exact H].
    + unfold get. rewrite Hv. now apply (Hp k).
Qed.

Lemma getPageProperty_title (page props property : obj) name :
  isFullPage page = true ->
  page !! "properties" = Some (VObj props) ->
  props !! name = Some (VObj property) ->
  is_title (VObj property) = true ->
  getPageProperty page name = plain_text_of (get property "title").
Proof.
  intros Hf Hp Hn Ht. unfold is_title in Ht.
  apply andb_true_iff in Ht. destruct Ht as [Ht Hh].
  apply get_str_iff in Ht.
  rewrite (getPageProperty_dispatch page props property name "title"
             Hf Hp Hn Ht).
  cbn [dispatch String.eqb Ascii.eqb Bool.eqb]. unfold plain.
  now rewrite Hh.
Qed.

(** *** The branches of [getBlockPlainText] *)

Lemma block_dispatch_known tag (block : obj) :
  In tag text_kinds -> block_dispatch tag block = block_text tag block.
Proof.
  unfold text_kinds. simpl. intros H.
  repeat (destruct H as [<- | H]; [reflexivity | ]). contradiction.
Qed.

Lemma block_dispatch_unknown tag (block : obj) :
  ~ In tag text_kinds -> block_dispatch tag block = Return (VStr "").
Proof.
  intros Hn. unfold block_dispatch.
  repeat match goal with
         | |- context [String.eqb tag ?k] =>
             let E := fresh "E" in
             destruct (String.eqb tag k) eqn:E;
             [apply String.eqb_eq in E; exfalso; apply Hn; rewrite E;
              unfold text_kinds; simpl; tauto | ]
         end.
  reflexivity.
Qed.

Lemma in_text_kinds_dec tag : {In tag text_kinds} + {~ In tag text_kinds}.
Proof. apply in_dec, string_dec. Qed.

Lemma isFullBlock_iff (block : obj) :
  isFullBlock block = true
  <-> block !! "object" = Some (VStr "block") /\ is_Some (block !! "type").
Proof.
  unfold isFullBlock. now rewrite andb_true_iff, get_str_iff, has_iff.
Qed.

(** *** The loop of [getPagePropertiesAsObject] *)

Lemma assign_lookup (result : obj) key v name :
  assign result key v !! name
  = if String.eqb name key && negb (String.eqb key "__proto__")
    then Some v else result !! name.
Proof.
  unfold assign. destruct (String.eqb_spec key "__proto__") as [-> | Ne];
    cbn [negb]; [now rewrite andb_false_r | ].
  rewrite andb_true_r. destruct (String.eqb_spec name key) as [-> | Nk].
  - apply lookup_insert_eq.
  - apply lookup_insert_ne. congruence.
Qed.

Lemma assign_all_throws page names :
  forall result,
    assign_all page names result = Throw
    <-> exists name, In name names /\ getPageProperty page name = Throw.
Proof.
  induction names as [ | k names IH]; intros result; cbn [assign_all].
  - split; [discriminate | intros (name & [] & _)].
  - destruct (getPageProperty page k) as [v | ] eqn:E.
    + rewrite IH. split.
      * intros (name & H & Hn). exists name. split; [now right | exact Hn].
      * intros (name & [<- | H] & Hn); [congruence | eauto].
    + split; [ | reflexivity]. intros _. exists k. split; [now left | exact E].
Qed.

Lemma assign_all_returns page names :
  forall result v,
    assign_all page names result = Return v ->
    exists r,
      v = VObj r
      /\ forall name,
           r !! name
           = if existsb (String.eqb name) names
                && negb (String.eqb name "__proto__")
             then match getPageProperty page name with
                  | Return w => Some w
                  | Throw => None
                  end
             else result !! name.
Proof.
  induction names as [ | k names IH]; intros result v; cbn [assign_all].
  - intros [= <-]. exists result. split; [reflexivity | ]. now intros name.
  - destruct (getPageProperty page k) as [w | ] eqn:E; [ | discriminate].
    intros H. apply IH in H. destruct H as (r & -> & Hr).
        exists r. split; [reflexivity | ]. intros name.
    rewrite Hr, assign_lookup. cbn [existsb].
    destruct (String.eqb_spec name k) as [-> | Nk]; cbn [orb andb];
      [ | reflexivity].
    destruct (existsb (String.eqb k) names), (String.eqb k "__proto__");
      cbn [negb andb]; rewrite ?E; reflexivity.
Qed.

Lemma existsb_eqb name names :
  existsb (String.eqb name) names = true <-> In name names.
Proof.
  rewrite existsb_exists. split.
  - intros (k & H & E). apply String.eqb_eq in E. now subst.
  - intros H. exists name. split; [exact H | apply String.eqb_refl].
Qed.

(** Behind the guard [!page.properties], [Object.keys] does not
    throw. *)
Lemma keys_truthy own_keys v :
  truthy v = true -> exists names, keys own_keys v = Some names.
Proof. destruct v; simpl; try discriminate; eauto. Qed.

(** *** The properties of the sample pages *)

Lemma sample_others k v :
  k <> "Name" -> sample_properties !! k = Some v -> passed_by v = true.
Proof.
  unfold sample_properties. intros Hk H.
  repeat (apply lookup_insert_Some in H;
          destruct H as [[<- <-] | [_ H]];
          [first [reflexivity | congruence] | ]).
  now rewrite lookup_empty in H.
Qed.

Lemma select_null_others k v :
  select_null_properties !! k = Some v -> passed_by v = true.
Proof.
  unfold select_null_properties. intros H.
  apply lookup_insert_Some in H. destruct H as [[<- <-] | [_ H]];
    [reflexivity | ].
  now rewrite lookup_empty in H.
Qed.

End PageHelperFacts.

(** * Further properties of the helpers *)

Module Extras.
Import JsString Regex Ids IdShapes Examples MoreExamples.
Import CharFacts StringFacts UuidFacts FormatFacts CaptureFacts.
Import Json Validation ValidationFacts FoldingFacts.

(** ** Identifiers *)

(** X1.  [extractNotionId] returns [null] exactly when the trimmed input
    is not a hyphenated identifier and has nowhere 32 hexadecimal
    characters in a row. *)
Theorem extractNotionId_null_iff (s : string) :
  extractNotionId s = None
  <-> ~ hyphenated (trim s) /\ ~ has_hex32 (trim s).
Proof. apply extractNotionId_none. Qed.

(** X2.  [isValidNotionId] holds of the strings whose trimmed text is a
    hyphenated identifier or 32 hexadecimal characters, in any letter
    case, and of nothing else: not of a value that is no string. *)
Theorem isValidNotionId_iff (id : value) :
  isValidNotionId id = true
  <-> exists s, id = VStr s /\ (hyphenated (trim s) \/ hex32 (trim s)).
Proof.
  split.
  - destruct id as [ | | b | n | s | l | o]; try discriminate.
    intros H. exists s. split; [reflexivity | ].
    now apply isValidNotionId_string.
  - intros (s & -> & H). now apply isValidNotionId_string.
Qed.

(** X3.  What [isValidNotionId] accepts, [extractNotionId] extracts: the
    result has the canonical form and the hexadecimal digits of the
    trimmed input, in lower case. *)
Theorem valid_ids_are_extracted (s : string) :
  isValidNotionId (VStr s) = true ->
  exists y,
    extractNotionId s = Some y
    /\ canonical y = true
    /\ strip_hyphens y = toLowerCase (strip_hyphens (trim s)).
Proof.
  intros H. unfold isValidNotionId in H. unfold extractNotionId.
  destruct (negb (JsString.truthy s)); [discriminate | ].
  destruct (test true uuidRegex (trim s)) eqn:E1.
  - exists (toLowerCase (trim s)). split; [reflexivity | ].
    split; [ | apply strip_hyphens_lower].
    apply canonical_chars. rewrite toLowerCase_chars.
    now apply uuid_list_lower, test_uuid_iff.
  - cbv zeta in H. rewrite H. apply compact_hex32 in H.
    exists (formatUuid (trim s)). split; [reflexivity | ].
    split; [now apply canonical_chars, formatUuid_chars | ].
    rewrite (strip_hyphens_formatUuid _ H).
    destruct H as [_ H]. now rewrite (strip_hyphens_hex _ H).
Qed.

Lemma valid_ids_are_extracted_witness :
  isValidNotionId (VStr " ABC123DE-F456-7890-1234-5678901234AB ") = true
  /\ exists y,
       extractNotionId " ABC123DE-F456-7890-1234-5678901234AB " = Some y
       /\ canonical y = true
       /\ strip_hyphens y
          = toLowerCase
              (strip_hyphens (trim " ABC123DE-F456-7890-1234-5678901234AB ")).
Proof.
  assert (H : isValidNotionId (VStr " ABC123DE-F456-7890-1234-5678901234AB ")
              = true) by (vm_compute; reflexivity).
  split; [exact H | ].
  exact (valid_ids_are_extracted _ H).
Defined.

(** X4.  Every identifier that [extractNotionId], [extractDatabaseId],
    [extractPageId] or [extractBlockId] returns has the canonical form,
    which is 36 characters long, and [isValidNotionId] accepts it. *)
Theorem extracted_ids_are_valid (x y : string) :
  extractNotionId x = Some y \/ extractDatabaseId x = Some y
  \/ extractPageId x = Some y \/ extractBlockId x = Some y ->
  canonical y = true /\ String.length y = 36
  /\ isValidNotionId (VStr y) = true.
Proof.
  unfold extractDatabaseId, extractPageId.
  intros [H | [H | [H | H]]]; apply canonical_valid;
    try (now apply (extractNotionId_result x));
    now apply (extractBlockId_result x).
Qed.

Lemma extracted_ids_are_valid_witness :
  extractBlockId "https://notion.so/Page#block-ABCDEF00112233445566778899AABBCC"
  = Some "abcdef00-1122-3344-5566-778899aabbcc"
  /\ canonical "abcdef00-1122-3344-5566-778899aabbcc" = true
  /\ isValidNotionId (VStr "abcdef00-1122-3344-5566-778899aabbcc") = true.
Proof.
  assert (H : extractBlockId
                "https://notion.so/Page#block-ABCDEF00112233445566778899AABBCC"
              = Some "abcdef00-1122-3344-5566-778899aabbcc")
    by (vm_compute; reflexivity).
  split; [exact H | ].
  pose proof (extracted_ids_are_valid _ _
                (or_intror (or_intror (or_intror H)))) as (Hc & _ & Hv).
  exact (conj Hc Hv).
Defined.

(** X5.  White space before and after the input changes neither the
    result of [extractNotionId] nor that of [isValidNotionId]. *)
Theorem surrounding_white_space_is_ignored (ws s ws' : string) :
  blank ws = true -> blank ws' = true ->
  extractNotionId (ws ++ s ++ ws') = extractNotionId s
  /\ isValidNotionId (VStr (ws ++ s ++ ws')) = isValidNotionId (VStr s).
Proof.
  intros H H'. pose proof (trim_blank ws s ws' H H') as E. split.
  - destruct s as [ | c s].
    + apply extractNotionId_blank. now rewrite E.
    + apply extractNotionId_trimmed; [ | discriminate | exact E].
      destruct ws; discriminate.
  - apply Bool.eq_iff_eq_true. rewrite !isValidNotionId_string.
    now rewrite E.
Qed.

Lemma surrounding_white_space_is_ignored_witness :
  extractNotionId ("  " ++ "notion.so/Doc-" ++ id_a ++ " ")
  = extractNotionId ("notion.so/Doc-" ++ id_a).
Proof.
  exact (proj1 (surrounding_white_space_is_ignored
                  "  " ("notion.so/Doc-" ++ id_a) " " eq_refl eq_refl)).
Defined.

(** X6.  When the first [#] of the input begins a fragment [#<id>] or
    [#block-<id>] with 32 hexadecimal characters [id], [extractBlockId]
    returns the hyphenated lower-case form of [id], whatever precedes
    the [#]. *)
Theorem extractBlockId_first_fragment (s pre id : string) :
  no_hash pre = true -> block_fragment_after s pre id ->
  extractBlockId s = Some (formatUuid id).
Proof.
  intros Hp Hf. unfold extractBlockId.
  rewrite (extractBlockId_fragment s pre id Hp Hf).
  destruct Hf as (tag & rest & -> & _). now destruct pre.
Qed.

Lemma extractBlockId_first_fragment_witness :
  block_fragment_after
    ("https://notion.so/Page-" ++ id_a ++ "#block-" ++ id_b)
    ("https://notion.so/Page-" ++ id_a) id_b
  /\ extractBlockId ("https://notion.so/Page-" ++ id_a ++ "#block-" ++ id_b)
     = Some (formatUuid id_b).
Proof.
  assert (H : block_fragment_after
                ("https://notion.so/Page-" ++ id_a ++ "#block-" ++ id_b)
                ("https://notion.so/Page-" ++ id_a) id_b).
  { exists "block-", "". repeat split; try reflexivity. now right. }
  split; [exact H | ].
    exact (extractBlockId_first_fragment
           ("https://notion.so/Page-" ++ id_a ++ "#block-" ++ id_b)
           ("https://notion.so/Page-" ++ id_a) id_b eq_refl H).
Defined.

(** X7.  [extractBlockId] returns an identifier exactly when the input
    has a fragment [#<id>] or [#block-<id>] somewhere; an identifier
    alone, which has no [#], gives [null]. *)
Theorem extractBlockId_some_iff (s : string) :
  is_Some (extractBlockId s)
  <-> exists pre id, block_fragment_after s pre id.
Proof. apply extractBlockId_some. Qed.



(** X9.  The two forms of an identifier are extracted alike: of a
    hyphenated identifier, in any letter case, [extractNotionId] returns
    the lower case; deleting its hyphens leaves 32 hexadecimal
    characters, of which [extractNotionId] returns the same. *)
Theorem both_forms_are_extracted_alike (y : string) :
  hyphenated y ->
  hex32 (strip_hyphens y)
  /\ extractNotionId y = Some (toLowerCase y)
  /\ extractNotionId (strip_hyphens y) = extractNotionId y.
Proof.
  intros H. destruct (strip_hyphens_hyphenated y H) as [Hh Hf].
  split; [exact Hh | ].
  rewrite (extractNotionId_hyphenated y H).
  split; [reflexivity | ].
  now rewrite (extractNotionId_compact _ Hh), Hf.
Qed.

Lemma both_forms_are_extracted_alike_witness :
  hyphenated "ABC123DE-F456-7890-1234-5678901234AB"
  /\ extractNotionId "ABC123DE-F456-7890-1234-5678901234AB"
     = Some "abc123de-f456-7890-1234-5678901234ab"
  /\ extractNotionId (strip_hyphens "ABC123DE-F456-7890-1234-5678901234AB")
     = extractNotionId "ABC123DE-F456-7890-1234-5678901234AB".
Proof.
  assert (H : hyphenated "ABC123DE-F456-7890-1234-5678901234AB")
    by (apply test_uuid_hyphenated; vm_compute; reflexivity).
  split; [exact H | ].
  exact (proj2 (both_forms_are_extracted_alike _ H)).
Defined.

(** ** Iterators *)

Import Pagination Consumers Templates PaginationFacts ConsumerFacts.
Import TemplatesFacts.
Local Open Scope list_scope.

(** X10.  [iterateDataSourceTemplates] and [collectDataSourceTemplates]
    are [iteratePaginatedAPI] and [collectPaginatedAPI] over the endpoint
    [client.dataSources.listTemplates], with [templates] in the place of
    [results]: every [next()] settles alike, and so does the collection,
    with the same calls of the endpoint. *)
Theorem templates_as_paginated
        {Template Err World : Type}
        (listTemplates :
           obj -> World
           -> (Err + ListDataSourceTemplatesResponse Template) * World)
        (fuel : nat) (args : obj) (w : World) :
  collectDataSourceTemplates listTemplates fuel args w
  = collectPaginatedAPI (as_listFn listTemplates) fuel args w
  /\ forall g,
       gen_next (as_listFn listTemplates) fuel (as_gen g) w
       = as_result (templates_next listTemplates fuel g w).
Proof.
  split.
  - unfold collectDataSourceTemplates, collectPaginatedAPI.
    symmetry. apply (collect_templates_sim listTemplates fuel
                       (iterateDataSourceTemplates args)).
  - intros g. apply templates_next_sim.
Qed.

(** X11.  When the first call of the endpoint is fulfilled with a
    response without a cursor, [collectDataSourceTemplates] returns the
    templates of this response, whatever [has_more] says, and the
    endpoint is not called again; when the first call is rejected, the
    collection is rejected with the same error. *)
Theorem templates_first_call
        {Template Err World : Type}
        (listTemplates :
           obj -> World
           -> (Err + ListDataSourceTemplatesResponse Template) * World)
        (args : obj) (w w' : World) :
  (forall response,
      listTemplates (<["start_cursor" := get args "start_cursor"]> args) w
      = (inr response, w') ->
      truthy (Templates.next_cursor response) = false ->
      eventually
        (fun fuel => collectDataSourceTemplates listTemplates fuel args w)
        (inr (templates response), w'))
  /\ (forall e,
         listTemplates (<["start_cursor" := get args "start_cursor"]> args) w
         = (inl e, w') ->
         eventually
           (fun fuel => collectDataSourceTemplates listTemplates fuel args w)
           (inl e, w')).
Proof.
  assert (T : forall r,
             eventually
               (fun fuel =>
                  collect_loop (as_listFn listTemplates) fuel
                    (as_gen (iterateDataSourceTemplates args)) w []) r ->
             eventually
               (fun fuel =>
                  collectDataSourceTemplates listTemplates fuel args w) r).
  { intros r [n H]. exists n. intros fuel Hf.
    unfold collectDataSourceTemplates.
    rewrite <- collect_templates_sim. now apply H. }
  split.
  - intros response E Hc. apply T.
    eapply collect_internal.
    { simpl. unfold as_listFn. rewrite E. reflexivity. }
    apply (collect_pending _ _ _ _ _ []). simpl.
    eapply collect_returns. simpl. now rewrite Hc.
  - intros e E. apply T.
    eapply collect_throws. simpl. unfold as_listFn. now rewrite E.
Qed.

Lemma templates_first_call_witness :
  one_page (<["start_cursor" := get list_args "start_cursor"]> list_args) tt
  = (inr {| templates := [1; 2]; Templates.next_cursor := VNull;
            Templates.has_more := true |}, tt)
  /\ eventually
       (fun fuel => collectDataSourceTemplates one_page fuel list_args tt)
       (inr [1; 2], tt).
Proof.
  split; [reflexivity | ].
  exact (proj1 (templates_first_call one_page list_args tt tt)
           _ eq_refl eq_refl).
Defined.

(** X12.  When [listFn] is fulfilled every time with a response that has
    a cursor, the loop of [iteratePaginatedAPI] does not end:
    [collectPaginatedAPI] does not settle, however long it runs. *)
Theorem collect_never_settles
        {Item Err World : Type}
        (listFn : obj -> World -> (Err + PaginatedList Item) * World)
        (firstPageArgs : obj) (w : World) :
  endless listFn ->
  forall fuel, collectPaginatedAPI listFn fuel firstPageArgs w = None.
Proof.
  intros H fuel. unfold collectPaginatedAPI.
  apply (collect_live listFn H). exact I.
Qed.

Lemma collect_never_settles_witness :
  endless looping
  /\ forall fuel, collectPaginatedAPI looping fuel list_args tt = None.
Proof.
  assert (H : endless looping).
  { intros args w. do 2 eexists. split; reflexivity. }
  split; [exact H | ].
  exact (collect_never_settles looping list_args tt H).
Defined.

(** X13.  The iterator is lazy: a consumer that takes [n] items, at
    least one and no more than the first page has, has made [listFn]
    be called once, and the generator is left inside the first page. *)
Theorem iterator_is_lazy
        {Item Err World : Type}
        (listFn : obj -> World -> (Err + PaginatedList Item) * World)
        (firstPageArgs : obj) (w w' : World) (response : PaginatedList Item)
        (n fuel : nat) :
  let args :=
    <["start_cursor" := get firstPageArgs "start_cursor"]> firstPageArgs in
  listFn args w = (inr response, w') ->
  1 <= n <= length (results response) ->
  pull (spy listFn) n (S (S fuel)) (iteratePaginatedAPI firstPageArgs) (w, [])
  = Some (map IterValue (firstn n (results response)),
          AtYield firstPageArgs response (skipn n (results response)),
          (w', [(args, inr response)])).
Proof.
  intros args E [H1 H2].
  unfold iteratePaginatedAPI.
  rewrite (pull_first_page (spy listFn) n fuel firstPageArgs
             (get firstPageArgs "start_cursor") (w, []) response
             (w', [(args, inr response)])).
  - destruct n; [lia | reflexivity].
  - unfold spy. fold args. now rewrite E.
  - exact H2.
Qed.

Lemma iterator_is_lazy_witness :
  pull (spy (scripted used_up)) 2 2 (iteratePaginatedAPI list_args)
       ([inr page_1; inr page_2], [])
  = Some ([IterValue 1; IterValue 2],
          AtYield list_args page_1 [],
          ([inr page_2],
           [(<["start_cursor" := VUndefined]> list_args, inr page_1)])).
Proof.
  exact (iterator_is_lazy (scripted used_up) list_args
           [inr page_1; inr page_2] [inr page_2] page_1 2 0
           eq_refl (conj (le_S _ _ (le_n 1)) (le_n 2))).
Defined.

(** X14.  [collectPaginatedAPI] returns what a consumer of
    [iteratePaginatedAPI] receives: when the consumer sees the items
    [items] and then the end, the collection is fulfilled with [items],
    in this order; when it sees them and then an error, the collection
    is rejected with this error, after the same calls of [listFn]. *)
Theorem collect_is_what_the_iterator_yields
        {Item Err World : Type}
        (listFn : obj -> World -> (Err + PaginatedList Item) * World)
        (firstPageArgs : obj) (w w' : World) (fuel : nat)
        (seen : list (iter_result Item Err)) :
  drain listFn fuel (iteratePaginatedAPI firstPageArgs) w = Some (seen, w') ->
  exists items last,
    seen = map IterValue items ++ [last]
    /\ (forall x, last <> IterValue x)
    /\ collectPaginatedAPI listFn fuel firstPageArgs w
       = Some (match last with
               | IterThrow e => inl e
               | _ => inr items
               end, w').
Proof.
  intros H. unfold collectPaginatedAPI.
  exact (collect_of_drain listFn fuel _ w [] seen w' H).
Qed.

Lemma collect_is_what_the_iterator_yields_witness :
  drain (scripted used_up) 10 (iteratePaginatedAPI list_args)
        [inr page_1; inr page_2]
  = Some ([IterValue 1; IterValue 2; IterValue 3; IterDone], [])
  /\ exists items last,
       [IterValue 1; IterValue 2; IterValue 3; IterDone]
       = map IterValue items ++ [last]
       /\ (forall x, last <> IterValue x)
       /\ collectPaginatedAPI (scripted used_up) 10 list_args
            [inr page_1; inr page_2]
          = Some (match last with
                  | IterThrow e => inl e
                  | _ => inr items
                  end, []).
Proof.
  assert (H : drain (scripted used_up) 10 (iteratePaginatedAPI list_args)
                    [inr page_1; inr page_2]
              = Some ([IterValue 1; IterValue 2; IterValue 3; IterDone], []))
    by reflexivity.
  split; [exact H | ].
  exact (collect_is_what_the_iterator_yields (scripted used_up) list_args
           _ _ 10 _ H).
Defined.

(** ** Rich text *)

Import RichText RichTextKinds RichTextFacts RenderingFacts.

(** X15.  Both renderings of rich text go through concatenation: the
    rendering of two arrays put together is the two renderings put
    together. *)
Theorem renderings_of_concatenation (a b : list RichTextItem) :
  richTextToPlainText (ArgArray (a ++ b))
  = (richTextToPlainText (ArgArray a)
       ++ richTextToPlainText (ArgArray b))%string
  /\ richTextToMarkdown (ArgArray (a ++ b))
     = (richTextToMarkdown (ArgArray a)
          ++ richTextToMarkdown (ArgArray b))%string.
Proof.
  unfold richTextToPlainText, richTextToMarkdown. simpl.
  now rewrite !List.map_app, !join_app.
Qed.

(** X16.  [richTextToMarkdown] puts the [plain_text] of an item into its
    output as it is, without escaping anything: what comes before and
    after it depends on the type, the annotations and the link of the
    item only. *)
Theorem markdown_keeps_text_verbatim (item : RichTextItem) :
  exists before after,
    forall t,
      markdown_of_item (with_plain_text item (Some t))
      = (before ++ t ++ after)%string.
Proof.
  change (framing (fun t => markdown_of_item (with_plain_text item (Some t)))).
  assert (E : forall t, or_empty (Some t) = t) by (intros [ | c t]; reflexivity).
  unfold markdown_of_item, with_plain_text, link_of.
  cbn [type plain_text annotations text].
  destruct (String.eqb (type item) "equation").
  { apply (framing_ext (fun t => "$" ++ t ++ "$")%string);
      [intros t; now rewrite E | ].
    apply (framing_wrap (fun x => x)), framing_id. }
  destruct (String.eqb (type item) "mention").
  { apply (framing_ext (fun t => t)); [intros t; now rewrite E | ].
    apply framing_id. }
  assert (A : framing
                (fun t =>
                   match annotations item with
                   | Some a =>
                       let text := if bold a then "**" ++ or_empty (Some t) ++ "**"
                                   else or_empty (Some t) in
                       let text := if italic a then "*" ++ text ++ "*"
                                   else text in
                       let text := if strikethrough a then "~~" ++ text ++ "~~"
                                   else text in
                       let text := if underline a then "<u>" ++ text ++ "</u>"
                                   else text in
                       let text := if RichText.code a then "`" ++ text ++ "`"
                                   else text in
                       text
                   | None => or_empty (Some t)
                   end)%string).
  { destruct (annotations item) as [a | ].
    - cbv zeta.
      apply (framing_if (RichText.code a)), (framing_if (underline a)),
        (framing_if (strikethrough a)), (framing_if (italic a)).
      apply (framing_ext
               (fun t => if bold a then "**" ++ t ++ "**" else t)%string);
        [intros t; now rewrite E | ].
      apply (framing_if (bold a) (fun x => x)), framing_id.
    - apply (framing_ext (fun t => t)); [intros t; now rewrite E | ].
      apply framing_id. }
  destruct (String.eqb (type item) "text"); [ | exact A].
  destruct (match text item with Some t => link t | None => None end)
    as [l | ]; [ | exact A].
  now apply (framing_wrap _ "[" ("](" ++ url l ++ ")")%string).
Qed.

(** X17.  No rich text item is of two kinds: at most one of
    [isTextRichTextItemResponse], [isEquationRichTextItemResponse] and
    [isMentionRichTextItemResponse] holds of it. *)
Theorem rich_text_kinds_exclude (richText : RichTextItem) :
  length (List.filter (fun b : bool => b)
            [isTextRichTextItemResponse richText;
             isEquationRichTextItemResponse richText;
             isMentionRichTextItemResponse richText]) <= 1.
Proof.
  unfold isTextRichTextItemResponse, isEquationRichTextItemResponse,
    isMentionRichTextItemResponse.
  destruct (String.eqb_spec (type richText) "text") as [-> | _];
    [simpl; lia | ].
  destruct (String.eqb_spec (type richText) "equation") as [-> | _];
    [simpl; lia | ].
  destruct (String.eqb (type richText) "mention"); simpl; lia.
Qed.

(** ** Responses, pages and blocks *)

Import Shapes Pages PageHelpers ShapesFacts PagesFacts PageHelperFacts.

(** X18.  [isFullPageOrDataSource] holds exactly when [isFullDataSource]
    or [isFullPage] holds; and no response is full in two ways: at most
    one of [isFullBlock], [isFullPage], [isFullDataSource] and
    [isFullDatabase] holds of it. *)
Theorem full_in_one_way (response : obj) :
  isFullPageOrDataSource response
  = isFullDataSource response || isFullPage response
  /\ length (List.filter (fun b : bool => b)
               [isFullBlock response; isFullPage response;
                isFullDataSource response; isFullDatabase response]) <= 1.
Proof.
  unfold isFullPageOrDataSource, isFullBlock, isFullPage, isFullDataSource,
    isFullDatabase.
  destruct (get response "object") as [ | | b | n | s | l | o];
    try (simpl; split; [reflexivity | lia]).
  cbn [is_str].
  destruct (String.eqb_spec s "data_source") as [-> | _];
    [simpl; split; [reflexivity | lia] | ].
  destruct (String.eqb_spec s "block") as [-> | _];
    [simpl; split; [reflexivity | destruct (has "type" response); simpl; lia]
    | ].
  destruct (String.eqb_spec s "page") as [-> | _];
    [simpl; split; [reflexivity | destruct (has "url" response); simpl; lia]
    | ].
  destruct (String.eqb s "database"); simpl; split; (reflexivity || lia).
Qed.


Section Enumeration.
Variable own_keys : obj -> list string.

(** X20.  On a full page that has one title property (of the type
    [title], with a payload) and whose other properties are objects,
    [getPageTitle] returns what [getPageProperty] returns for the name of
    the title property, in whatever order the properties are
    enumerated. *)
Theorem getPageTitle_is_the_title_property
        (page props property : obj) (name : string) :
  enumerates own_keys ->
  isFullPage page = true ->
  page !! "properties" = Some (VObj props) ->
  props !! name = Some (VObj property) ->
  is_title (VObj property) = true ->
  (forall k v, k <> name -> props !! k = Some v -> passed_by v = true) ->
  getPageTitle own_keys page = getPageProperty page name.
Proof.
  intros He Hf Hp Hn Ht Ho.
  rewrite (getPageProperty_title page props property name Hf Hp Hn Ht).
  unfold getPageTitle, get at 1. rewrite Hf, Hp. cbn [negb values].
  destruct (He props) as [_ Hk].
  apply (first_title_found props name property Hn Ht Ho).
  - intros k H. now apply Hk.
  - apply Hk. eauto.
Qed.

(** X21.  On a full page without properties ([properties] missing or
    [null]), [getPageTitle] throws, where [getPageProperty] returns
    [null], [getPagePropertyNames] the empty array and
    [getPagePropertiesAsObject] the empty object. *)
Theorem getPageTitle_throws_without_properties
        (page : obj) (propertyName : string) :
  isFullPage page = true ->
  nullish (get page "properties") = true ->
  getPageTitle own_keys page = Throw
  /\ getPageProperty page propertyName = Return VNull
  /\ getPagePropertyNames own_keys page = Return (VArr [])
  /\ getPagePropertiesAsObject own_keys page = Return (VObj ∅).
Proof.
  intros Hf Hn.
  unfold getPageTitle, getPageProperty, getPagePropertyNames,
    getPagePropertiesAsObject.
  rewrite Hf.
  destruct (get page "properties"); try discriminate; auto.
Qed.

(** X22.  [getPageTitle] returns the empty string for a page that is
    not full, and for a full page none of whose properties is a title
    property, when all of them are objects. *)
Theorem getPageTitle_without_title (page : obj) :
  (isFullPage page = false -> getPageTitle own_keys page = Return (VStr ""))
  /\ (forall props,
         enumerates own_keys ->
         page !! "properties" = Some (VObj props) ->
         (forall k v, props !! k = Some v -> passed_by v = true) ->
         getPageTitle own_keys page = Return (VStr "")).
Proof.
  split.
  - intros H. unfold getPageTitle. now rewrite H.
  - intros props He Hp Ho. unfold getPageTitle.
    destruct (isFullPage page); [ | reflexivity]. cbn [negb].
    unfold get at 1. rewrite Hp. cbn [values].
    apply first_title_none, forallb_forall.
    intros v Hv. apply in_map_iff in Hv. destruct Hv as (k & <- & Hk).
    apply (He props) in Hk. destruct Hk as [v Hv].
    unfold get. rewrite Hv. now apply (Ho k).
Qed.

(** X23.  On a full page, [getPagePropertyNames] returns the keys of
    [properties], each of them once, and [getPageProperty] returns
    [null] for every name that is not among them. *)
Theorem property_names_are_the_keys (page props : obj) :
  enumerates own_keys ->
  isFullPage page = true ->
  page !! "properties" = Some (VObj props) ->
  getPagePropertyNames own_keys page
  = Return (VArr (map VStr (own_keys props)))
  /\ NoDup (own_keys props)
  /\ (forall name, In name (own_keys props) <-> is_Some (props !! name))
  /\ (forall name,
         ~ In name (own_keys props) ->
         getPageProperty page name = Return VNull).
Proof.
  intros He Hf Hp. destruct (He props) as [Hd Hk].
  split; [ | split; [exact Hd | split; [exact Hk | ]]].
  - unfold getPagePropertyNames, get. now rewrite Hf, Hp.
  - intros name Hn. apply (getPageProperty_absent page props name Hp).
    destruct (props !! name) as [v | ] eqn:E; [ | reflexivity].
    exfalso. apply Hn, Hk. eauto.
Qed.

(** X24.  When [getPagePropertiesAsObject] returns, the result is an
        object that has, for every name that [getPagePropertyNames] lists
    (but [__proto__], which an assignment does not make a key), the
    value that [getPageProperty] returns for the name, and has no other
    key; [getPageProperty] has returned for every one of these names. *)
Theorem properties_object_agrees (page : obj) (v : value) :
  getPagePropertiesAsObject own_keys page = Return v ->
  exists result names,
    v = VObj result
    /\ getPagePropertyNames own_keys page = Return (VArr (map VStr names))
    /\ (forall name,
           In name names -> exists w, getPageProperty page name = Return w)
    /\ forall name w,
         result !! name = Some w
         <-> In name names /\ name <> "__proto__"
             /\ getPageProperty page name = Return w.
Proof.
  unfold getPagePropertiesAsObject, getPagePropertyNames.
  destruct (negb (isFullPage page) || negb (truthy (get page "properties")))
    eqn:G.
  - intros [= <-]. exists ∅, []. split; [reflexivity | ].
    split; [reflexivity | ]. split; [intros name [] | ].
    intros name w. rewrite lookup_empty.
    split; [discriminate | intros ([] & _)].
  - destruct (keys own_keys (get page "properties")) as [names | ];
      [ | discriminate].
    intros H.
    assert (R : forall name,
               In name names ->
               exists w, getPageProperty page name = Return w).
    { intros name Hn.
      destruct (getPageProperty page name) as [w | ] eqn:E; [eauto | ].
      assert (T : assign_all page names ∅ = Throw)
        by (apply assign_all_throws; eauto).
      congruence. }
    apply assign_all_returns in H. destruct H as (r & -> & Hr).
    exists r, names. split; [reflexivity | ]. split; [reflexivity | ].
    split; [exact R | ].
    intros name w. rewrite Hr, lookup_empty.
    destruct (existsb (String.eqb name) names) eqn:X.
    + apply existsb_eqb in X.
      destruct (String.eqb_spec name "__proto__") as [-> | Np]; cbn.
      * split; [discriminate | ]. intros (_ & N & _). contradiction.
      * destruct (getPageProperty page name) as [w' | ].
        -- split; [intros [= ->]; auto | ].
           intros (_ & _ & [= ->]). reflexivity.
        -- split; [discriminate | ]. intros (_ & _ & ?). discriminate.
    + cbn. split; [discriminate | ]. intros (N & _).
      apply existsb_eqb in N. congruence.
Qed.

(** X25.  [getPagePropertiesAsObject] throws exactly when
    [getPageProperty] throws for one of the names that
    [getPagePropertyNames] lists: one property that cannot be read makes
    the whole conversion fail. *)
Theorem properties_object_throws_iff (page : obj) :
  getPagePropertiesAsObject own_keys page = Throw
  <-> exists names name,
        getPagePropertyNames own_keys page = Return (VArr (map VStr names))
        /\ In name names
        /\ getPageProperty page name = Throw.
Proof.
  unfold getPagePropertiesAsObject, getPagePropertyNames.
  destruct (negb (isFullPage page) || negb (truthy (get page "properties")))
    eqn:G.
  - split; [discriminate | ].
    intros (names & name & [= E] & H & _).
    destruct names; [contradiction | discriminate].
  - apply orb_false_iff in G. destruct G as [_ G].
    apply negb_false_iff in G.
    destruct (keys_truthy own_keys _ G) as [names ->].
    rewrite assign_all_throws. split.
    + intros (name & H & E). exists names, name. auto.
    + intros (names' & name & [= E] & H & T).
      apply map_VStr_inj in E. subst names'. eauto.
Qed.
End Enumeration.

Lemma getPageTitle_is_the_title_property_witness :
  (isFullPage sample_page = true
   /\ sample_page !! "properties" = Some (VObj sample_properties)
   /\ sample_properties !! "Name" = Some (VObj name_property)
   /\ is_title (VObj name_property) = true)
  /\ getPageTitle map_keys sample_page = getPageProperty sample_page "Name"
  /\ getPageProperty sample_page "Name" = Return (VStr "Test Title").
Proof.
  split; [repeat split | ]. split; [ | reflexivity].
  exact (getPageTitle_is_the_title_property map_keys sample_page
           sample_properties name_property "Name" map_keys_enumerates
           eq_refl eq_refl eq_refl eq_refl sample_others).
Defined.

Lemma getPageTitle_throws_without_properties_witness :
  (isFullPage bare_page = true
   /\ nullish (get bare_page "properties") = true)
  /\ getPageTitle map_keys bare_page = Throw
  /\ getPageProperty bare_page "Name" = Return VNull.
Proof.
  split; [split; reflexivity | ].
  pose proof (getPageTitle_throws_without_properties map_keys bare_page
                "Name" eq_refl eq_refl) as (H1 & H2 & _).
  exact (conj H1 H2).
Defined.

Lemma getPageTitle_without_title_witness :
  select_null_page !! "properties" = Some (VObj select_null_properties)
  /\ getPageTitle map_keys select_null_page = Return (VStr "").
Proof.
  split; [reflexivity | ].
  exact (proj2 (getPageTitle_without_title map_keys select_null_page)
           select_null_properties map_keys_enumerates eq_refl
           select_null_others).
Defined.

Lemma property_names_are_the_keys_witness :
  (isFullPage sample_page = true
   /\ sample_page !! "properties" = Some (VObj sample_properties))
  /\ getPagePropertyNames map_keys sample_page
     = Return (VArr (map VStr (map_keys sample_properties)))
  /\ getPageProperty sample_page "Missing" = Return VNull.
Proof.
  split; [split; reflexivity | ].
  pose proof (property_names_are_the_keys map_keys sample_page
                sample_properties map_keys_enumerates eq_refl eq_refl)
    as (H1 & _ & Hk & H2).
  split; [exact H1 | ].
  apply (H2 "Missing"). intros H.
  destruct (proj1 (Hk "Missing") H) as [v E].
  assert (N : sample_properties !! "Missing" = None) by reflexivity.
  rewrite N in E. discriminate E.
Defined.

Lemma properties_object_agrees_witness :
  getPagePropertiesAsObject map_keys sample_page = Return (VObj sample_values)
    /\ exists result names,
       VObj sample_values = VObj result
       /\ getPagePropertyNames map_keys sample_page
          = Return (VArr (map VStr names))
       /\ (forall name,
              In name names ->
              exists w, getPageProperty sample_page name = Return w)
       /\ forall name w,
            result !! name = Some w
            <-> In name names /\ name <> "__proto__"
                /\ getPageProperty sample_page name = Return w.
Proof.
  assert (H : getPagePropertiesAsObject map_keys sample_page
              = Return (VObj sample_values)) by (vm_compute; reflexivity).
  split; [exact H | ].
  exact (properties_object_agrees map_keys sample_page _ H).
Defined.

(** X26.  For a full block of one of the kinds with a text (paragraph,
    headings, list items, toggle, to-do, quote, callout, code) whose
    payload has an array of rich text items, [getBlockPlainText] returns
    the texts of the items put together. *)
Theorem getBlockPlainText_of_text_block
        (block payload : obj) (tag : string) (items : list value) :
  block !! "object" = Some (VStr "block") ->
  block !! "type" = Some (VStr tag) ->
  In tag text_kinds ->
  block !! tag = Some (VObj payload) ->
  payload !! "rich_text" = Some (VArr items) ->
  forallb is_span items = true ->
  getBlockPlainText block
  = Return (VStr (fold_right String.append "" (map span_text items))).
Proof.
  intros Ho Ht Hk Hp Hr Hs. unfold getBlockPlainText.
  assert (Hf : isFullBlock block = true)
    by (apply isFullBlock_iff; split; [exact Ho | eauto]).
  rewrite Hf. cbn [negb]. unfold get at 1. rewrite Ht.
  rewrite (block_dispatch_known tag block Hk).
  unfold block_text, has, get. rewrite Hp.
  unfold rich_text_of. cbn [nullish member]. unfold get. rewrite Hr.
  now apply plain_text_of_spans.
Qed.

Lemma getBlockPlainText_of_text_block_witness :
  (paragraph_block !! "object" = Some (VStr "block")
   /\ paragraph_block !! "type" = Some (VStr "paragraph")
   /\ paragraph_block !! "paragraph" = Some (VObj paragraph_payload)
   /\ paragraph_payload !! "rich_text" = Some title_payload)
  /\ getBlockPlainText paragraph_block = Return (VStr "Test Title").
Proof.
  split; [repeat split | ].
  exact (getBlockPlainText_of_text_block paragraph_block paragraph_payload
           "paragraph"
           [VObj (<["type" := VStr "text"]>
                    (<["plain_text" := VStr "Test Title"]> ∅))]
           eq_refl eq_refl (or_introl eq_refl) eq_refl eq_refl eq_refl).
Defined.


(** X28.  [getBlockPlainText] returns the empty string for a block that
    is not full, for a block of a kind without a text (an image, a
    divider, a kind that the helper does not know), and for a block that
    lacks the payload of its kind. *)
Theorem getBlockPlainText_without_text (block : obj) :
  (isFullBlock block = false -> getBlockPlainText block = Return (VStr ""))
  /\ (forall tag,
         block !! "type" = Some (VStr tag) ->
         ~ In tag text_kinds \/ block !! tag = None ->
         getBlockPlainText block = Return (VStr "")).
Proof.
  unfold getBlockPlainText. split.
  - now intros ->.
  - intros tag Ht H. destruct (isFullBlock block); [ | reflexivity].
    cbn [negb]. unfold get at 1. rewrite Ht.
    destruct (in_text_kinds_dec tag) as [Hk | Hk];
      [ | now apply block_dispatch_unknown].
    destruct H as [H | H]; [contradiction | ].
    rewrite (block_dispatch_known tag block Hk).
    unfold block_text, has. now rewrite H.
Qed.

Lemma getBlockPlainText_without_text_witness :
  (sample_block !! "type" = Some (VStr "paragraph")
   /\ sample_block !! "paragraph" = None)
  /\ getBlockPlainText sample_block = Return (VStr "").
Proof.
  split; [split; reflexivity | ].
  exact (proj2 (getBlockPlainText_without_text sample_block) "paragraph"
           eq_refl (or_intror eq_refl)).
Defined.

End Extras.
